(** * captcha-canvas: a shallow embedding of [src/main.js]

    The development follows the source file top to bottom: the helper
    [getRandom], the class [CaptchaGenerator] with its constructor, the
    [text] accessor, the five setters and the asynchronous [generate].

    Modelling choices.
    - JavaScript numbers that the code uses as integers (height, width,
      character count, sizes) are [Z], with the integer operations on them.
      Numbers that are fractional (opacities, the values of [Math.random],
      the x-coordinates [widhtGap*(i + 0.2)]) are the rationals [Q] that
      the doubles denote, and every sum or product that involves one is
      rounded to the nearest double, ties to even, as IEEE 754 prescribes
      (module [Double]).  So [50*(2 + 0.2)] is [110 + 2^-46], which prints
      as 110.00000000000001, and not 110.
    - Strings are [string]; a one-character read [s[n]] is [String.get],
      whose [None] stands for [undefined].
    - The option object of the captcha text is mutated in place by the
      constructor and by [setCaptcha], and the constructor stores the
      module-level object [defaultCaptchaOptions] itself in [this.captcha].
      These objects therefore live in a store and a generator holds a
      reference.  The trace and decoy option objects are never written to,
      only replaced, so they are plain values.
    - [Math.random], [crypto.randomBytes] and [resolveImage] are the
      collaborators of the code; the world carries a stream for each of the
      first two and a table for the last.  [randomBytes] refuses a size
      outside [0 .. 2^31 - 1], and [toString('hex')] on a buffer refuses to
      build a string of more than [2^29 - 24] characters.
    - The rendering surface ([Canvas] of canvas-constructor) is a recorder:
      the world holds the list of calls issued to the surface built by the
      current [generate], each with the block of [generate] that issued
      it. *)

From Stdlib Require Import ZArith QArith Qround Lqa List Sorted String Ascii Bool Lia.
From Stdlib Require Import Morphisms Strings.Byte.
Import ListNotations.

Local Open Scope Z_scope.

(** ** Strings: hexadecimal encoding, upper-casing, the letter filter *)

Module Str.

(** One digit of [Buffer.prototype.toString("hex")]: lower-case. *)
Definition hexDigit (n : N) : ascii :=
  if (n <? 10)%N then ascii_of_N (48 + n) else ascii_of_N (87 + n).

Definition hexOfByte (b : byte) : list ascii :=
  let n := Byte.to_N b in [hexDigit (n / 16)%N; hexDigit (n mod 16)%N].

(** [buf.toString("hex")]: two digits for each byte. *)
Fixpoint toHex (bs : list byte) : list ascii :=
  match bs with
  | [] => []
  | b :: bs' => hexOfByte b ++ toHex bs'
  end.

Definition isLower (c : ascii) : bool :=
  let n := N_of_ascii c in ((97 <=? n) && (n <=? 122))%N.

Definition isUpper (c : ascii) : bool :=
  let n := N_of_ascii c in ((65 <=? n) && (n <=? 90))%N.

(** [String.prototype.toUpperCase] on the ASCII range. *)
Definition upperChar (c : ascii) : ascii :=
  if isLower c then ascii_of_N (N_of_ascii c - 32) else c.

Definition toUpperCase (s : list ascii) : list ascii := map upperChar s.

(** The class [a-z] under the flag [i]: what [/[^a-z]/gi] leaves in place. *)
Definition isLetter (c : ascii) : bool := isLower c || isUpper c.

(** [s.replace(/[^a-z]/gi, EMPTY)]: every character that is not a letter
    is removed. *)
Definition stripNonLetters (s : list ascii) : list ascii := filter isLetter s.

(** [s.substr(0, n)]: a length that is zero or negative gives the empty
    string. *)
Definition substr0 (s : list ascii) (n : Z) : list ascii :=
  firstn (Z.to_nat n) s.

(** Membership in the alphabet A..F. *)
Definition isAF (c : ascii) : bool :=
  let n := N_of_ascii c in ((65 <=? n) && (n <=? 70))%N.

(** Membership in the lower-case hexadecimal alphabet. *)
Definition isHexLower (c : ascii) : bool :=
  let n := N_of_ascii c in
  (((48 <=? n) && (n <=? 57)) || ((97 <=? n) && (n <=? 102)))%N.

End Str.

(** ** Double-precision arithmetic

    A finite double is a rational [m * 2^e] with [|m| < 2^53] and
    [e >= -1074].  [round q] is the double nearest to [q], the one with the
    even significand when two are equally near.  Overflow to an infinity,
    at magnitudes of [2^1024] and more, is not modelled. *)

Module Double.

(** The smallest positive double is [1 / scale]. *)
Definition scale : Z := 2 ^ 1074.

(** The integer nearest to [t], the even one on a tie. *)
Definition roundNE (t : Q) : Z :=
  let f := Qfloor t in
  match (t - inject_Z f ?= 1 # 2)%Q with
  | Lt => f
  | Gt => f + 1
  | Eq => if Z.even f then f else f + 1
  end.

(** The number of low bits that a value of [n] units of [1 / scale] loses
    to fit 53 bits. *)
Definition shiftZ (n : Z) : Z := Z.max 0 (Z.log2 n - 52).

Definition shift (q : Q) : Z := shiftZ (Qfloor (q * inject_Z scale)).

(** The double nearest to [q >= 0], in units of [1 / scale]. *)
Definition roundPosZ (q : Q) : Z :=
  roundNE (q * inject_Z scale / inject_Z (2 ^ shift q)) * 2 ^ shift q.

Definition roundPos (q : Q) : Q :=
  Qred (inject_Z (roundPosZ q) / inject_Z scale).

Definition round (q : Q) : Q :=
  if Qle_bool 0 q then roundPos q else (- roundPos (- q))%Q.

(** [a + b] and [a * b] on doubles. *)
Definition add (a b : Q) : Q := round (a + b).

Definition mul (a b : Q) : Q := round (a * b).

(** The rationals that are doubles. *)
Definition isDouble (q : Q) : Prop := (round q == q)%Q.

End Double.

(** ** Data model *)

(** [this.captcha]: the option group of the challenge text. *)
Record CaptchaOptions := mkCaptchaOptions {
  co_text : string;
  co_characters : Z;
  co_font : string;
  co_size : Z;
  co_color : string;
  co_opacity : Q
}.

(** [this.trace]. *)
Record TraceOptions := mkTraceOptions {
  to_color : string;
  to_size : Z;
  to_opacity : Q
}.

(** [this.decoy]. *)
Record DecoyOptions := mkDecoyOptions {
  do_font : string;
  do_size : Z;
  do_color : string;
  do_opacity : Q
}.

(** The argument of [setCaptcha]: any subset of the fields. *)
Record SetCaptchaOptions := mkSetCaptchaOptions {
  sc_text : option string;
  sc_characters : option Z;
  sc_font : option string;
  sc_size : option Z;
  sc_color : option string;
  sc_opacity : option Q
}.

Record SetTraceOptions := mkSetTraceOptions {
  st_color : option string;
  st_size : option Z;
  st_opacity : option Q
}.

Record SetDecoyOptions := mkSetDecoyOptions {
  sd_font : option string;
  sd_size : option Z;
  sd_color : option string;
  sd_opacity : option Q
}.

(** The option object of the constructor. *)
Record ConstructorOptions := mkConstructorOptions {
  opt_height : option Z;
  opt_width : option Z
}.

(** The argument of the constructor: absent, [null], or an option
    object. *)
Inductive ConstructorArgument :=
| Undefined
| Null
| Object (options : ConstructorOptions).

Coercion Object : ConstructorOptions >-> ConstructorArgument.

(** A reference to a captcha option object. *)
Definition ref := nat.

(** An instance of the class.  [background] is [None] until
    [setBackground] is called. *)
Record CaptchaGenerator := mkCaptchaGenerator {
  height : Z;
  width : Z;
  background : option string;
  captcha : ref;
  trace : TraceOptions;
  decoy : DecoyOptions
}.

(** A layout coordinate [[x, y]]. *)
Definition Coordinate : Type := Q * Z.

(** A decoded image, as [resolveImage] gives it. *)
Inductive Image := ImageOf (source : string).

(** The calls of the rendering surface that the code issues.  The font
    string [`${size}px ${font}`] is kept as its two components. *)
Inductive CanvasOp :=
| NewCanvas (w h : Z)
| SetTextBaseline (v : string)
| SetLineJoin (v : string)
| PrintImage (img : Image) (x y w h : Z)
| SetTextFont (size : Z) (font : string)
| SetGlobalAlpha (a : Q)
| SetColor (c : string)
| PrintText (glyph : option ascii) (x y : Q)
| SetStroke (c : string)
| BeginPath
| MoveTo (x y : Q)
| SetStrokeWidth (s : Z)
| LineTo (x y : Q)
| Stroke
| ToBuffer.

(** The blocks of [generate], in the order of the source text: canvas
    construction and styling (lines 119-121), the background block
    (136-139), the decoy block (141-150), the trace block (151-161), the
    captcha text block (162-169) and the final [toBuffer] (170). *)
Inductive Stage :=
| StSetup
| StBackground
| StDecoy
| StTrace
| StText
| StOutput.

(** A recorded call: the block that issued it and the call. *)
Definition Call : Type := Stage * CanvasOp.

(** What a call can throw. *)
Inductive Exn :=
| RangeError      (* crypto.randomBytes: size out of range *)
| TypeError       (* a property read on undefined or null *)
| ImageError      (* resolveImage rejected *)
| StringTooLong.  (* ERR_STRING_TOO_LONG: a string beyond the engine's limit *)

Inductive Result (A : Type) :=
| Ok (a : A)
| Throw (e : Exn).
Arguments Ok {A} a.
Arguments Throw {A} e.

(** ** The world the code runs in *)

Record World := mkWorld {
  (** successive values of [Math.random()] *)
  mathRandom : nat -> Q;
  mathPos : nat;
  (** successive bytes of the system's random source *)
  cryptoSource : nat -> byte;
  cryptoPos : nat;
  (** [resolveImage]: [None] is a rejection *)
  images : string -> option Image;
  (** captcha option objects, and the next free reference *)
  store : ref -> CaptchaOptions;
  nextRef : ref;
  (** the bindings imported from ["./constants"] *)
  defaultCaptchaOptions : ref;
  defaultTraceOptions : TraceOptions;
  defaultDecoyOptions : DecoyOptions;
  (** calls issued to the surface of the current [generate] *)
  surface : list Call
}.

Definition withMathPos (w : World) (p : nat) : World :=
  mkWorld (mathRandom w) p (cryptoSource w) (cryptoPos w) (images w)
          (store w) (nextRef w) (defaultCaptchaOptions w)
          (defaultTraceOptions w) (defaultDecoyOptions w) (surface w).

Definition withCryptoPos (w : World) (p : nat) : World :=
  mkWorld (mathRandom w) (mathPos w) (cryptoSource w) p (images w)
          (store w) (nextRef w) (defaultCaptchaOptions w)
          (defaultTraceOptions w) (defaultDecoyOptions w) (surface w).

Definition withStore (w : World) (s : ref -> CaptchaOptions) (n : ref) : World :=
  mkWorld (mathRandom w) (mathPos w) (cryptoSource w) (cryptoPos w) (images w)
          s n (defaultCaptchaOptions w)
          (defaultTraceOptions w) (defaultDecoyOptions w) (surface w).

Definition withSurface (w : World) (l : list Call) : World :=
  mkWorld (mathRandom w) (mathPos w) (cryptoSource w) (cryptoPos w) (images w)
          (store w) (nextRef w) (defaultCaptchaOptions w)
          (defaultTraceOptions w) (defaultDecoyOptions w) l.

(** ** State and exception monad *)

Definition M (A : Type) : Type := World -> Result A * World.

Definition ret {A} (a : A) : M A := fun w => (Ok a, w).

Definition bind {A B} (m : M A) (k : A -> M B) : M B :=
  fun w => match m w with
           | (Ok a, w') => k a w'
           | (Throw e, w') => (Throw e, w')
           end.

Definition throw {A} (e : Exn) : M A := fun w => (Throw e, w).

Declare Scope js_scope.
Delimit Scope js_scope with js.
Notation "x <- m ;; k" := (bind m (fun x => k))
  (at level 61, m at next level, right associativity) : js_scope.
Notation "m ;; k" := (bind m (fun _ => k))
  (at level 61, right associativity) : js_scope.
Local Open Scope js_scope.

(** [for (let i = start; i < start + count; i++) body(i)], threading the
    variables the body updates. *)
Fixpoint forLoop {S} (count : nat) (i : Z) (body : Z -> S -> M S) (acc : S) : M S :=
  match count with
  | O => ret acc
  | S k => acc' <- body i acc ;; forLoop k (i + 1) body acc'
  end.

(** ** Collaborators *)

(** [Math.random()]. *)
Definition Math_random : M Q :=
  fun w => (Ok (mathRandom w (mathPos w)), withMathPos w (S (mathPos w))).

(** The largest size [crypto.randomBytes] accepts, as Node documents it:
    [2**31 - 1]. *)
Definition randomBytesMax : Z := 2 ^ 31 - 1.

(** [crypto.randomBytes(size)]: throws when the size is out of range. *)
Definition crypto_randomBytes (size : Z) : M (list byte) :=
  fun w =>
    if (size <? 0) || (randomBytesMax <? size) then (Throw RangeError, w)
    else
      let n := Z.to_nat size in
      (Ok (map (cryptoSource w) (seq (cryptoPos w) n)),
       withCryptoPos w (cryptoPos w + n)%nat).

(** The longest string of the engine: [2**29 - 24] characters. *)
Definition stringMaxLength : Z := 2 ^ 29 - 24.

(** [buf.toString('hex')]: two characters for each byte; throws when the
    string would be longer than the engine allows. *)
Definition Buffer_toString_hex (buf : list byte) : M (list ascii) :=
  if stringMaxLength <? 2 * Z.of_nat (List.length buf) then throw StringTooLong
  else ret (Str.toHex buf).

(** [await resolveImage(src)]. *)
Definition resolveImage (src : string) : M Image :=
  fun w => match images w src with
           | Some img => (Ok img, w)
           | None => (Throw ImageError, w)
           end.

(** A call on the canvas, issued from block [st]. *)
Definition emit (st : Stage) (op : CanvasOp) : M unit :=
  fun w => (Ok tt, withSurface w (surface w ++ [(st, op)])).

(** [new Canvas(width, height)]. *)
Definition newCanvas (w h : Z) : M unit :=
  fun wd => (Ok tt, withSurface wd [(StSetup, NewCanvas w h)]).

(** The current world, for reads of the module bindings and of the
    surface. *)
Definition getWorld : M World := fun w => (Ok w, w).

(** Reading and writing captcha option objects. *)
Definition readObj (r : ref) : M CaptchaOptions :=
  fun w => (Ok (store w r), w).

Definition writeObj (r : ref) (o : CaptchaOptions) : M unit :=
  fun w => (Ok tt,
            withStore w (fun r' => if Nat.eqb r' r then o else store w r')
                      (nextRef w)).

Definition allocObj (o : CaptchaOptions) : M ref :=
  fun w => let r := nextRef w in
           (Ok r,
            withStore w (fun r' => if Nat.eqb r' r then o else store w r')
                      (S r)).

(** ** The module [main.js] *)

(** [Math.floor(Math.random()*(n - 60)) + 30]: the product is a product of
    doubles. *)
Definition getRandom (n : Z) : M Z :=
  r <- Math_random ;;
  ret (Qfloor (Double.mul r (inject_Z (n - 60))) + 30).

(** [v || d] on a number that may be absent: absent and zero give [d]. *)
Definition orDefault (v : option Z) (d : Z) : Z :=
  match v with
  | Some n => if n =? 0 then d else n
  | None => d
  end.

(** A field of an override, or the current value when the override does not
    have the field. *)
Definition pick {A} (o : option A) (cur : A) : A :=
  match o with
  | Some a => a
  | None => cur
  end.

(** [merge(target, source)] of deepmerge on the three option groups: a new
    object with the fields of [source] laid over those of [target]. *)
Definition mergeCaptcha (t : CaptchaOptions) (s : SetCaptchaOptions) : CaptchaOptions :=
  mkCaptchaOptions (pick (sc_text s) (co_text t))
                   (pick (sc_characters s) (co_characters t))
                   (pick (sc_font s) (co_font t))
                   (pick (sc_size s) (co_size t))
                   (pick (sc_color s) (co_color t))
                   (pick (sc_opacity s) (co_opacity t)).

Definition mergeTrace (t : TraceOptions) (s : SetTraceOptions) : TraceOptions :=
  mkTraceOptions (pick (st_color s) (to_color t))
                 (pick (st_size s) (to_size t))
                 (pick (st_opacity s) (to_opacity t)).

Definition mergeDecoy (t : DecoyOptions) (s : SetDecoyOptions) : DecoyOptions :=
  mkDecoyOptions (pick (sd_font s) (do_font t))
                 (pick (sd_size s) (do_size t))
                 (pick (sd_color s) (do_color t))
                 (pick (sd_opacity s) (do_opacity t)).

(** In-place assignments [o.text = v] and [o.characters = v]. *)
Definition setText (o : CaptchaOptions) (v : string) : CaptchaOptions :=
  mkCaptchaOptions v (co_characters o) (co_font o) (co_size o) (co_color o)
                   (co_opacity o).

Definition setCharacters (o : CaptchaOptions) (v : Z) : CaptchaOptions :=
  mkCaptchaOptions (co_text o) v (co_font o) (co_size o) (co_color o)
                   (co_opacity o).

(** The expression of lines 53-54 on the bytes that [randomBytes] gave;
    the hexadecimal string of 32 bytes has 64 characters. *)
Definition challengeText (bytes : list byte) (characters : Z) : string :=
  string_of_list_ascii
    (Str.substr0 (Str.stripNonLetters (Str.toUpperCase (Str.toHex bytes)))
                 characters).

(** The body of the constructor (lines 31-54) on an option object. *)
Definition construct (options : ConstructorOptions) : M CaptchaGenerator :=
  w <- getWorld ;;
  let this :=
    mkCaptchaGenerator (orDefault (opt_height options) 100)
                       (orDefault (opt_width options) 300)
                       None
                       (defaultCaptchaOptions w)
                       (defaultTraceOptions w)
                       (defaultDecoyOptions w) in
  bytes <- crypto_randomBytes 32 ;;
  o <- readObj (captcha this) ;;
  writeObj (captcha this)
           (setText o (challengeText bytes (co_characters o))) ;;
  ret this.

(** [new CaptchaGenerator(options)].  The default [options = {}] of line 26
    replaces an absent argument only: on [null] the read [options.height]
    of line 31, the first statement, throws. *)
Definition constructor (options : ConstructorArgument) : M CaptchaGenerator :=
  match options with
  | Undefined => construct (mkConstructorOptions None None)
  | Null => throw TypeError
  | Object o => construct o
  end.

(** [get text()]. *)
Definition text (this : CaptchaGenerator) (w : World) : string :=
  co_text (store w (captcha this)).

(** The character count of the generator, [this.captcha.characters]. *)
Definition characters (this : CaptchaGenerator) (w : World) : Z :=
  co_characters (store w (captcha this)).

Definition setDimension (this : CaptchaGenerator) (h w : Z) : M CaptchaGenerator :=
  ret (mkCaptchaGenerator h w (background this) (captcha this) (trace this)
                          (decoy this)).

Definition setBackground (this : CaptchaGenerator) (image : string) : M CaptchaGenerator :=
  ret (mkCaptchaGenerator (height this) (width this) (Some image)
                          (captcha this) (trace this) (decoy this)).

(** Truth value of a string that may be absent. *)
Definition truthy (s : option string) : bool :=
  match s with
  | Some EmptyString => false
  | Some _ => true
  | None => false
  end.

Definition setCaptcha (this : CaptchaGenerator) (options : SetCaptchaOptions) : M CaptchaGenerator :=
  cur <- readObj (captcha this) ;;
  r <- allocObj (mergeCaptcha cur options) ;;
  let this' :=
    mkCaptchaGenerator (height this) (width this) (background this) r
                       (trace this) (decoy this) in
  (if truthy (sc_text options) then
     o <- readObj r ;;
     writeObj r (setCharacters o
                   (Z.of_nat (String.length (pick (sc_text options) EmptyString))))
   else ret tt) ;;
  ret this'.

Definition setTrace (this : CaptchaGenerator) (options : SetTraceOptions) : M CaptchaGenerator :=
  ret (mkCaptchaGenerator (height this) (width this) (background this)
                          (captcha this) (mergeTrace (trace this) options)
                          (decoy this)).

Definition setDecoy (this : CaptchaGenerator) (options : SetDecoyOptions) : M CaptchaGenerator :=
  ret (mkCaptchaGenerator (height this) (width this) (background this)
                          (captcha this) (trace this)
                          (mergeDecoy (decoy this) options)).

(** *** [generate] *)

(** [q > 0]. *)
Definition positive (q : Q) : bool := (0 <? Qnum q)%Z.

(** The literal [0.2]: the double nearest to one fifth. *)
Definition fifth : Q := Double.round (1 # 5).

(** The body of the layout loop (lines 125-131) for index [i], with [n] the
    value of [this.captcha.characters].  The sum [i + 0.2] and the product
    are those of doubles. *)
Definition layoutStep (this : CaptchaGenerator) (n : Z) (i : Z)
    (coordinates : list Coordinate) : M (list Coordinate) :=
  let widhtGap := width this / n in
  let randomWidth :=
    Double.mul (inject_Z widhtGap) (Double.add (inject_Z i) fifth) in
  randomHeight <- getRandom (height this) ;;
  ret (coordinates ++ [(randomWidth, randomHeight)]).

(** The layout loop (lines 122-132).  The body does not write to the
    store, so the bound [this.captcha.characters] is the same at every
    test and is read once. *)
Definition layout (this : CaptchaGenerator) : M (list Coordinate) :=
  o <- readObj (captcha this) ;;
  let n := co_characters o in
  forLoop (Z.to_nat n) 0 (layoutStep this n) [].

(** [coordinates.sort((a, b) => a[0] - b[0])]: the sort is stable, which
    fixes its result; it is computed here by insertion. *)
Fixpoint insertByX (c : Coordinate) (l : list Coordinate) : list Coordinate :=
  match l with
  | [] => [c]
  | d :: l' => if Qle_bool (fst c) (fst d) then c :: l else d :: insertByX c l'
  end.

Definition sortByX (l : list Coordinate) : list Coordinate :=
  fold_right insertByX [] l.

(** [coordinates[i]], followed by a property read: an element that is
    absent makes the read throw. *)
Definition readCoordinate (coordinates : list Coordinate) (i : Z) : M Coordinate :=
  if i <? 0 then throw TypeError
  else match nth_error coordinates (Z.to_nat i) with
       | Some c => ret c
       | None => throw TypeError
       end.

(** Lines 136-139. *)
Definition backgroundStage (this : CaptchaGenerator) : M unit :=
  if truthy (background this) then
    img <- resolveImage (pick (background this) EmptyString) ;;
    emit StBackground (PrintImage img 0 0 (width this) (height this))
  else ret tt.

(** The loop of lines 147-149 over the characters of [decoyText]. *)
Fixpoint decoyLoop (this : CaptchaGenerator) (decoyText : list ascii) : M unit :=
  match decoyText with
  | [] => ret tt
  | ch :: rest =>
      x <- getRandom (width this) ;;
      y <- getRandom (height this) ;;
      emit StDecoy (PrintText (Some ch) (inject_Z x) (inject_Z y)) ;;
      decoyLoop this rest
  end.

(** Lines 141-150. *)
Definition decoyStage (this : CaptchaGenerator) : M unit :=
  if positive (do_opacity (decoy this)) then
    let decoyTextCount := (height this * width this) / 10000 in
    bytes <- crypto_randomBytes decoyTextCount ;;
    decoyText <- Buffer_toString_hex bytes ;;
    emit StDecoy (SetTextFont (do_size (decoy this)) (do_font (decoy this))) ;;
    emit StDecoy (SetGlobalAlpha (do_opacity (decoy this))) ;;
    emit StDecoy (SetColor (do_color (decoy this))) ;;
    decoyLoop this decoyText
  else ret tt.

(** The body of the loop of lines 156-159. *)
Definition traceStep (coordinates : list Coordinate) (i : Z) (_ : unit) : M unit :=
  c <- readCoordinate coordinates i ;;
  emit StTrace (LineTo (fst c) (inject_Z (snd c))).

(** Lines 151-161.  The receiver chain of line 152-154 is evaluated before
    the arguments of [moveTo]. *)
Definition traceStage (this : CaptchaGenerator) (coordinates : list Coordinate) : M unit :=
  if positive (to_opacity (trace this)) then
    emit StTrace (SetStroke (to_color (trace this))) ;;
    emit StTrace (SetGlobalAlpha (to_opacity (trace this))) ;;
    emit StTrace BeginPath ;;
    c0 <- readCoordinate coordinates 0 ;;
    emit StTrace (MoveTo (fst c0) (inject_Z (snd c0))) ;;
    emit StTrace (SetStrokeWidth (to_size (trace this))) ;;
    forLoop (List.length coordinates - 1)%nat 1 (traceStep coordinates) tt ;;
    emit StTrace Stroke
  else ret tt.

(** The body of the loop of lines 166-168. *)
Definition textStep (this : CaptchaGenerator) (coordinates : list Coordinate)
    (n : Z) (_ : unit) : M unit :=
  o <- readObj (captcha this) ;;
  c <- readCoordinate coordinates n ;;
  emit StText (PrintText (String.get (Z.to_nat n) (co_text o))
                         (fst c) (inject_Z (snd c))).

(** Lines 162-169. *)
Definition textStage (this : CaptchaGenerator) (coordinates : list Coordinate) : M unit :=
  o <- readObj (captcha this) ;;
  if positive (co_opacity o) then
    emit StText (SetTextFont (co_size o) (co_font o)) ;;
    emit StText (SetGlobalAlpha (co_opacity o)) ;;
    emit StText (SetColor (co_color o)) ;;
    forLoop (List.length coordinates) 0 (textStep this coordinates) tt
  else ret tt.

(** [async generate()].  The value is the content of the surface, which
    stands for the encoded buffer. *)
Definition generate (this : CaptchaGenerator) : M (list Call) :=
  newCanvas (width this) (height this) ;;
  emit StSetup (SetTextBaseline "middle") ;;
  emit StSetup (SetLineJoin "miter") ;;
  coordinates <- layout this ;;
  let coordinates := sortByX coordinates in
  backgroundStage this ;;
  decoyStage this ;;
  traceStage this coordinates ;;
  textStage this coordinates ;;
  emit StOutput ToBuffer ;;
  w <- getWorld ;;
  ret (surface w).

(** * Vocabulary of the statements *)

(** ** Frames and calls *)

(** A computation keeps the component [f] of the world. *)
Definition keeps {X A} (f : World -> X) (m : M A) : Prop :=
  forall w, f (snd (m w)) = f w.

(** A computation that issues no call and leaves the store alone. *)
Definition silent {A} (m : M A) : Prop :=
  forall w, surface (snd (m w)) = surface w /\ store (snd (m w)) = store w.

(** From a world whose store is [s], the computation keeps the store and
    appends to the surface a list of calls that satisfies [L]. *)
Definition runs {A} (s : ref -> CaptchaOptions) (L : list Call -> Prop) (m : M A) : Prop :=
  forall w, store w = s ->
    store (snd (m w)) = s /\
    exists l, surface (snd (m w)) = surface w ++ l /\ L l.

(** Every call that is appended satisfies [P]. *)
Definition issues {A} (s : ref -> CaptchaOptions) (P : Call -> Prop) (m : M A) : Prop :=
  runs s (Forall P) m.

(** The computation does not throw a [TypeError]. *)
Definition safe {A} (m : M A) : Prop :=
  forall w, fst (m w) <> Throw TypeError.

(** What [generate] does once the canvas is built (lines 120-170). *)
Definition draw (this : CaptchaGenerator) : M (list Call) :=
  emit StSetup (SetTextBaseline "middle") ;;
  emit StSetup (SetLineJoin "miter") ;;
  coordinates <- layout this ;;
  backgroundStage this ;;
  decoyStage this ;;
  traceStage this (sortByX coordinates) ;;
  textStage this (sortByX coordinates) ;;
  emit StOutput ToBuffer ;;
  w' <- getWorld ;;
  ret (surface w').

(** The world after [k] calls of [generate], one after the other; a call
    that throws still leaves its world behind. *)
Fixpoint generateTimes (k : nat) (this : CaptchaGenerator) (w : World) : World :=
  match k with
  | O => w
  | S k' => generateTimes k' this (snd (generate this w))
  end.

(** ** The layout in closed form *)

(** The x-coordinate of slot [i] for [n] characters on width [W]. *)
Definition slotX (W n i : Z) : Q :=
  Double.mul (inject_Z (W / n)) (Double.add (inject_Z i) fifth).

(** The value of [getRandom(n)] for the draw [r] of [Math.random]. *)
Definition randomIn (n : Z) (r : Q) : Z :=
  Qfloor (Double.mul r (inject_Z (n - 60))) + 30.

(** The coordinates that [k] rounds of the loop add, from index [i] on and
    from position [p] of the stream of [Math.random]. *)
Fixpoint coordinatesFrom (W H n : Z) (rand : nat -> Q) (p : nat) (i : Z) (k : nat) : list Coordinate :=
  match k with
  | O => []
  | S k' => (slotX W n i, randomIn H (rand p))
              :: coordinatesFrom W H n rand (S p) (i + 1) k'
  end.

(** Order on coordinates by x, as the comparator of the sort sees it. *)
Definition leX (a b : Coordinate) : Prop := (fst a <= fst b)%Q.

(** The contract of [Math.random]: every value is a double in [0, 1). *)
Definition unitInterval (rand : nat -> Q) : Prop :=
  forall k, Double.isDouble (rand k) /\ (0 <= rand k)%Q /\ (rand k < 1)%Q.

(** ** The blocks of [generate] *)

(** Position of a block in the source text. *)
Definition rank (st : Stage) : nat :=
  match st with
  | StSetup => 0
  | StBackground => 1
  | StDecoy => 2
  | StTrace => 3
  | StText => 4
  | StOutput => 5
  end.

(** No call is followed, however far, by a call of an earlier block. *)
Definition stageOrdered (l : list Call) : Prop :=
  StronglySorted (fun a b => (rank (fst a) <= rank (fst b))%nat) l.

(** In block order, and every call from a block of rank [lo] to [hi]. *)
Definition between (lo hi : nat) (l : list Call) : Prop :=
  stageOrdered l /\ Forall (fun c => (lo <= rank (fst c) <= hi)%nat) l.

(** The kind of call each block issues. *)
Definition fromBlock (c : Call) : Prop :=
  match snd c with
  | NewCanvas _ _ | SetTextBaseline _ | SetLineJoin _ => fst c = StSetup
  | PrintImage _ _ _ _ _ => fst c = StBackground
  | SetTextFont _ _ | SetColor _ | PrintText _ _ _ =>
      fst c = StDecoy \/ fst c = StText
  | SetGlobalAlpha _ => fst c = StDecoy \/ fst c = StTrace \/ fst c = StText
  | SetStroke _ | BeginPath | MoveTo _ _ | SetStrokeWidth _ | LineTo _ _
  | Stroke => fst c = StTrace
  | ToBuffer => fst c = StOutput
  end.

(** The calls of the path and stroke family. *)
Definition isStrokeOp (op : CanvasOp) : bool :=
  match op with
  | SetStroke _ | BeginPath | MoveTo _ _ | SetStrokeWidth _ | LineTo _ _
  | Stroke => true
  | _ => false
  end.

(** The text-draw call. *)
Definition isPrintText (op : CanvasOp) : bool :=
  match op with
  | PrintText _ _ _ => true
  | _ => false
  end.

(** A text-draw call of the decoy block. *)
Definition isDecoyGlyph (c : Call) : bool :=
  match c with
  | (StDecoy, PrintText _ _ _) => true
  | _ => false
  end.

(** The number of glyphs that the decoy block drew. *)
Definition decoyGlyphCount (l : list Call) : nat :=
  List.length (filter isDecoyGlyph l).

(** The background, if one is set, resolves. *)
Definition backgroundResolves (this : CaptchaGenerator) (w : World) : Prop :=
  truthy (background this) = false \/
  exists img, images w (pick (background this) EmptyString) = Some img.

(** The largest buffer whose hexadecimal string the engine can build:
    268435444 bytes. *)
Definition hexBytesMax : Z := stringMaxLength / 2.

(** The decoy block does not stop [generate]: its opacity is not positive,
    or the size it asks of [randomBytes] is in range and the hexadecimal
    string of that many bytes is within the longest string. *)
Definition decoyPasses (this : CaptchaGenerator) : Prop :=
  positive (do_opacity (decoy this)) = false \/
  0 <= (height this * width this) / 10000 <= hexBytesMax.

(** ** The calls of each block in closed form *)

Definition setupCalls (this : CaptchaGenerator) : list Call :=
  [(StSetup, NewCanvas (width this) (height this));
   (StSetup, SetTextBaseline "middle");
   (StSetup, SetLineJoin "miter")].

Definition backgroundCalls (this : CaptchaGenerator) (w : World) : list Call :=
  if truthy (background this) then
    match images w (pick (background this) EmptyString) with
    | Some img =>
        [(StBackground, PrintImage img 0 0 (width this) (height this))]
    | None => []
    end
  else [].

(** The three styling calls that open the decoy block. *)
Definition decoyHeader (this : CaptchaGenerator) : list Call :=
  [(StDecoy, SetTextFont (do_size (decoy this)) (do_font (decoy this)));
   (StDecoy, SetGlobalAlpha (do_opacity (decoy this)));
   (StDecoy, SetColor (do_color (decoy this)))].

Definition lineToCall (c : Coordinate) : Call :=
  (StTrace, LineTo (fst c) (inject_Z (snd c))).

Definition traceCalls (this : CaptchaGenerator) (cs : list Coordinate) : list Call :=
  if positive (to_opacity (trace this)) then
    match cs with
    | [] => []
    | c0 :: rest =>
        [(StTrace, SetStroke (to_color (trace this)));
         (StTrace, SetGlobalAlpha (to_opacity (trace this)));
         (StTrace, BeginPath);
         (StTrace, MoveTo (fst c0) (inject_Z (snd c0)));
         (StTrace, SetStrokeWidth (to_size (trace this)))]
        ++ map lineToCall rest ++ [(StTrace, Stroke)]
    end
  else [].

(** Character [n], [n + 1], ... of the text at the coordinates [cs]. *)
Fixpoint textGlyphs (txt : string) (n : nat) (cs : list Coordinate) : list Call :=
  match cs with
  | [] => []
  | c :: rest =>
      (StText, PrintText (String.get n txt) (fst c) (inject_Z (snd c)))
        :: textGlyphs txt (S n) rest
  end.

Definition textCalls (o : CaptchaOptions) (cs : list Coordinate) : list Call :=
  if positive (co_opacity o) then
    [(StText, SetTextFont (co_size o) (co_font o));
     (StText, SetGlobalAlpha (co_opacity o));
     (StText, SetColor (co_color o))]
    ++ textGlyphs (co_text o) 0 cs
  else [].

(** The coordinate list that [generate] works with: the layout, sorted. *)
Definition layoutOf (this : CaptchaGenerator) (w : World) : list Coordinate :=
  sortByX (coordinatesFrom (width this) (height this) (characters this w)
             (mathRandom w) (mathPos w) 0 (Z.to_nat (characters this w))).

(** The trace block does not stop [generate]: it is off, or there is a
    first coordinate. *)
Definition tracePasses (this : CaptchaGenerator) (w : World) : Prop :=
  positive (to_opacity (trace this)) = false \/ 1 <= characters this w.

(** ** Sample bindings for ["./constants"], sample states

    The file that exports the default option groups is not part of the
    sources at hand; the world takes them as fields, and the general
    statements hold for every value of them.  Where a statement needs a
    concrete world, it uses the ones below. *)

Definition sampleCaptcha : CaptchaOptions :=
  mkCaptchaOptions EmptyString 6 "Sans" 40 "#32cf7e" 1.

Definition sampleTrace : TraceOptions := mkTraceOptions "#32cf7e" 3 1.

Definition sampleDecoy : DecoyOptions :=
  mkDecoyOptions "Sans" 20 "#646566" (8 # 10).

(** The state right after the module is loaded: the default captcha object
    is the only object of the store, no image resolves. *)
Definition sampleWorld (floats : nat -> Q) (bytes : nat -> byte) : World :=
  mkWorld floats 0 bytes 0 (fun _ => None) (fun _ => sampleCaptcha) 1%nat
          0%nat sampleTrace sampleDecoy [].

(** [new CaptchaGenerator()] without argument. *)
Definition noOptions : ConstructorOptions := mkConstructorOptions None None.

(** Random bytes: 32 bytes 0xAB, then bytes 0xCD. *)
Definition twoDraws (k : nat) : byte := if (k <? 32)%nat then xab else xcd.

(** A stream for [Math.random]: 0, 1/4, 1/2, 3/4, 0, ... *)
Definition sampleFloats (k : nat) : Q := inject_Z (Z.of_nat k mod 4) * (1 # 4).

(** A generator as the constructor gives it in the sample world, and the
    state after that construction with text ABABAB. *)
Definition sampleGenerator : CaptchaGenerator :=
  mkCaptchaGenerator 100 300 None 0%nat sampleTrace sampleDecoy.

Definition sampleState : World :=
  withStore (sampleWorld sampleFloats twoDraws)
            (fun _ => setText sampleCaptcha "ABABAB") 1%nat.

(** A generator and a state in which the three opacities are 0. *)
Definition transparentGenerator : CaptchaGenerator :=
  mkCaptchaGenerator 100 300 None 0%nat
                     (mkTraceOptions "#32cf7e" 3 0)
                     (mkDecoyOptions "Sans" 20 "#646566" 0).

Definition transparentState : World :=
  withStore (sampleWorld sampleFloats twoDraws)
            (fun _ => mkCaptchaOptions "ABABAB" 6 "Sans" 40 "#32cf7e" 0) 1%nat.

(** A state in which the generator has a character count of 0. *)
Definition emptyState : World :=
  withStore (sampleWorld sampleFloats twoDraws)
            (fun _ => mkCaptchaOptions EmptyString 0 "Sans" 40 "#32cf7e" 1) 1%nat.

(** The overrides [{text: "HELLO"}] and [{text: EMPTY}] of [setCaptcha]. *)
Definition helloOverride : SetCaptchaOptions :=
  mkSetCaptchaOptions (Some "HELLO"%string) None None None None None.

Definition emptyTextOverride : SetCaptchaOptions :=
  mkSetCaptchaOptions (Some EmptyString) None None None None None.

(** ** Vocabulary of the further properties *)

(** The overrides [{}] and [{characters: 4}]. *)
Definition noCaptchaOverride : SetCaptchaOptions :=
  mkSetCaptchaOptions None None None None None None.

Definition fourCharactersOverride : SetCaptchaOptions :=
  mkSetCaptchaOptions None (Some 4) None None None None.

(** The letters among the hexadecimal digits of the bytes, upper-cased:
    what the constructor cuts the text from. *)
Definition lettersOf (bytes : list byte) : list ascii :=
  Str.stripNonLetters (Str.toUpperCase (Str.toHex bytes)).

(** The position of a path call of the trace block. *)
Definition pathPoint (c : Call) : option (Q * Q) :=
  match c with
  | (StTrace, MoveTo x y) => Some (x, y)
  | (StTrace, LineTo x y) => Some (x, y)
  | _ => None
  end.

(** The position and the glyph of a text-draw call of the text block. *)
Definition textPoint (c : Call) : option (Q * Q) :=
  match c with
  | (StText, PrintText _ x y) => Some (x, y)
  | _ => None
  end.

Definition textGlyph (c : Call) : option (option ascii) :=
  match c with
  | (StText, PrintText g _ _) => Some g
  | _ => None
  end.

(** The values that a partial function gives on a list, in order. *)
Fixpoint collect {A B} (f : A -> option B) (l : list A) : list B :=
  match l with
  | [] => []
  | a :: l' =>
      match f a with
      | Some b => b :: collect f l'
      | None => collect f l'
      end
  end.

(** A layout coordinate as the canvas receives it. *)
Definition pointOf (c : Coordinate) : Q * Q := (fst c, inject_Z (snd c)).

(** A glyph of the decoy block within the canvas margins: a lower-case
    hexadecimal digit at integer coordinates that are at least 30 and less
    than the width, respectively the height, minus 30. *)
Definition decoyGlyphWithin (W H : Z) (c : Call) : Prop :=
  exists ch x y,
    c = (StDecoy, PrintText (Some ch) (inject_Z x) (inject_Z y)) /\
    Str.isHexLower ch = true /\
    30 <= x < W - 30 /\ 30 <= y < H - 30.

(** A generator whose background does not resolve, one on a canvas of
    negative area, and one whose background is the empty string. *)
Definition brokenBackgroundGenerator : CaptchaGenerator :=
  mkCaptchaGenerator 100 300 (Some "missing.png"%string) 0%nat
                     sampleTrace sampleDecoy.

Definition negativeAreaGenerator : CaptchaGenerator :=
  mkCaptchaGenerator (-100) 300 None 0%nat sampleTrace sampleDecoy.

(** A generator on a canvas of 1000000 by 2684355: the decoy block asks
    for 268435500 bytes. *)
Definition hugeAreaGenerator : CaptchaGenerator :=
  mkCaptchaGenerator 1000000 2684355 None 0%nat sampleTrace sampleDecoy.

(** A generator on a canvas narrower than its six characters. *)
Definition narrowGenerator : CaptchaGenerator :=
  mkCaptchaGenerator 100 4 None 0%nat sampleTrace sampleDecoy.

(** * Properties *)

(** ** Rounding to doubles *)

Module DoubleFacts.
Import Double.

#[global] Instance roundNE_comp : Proper (Qeq ==> eq) roundNE.
Proof.
  intros t u E. unfold roundNE.
  rewrite (Qfloor_comp _ _ E).
  assert (C : (t - inject_Z (Qfloor u) ?= 1 # 2)%Q = (u - inject_Z (Qfloor u) ?= 1 # 2)%Q).
  { now rewrite E. }
  now rewrite C.
Qed.

Lemma Qfloor_bounds (t : Q) :
  (inject_Z (Qfloor t) <= t)%Q /\ (t < inject_Z (Qfloor t) + 1)%Q.
Proof.
  split; [apply Qfloor_le|].
  pose proof (Qlt_floor t) as H. rewrite inject_Z_plus in H. exact H.
Qed.

Lemma roundNE_cases (t : Q) :
  (roundNE t = Qfloor t /\ (t - inject_Z (Qfloor t) <= 1 # 2)%Q) \/
  (roundNE t = Qfloor t + 1 /\ (1 # 2 <= t - inject_Z (Qfloor t))%Q).
Proof.
  unfold roundNE.
  destruct (t - inject_Z (Qfloor t) ?= 1 # 2)%Q eqn:C.
  - apply Qeq_alt in C. destruct (Z.even (Qfloor t)); [left | right];
      (split; [reflexivity | rewrite C; apply Qle_refl]).
  - apply Qlt_alt in C. left. split; [reflexivity | now apply Qlt_le_weak].
  - apply Qgt_alt in C. right. split; [reflexivity | now apply Qlt_le_weak].
Qed.

Lemma roundNE_bounds (t : Q) :
  (inject_Z (roundNE t) - (1 # 2) <= t)%Q /\ (t <= inject_Z (roundNE t) + (1 # 2))%Q.
Proof.
  destruct (Qfloor_bounds t) as (H1 & H2).
  destruct (roundNE_cases t) as [(E & H)|(E & H)]; rewrite E;
    rewrite ?inject_Z_plus; change (inject_Z 1) with 1%Q; split; lra.
Qed.

Lemma roundNE_int (z : Z) : roundNE (inject_Z z) = z.
Proof.
  unfold roundNE. rewrite Qfloor_Z.
  assert (C : (inject_Z z - inject_Z z ?= 1 # 2)%Q = Lt).
  { apply (proj1 (Qlt_alt _ _)). generalize (inject_Z z). intros x. lra. }
  now rewrite C.
Qed.

Lemma roundNE_mono (t u : Q) : (t <= u)%Q -> roundNE t <= roundNE u.
Proof.
  intros H.
  pose proof (Qfloor_resp_le _ _ H) as Hf.
  destruct (Z.eq_dec (Qfloor t) (Qfloor u)) as [E|E].
  - unfold roundNE. rewrite E.
    destruct (u - inject_Z (Qfloor u) ?= 1 # 2)%Q eqn:Cu;
    destruct (t - inject_Z (Qfloor u) ?= 1 # 2)%Q eqn:Ct;
      try (destruct (Z.even (Qfloor u))); try lia;
      rewrite <- ?Qeq_alt, <- ?Qlt_alt, <- ?Qgt_alt in *; lra.
  - destruct (roundNE_cases t) as [(Et & _)|(Et & _)];
    destruct (roundNE_cases u) as [(Eu & _)|(Eu & _)]; lia.
Qed.

Lemma roundNE_le (t : Q) (z : Z) : (t <= inject_Z z)%Q -> roundNE t <= z.
Proof. intros H. rewrite <- (roundNE_int z). now apply roundNE_mono. Qed.

Lemma roundNE_ge (t : Q) (z : Z) : (inject_Z z <= t)%Q -> z <= roundNE t.
Proof. intros H. rewrite <- (roundNE_int z). now apply roundNE_mono. Qed.

Lemma roundNE_below_half (t : Q) (z : Z) :
  (t < inject_Z z - (1 # 2))%Q -> roundNE t <= z - 1.
Proof.
  intros H. destruct (roundNE_bounds t) as (H1 & _).
  assert (L : (inject_Z (roundNE t) < inject_Z z)%Q) by lra.
  rewrite <- Zlt_Qlt in L. lia.
Qed.

Lemma scale_pos : 0 < scale.
Proof. unfold scale. apply Z.pow_pos_nonneg; lia. Qed.

Lemma scaleQ_pos : (0 < inject_Z scale)%Q.
Proof. rewrite <- (Zlt_Qlt 0). apply scale_pos. Qed.

Lemma pow2Q_pos (s : Z) : 0 <= s -> (0 < inject_Z (2 ^ s))%Q.
Proof. intros H. rewrite <- (Zlt_Qlt 0). apply Z.pow_pos_nonneg; lia. Qed.

#[global] Instance shift_comp : Proper (Qeq ==> eq) shift.
Proof. intros q q' E. unfold shift. now rewrite E. Qed.

Lemma shift_nonneg (q : Q) : 0 <= shift q.
Proof. unfold shift, shiftZ. lia. Qed.

Lemma shiftZ_spec (n : Z) :
  0 <= n ->
  n < 2 ^ (shiftZ n + 53) /\ (0 < shiftZ n -> 2 ^ (shiftZ n + 52) <= n).
Proof.
  intros Hn. unfold shiftZ. split.
  - destruct (Z.eq_dec n 0) as [->|Hz].
    + apply Z.pow_pos_nonneg; lia.
    + destruct (Z.log2_spec n) as (_ & H2); [lia|].
      eapply Z.lt_le_trans; [exact H2|].
      apply Z.pow_le_mono_r; lia.
  - intros Hs.
    assert (Hl : 53 <= Z.log2 n) by lia.
    assert (Hp : 0 < n).
    { destruct (Z.eq_dec n 0) as [->|Hz]; [simpl in Hl; lia | lia]. }
    destruct (Z.log2_spec n Hp) as (H1 & _).
    replace (Z.max 0 (Z.log2 n - 52) + 52) with (Z.log2 n) by lia. exact H1.
Qed.

Lemma shiftZ_mono (n n' : Z) : n <= n' -> shiftZ n <= shiftZ n'.
Proof.
  intros H. unfold shiftZ. pose proof (Z.log2_le_mono _ _ H). lia.
Qed.

Lemma shift_shiftZ (q : Q) : shift q = shiftZ (Qfloor (q * inject_Z scale)).
Proof. reflexivity. Qed.

Lemma roundPos_roundPosZ (q : Q) :
  (roundPos q == inject_Z (roundPosZ q) / inject_Z scale)%Q.
Proof. apply Qred_correct. Qed.

#[global] Instance roundPosZ_comp : Proper (Qeq ==> eq) roundPosZ.
Proof.
  intros q q' E. unfold roundPosZ. rewrite (shift_comp _ _ E).
  f_equal. apply roundNE_comp. now rewrite E.
Qed.

#[global] Instance roundPos_comp : Proper (Qeq ==> Qeq) roundPos.
Proof.
  intros q q' E. rewrite !roundPos_roundPosZ. now rewrite (roundPosZ_comp _ _ E).
Qed.

#[global] Instance round_comp : Proper (Qeq ==> Qeq) round.
Proof.
  intros q q' E. unfold round.
  assert (B : Qle_bool 0 q = Qle_bool 0 q') by now rewrite E.
  rewrite B. destruct (Qle_bool 0 q'); now rewrite E.
Qed.

(** Bounds of the scaled value. *)
Lemma scaled_bounds (q : Q) :
  (0 <= q)%Q ->
  let t := (q * inject_Z scale / inject_Z (2 ^ shift q))%Q in
  (0 <= t)%Q /\ (t < inject_Z (2 ^ 53))%Q /\
  (0 < shift q -> (inject_Z (2 ^ 52) <= t)%Q).
Proof.
  intros Hq t.
  pose proof scaleQ_pos as HS.
  pose proof (pow2Q_pos (shift q) (shift_nonneg q)) as HP.
  assert (HN : (0 <= q * inject_Z scale)%Q).
  { apply Qmult_le_0_compat; [exact Hq | now apply Qlt_le_weak]. }
  assert (HF : 0 <= Qfloor (q * inject_Z scale)).
  { rewrite <- (Qfloor_Z 0). now apply Qfloor_resp_le. }
  destruct (shiftZ_spec _ HF) as (B1 & B2). rewrite <- shift_shiftZ in B1, B2.
  destruct (Qfloor_bounds (q * inject_Z scale)) as (F1 & F2).
  split; [|split].
  - unfold t. apply Qle_shift_div_l; [exact HP|]. now rewrite Qmult_0_l.
  - unfold t. apply Qlt_shift_div_r; [exact HP|].
    rewrite <- inject_Z_mult, <- Z.pow_add_r, (Z.add_comm 53) by (pose proof (shift_nonneg q); lia).
    eapply Qlt_le_trans; [exact F2|].
    change 1%Q with (inject_Z 1). rewrite <- inject_Z_plus, <- Zle_Qle. lia.
  - intros Hs. unfold t. apply Qle_shift_div_l; [exact HP|].
    rewrite <- inject_Z_mult, <- Z.pow_add_r, (Z.add_comm 52) by (pose proof (shift_nonneg q); lia).
    eapply Qle_trans; [|exact F1]. rewrite <- Zle_Qle. now apply B2.
Qed.

Lemma roundPosZ_nonneg (q : Q) : (0 <= q)%Q -> 0 <= roundPosZ q.
Proof.
  intros Hq. destruct (scaled_bounds q Hq) as (H0 & _).
  unfold roundPosZ. apply Z.mul_nonneg_nonneg.
  - now apply roundNE_ge.
  - apply Z.pow_nonneg. lia.
Qed.

Lemma shift_mono (q q' : Q) : (0 <= q)%Q -> (q <= q')%Q -> shift q <= shift q'.
Proof.
  intros H0 H. rewrite !shift_shiftZ. apply shiftZ_mono, Qfloor_resp_le.
  apply Qmult_le_compat_r; [exact H | apply Qlt_le_weak, scaleQ_pos].
Qed.

Lemma roundPosZ_mono (q q' : Q) :
  (0 <= q)%Q -> (q <= q')%Q -> roundPosZ q <= roundPosZ q'.
Proof.
  intros H0 H.
  assert (H0' : (0 <= q')%Q) by lra.
  pose proof (shift_mono q q' H0 H) as Hs.
  pose proof (shift_nonneg q) as Hs0.
  destruct (scaled_bounds q H0) as (A0 & A1 & A2).
  destruct (scaled_bounds q' H0') as (B0 & B1 & B2).
  unfold roundPosZ.
  destruct (Z.eq_dec (shift q) (shift q')) as [E|E].
  - rewrite E. apply Z.mul_le_mono_nonneg_r; [apply Z.pow_nonneg; lia|].
    apply roundNE_mono. rewrite E in *.
    apply Qmult_le_compat_r.
    + apply Qmult_le_compat_r; [exact H | apply Qlt_le_weak, scaleQ_pos].
    + apply Qlt_le_weak, Qinv_lt_0_compat, pow2Q_pos. lia.
  - assert (Hlt : shift q < shift q') by lia.
    assert (K1 : roundNE (q * inject_Z scale / inject_Z (2 ^ shift q)) <= 2 ^ 53).
    { apply roundNE_le. now apply Qlt_le_weak. }
    assert (K2 : 2 ^ 52 <= roundNE (q' * inject_Z scale / inject_Z (2 ^ shift q'))).
    { apply roundNE_ge. apply B2. lia. }
    apply Z.le_trans with (2 ^ 53 * 2 ^ shift q).
    + apply Z.mul_le_mono_nonneg_r; [apply Z.pow_nonneg; lia | exact K1].
    + apply Z.le_trans with (2 ^ 52 * 2 ^ shift q').
      * rewrite <- !Z.pow_add_r by lia. apply Z.pow_le_mono_r; lia.
      * apply Z.mul_le_mono_nonneg_r; [apply Z.pow_nonneg; lia | exact K2].
Qed.

Lemma roundPos_mono (q q' : Q) :
  (0 <= q)%Q -> (q <= q')%Q -> (roundPos q <= roundPos q')%Q.
Proof.
  intros H0 H. rewrite !roundPos_roundPosZ.
  apply Qmult_le_compat_r.
  - rewrite <- Zle_Qle. now apply roundPosZ_mono.
  - apply Qlt_le_weak, Qinv_lt_0_compat, scaleQ_pos.
Qed.

Lemma roundPos_nonneg (q : Q) : (0 <= q)%Q -> (0 <= roundPos q)%Q.
Proof.
  intros H. rewrite roundPos_roundPosZ.
  apply Qle_shift_div_l; [apply scaleQ_pos|]. rewrite Qmult_0_l.
  rewrite <- (Zle_Qle 0). now apply roundPosZ_nonneg.
Qed.

(** [round] on both signs *)

Lemma round_nonneg_eq (q : Q) : (0 <= q)%Q -> round q = roundPos q.
Proof. intros H. unfold round. apply Qle_bool_iff in H. now rewrite H. Qed.

Lemma round_neg_eq (q : Q) : (q < 0)%Q -> round q = (- roundPos (- q))%Q.
Proof.
  intros H. unfold round.
  destruct (Qle_bool 0 q) eqn:E; [|reflexivity].
  apply Qle_bool_iff in E. lra.
Qed.

Lemma round_mono (q q' : Q) : (q <= q')%Q -> (round q <= round q')%Q.
Proof.
  intros H.
  destruct (Qlt_le_dec q 0) as [N|P]; destruct (Qlt_le_dec q' 0) as [N'|P'].
  - rewrite (round_neg_eq q N), (round_neg_eq q' N').
    assert (M : (roundPos (- q') <= roundPos (- q))%Q) by (apply roundPos_mono; lra).
    lra.
  - rewrite (round_neg_eq q N), (round_nonneg_eq q' P').
    assert (A : (0 <= roundPos (- q))%Q) by (apply roundPos_nonneg; lra).
    assert (B : (0 <= roundPos q')%Q) by now apply roundPos_nonneg.
    lra.
  - lra.
  - rewrite (round_nonneg_eq q P), (round_nonneg_eq q' P'). now apply roundPos_mono.
Qed.

(** Values with at most 53 significant bits, in units of [1 / scale]. *)

Lemma roundPosZ_units (q : Q) (n : Z) :
  0 <= n -> (q * inject_Z scale == inject_Z n)%Q ->
  roundPosZ q = roundNE (inject_Z n / inject_Z (2 ^ shiftZ n)) * 2 ^ shiftZ n.
Proof.
  intros Hn E. unfold roundPosZ.
  assert (S : shift q = shiftZ n).
  { rewrite shift_shiftZ. now rewrite E, Qfloor_Z. }
  rewrite S. f_equal. apply roundNE_comp. now rewrite E.
Qed.

Lemma roundPosZ_exact (q : Q) (n c : Z) :
  0 <= n -> (q * inject_Z scale == inject_Z n)%Q ->
  n = c * 2 ^ shiftZ n ->
  roundPosZ q = n.
Proof.
  intros Hn E Hc. rewrite (roundPosZ_units q n Hn E).
  assert (Hs : 0 <= shiftZ n) by (unfold shiftZ; lia).
  assert (T : (inject_Z n / inject_Z (2 ^ shiftZ n) == inject_Z c)%Q).
  { rewrite Hc at 1. rewrite inject_Z_mult. field.
    pose proof (pow2Q_pos _ Hs). lra. }
  rewrite (roundNE_comp _ _ T), roundNE_int. now rewrite <- Hc.
Qed.

Lemma units_53_bits (k j : Z) :
  0 <= k <= 2 ^ 53 -> 0 <= j ->
  exists c, k * 2 ^ j = c * 2 ^ shiftZ (k * 2 ^ j).
Proof.
  intros Hk Hj.
  destruct (Z.eq_dec k 0) as [->|Hz].
  { exists 0. lia. }
  assert (Hl : Z.log2 (k * 2 ^ j) = j + Z.log2 k) by (apply Z.log2_mul_pow2; lia).
  unfold shiftZ. rewrite Hl.
  destruct (Z.eq_dec k (2 ^ 53)) as [->|Hne].
  - rewrite Z.log2_pow2 by lia.
    exists (2 ^ 52). replace (Z.max 0 (j + 53 - 52)) with (j + 1) by lia.
    rewrite <- !Z.pow_add_r by lia. f_equal. lia.
  - assert (Hlk : Z.log2 k < 53) by (apply Z.log2_lt_pow2; lia).
    pose proof (Z.log2_nonneg k).
    set (s := Z.max 0 (j + Z.log2 k - 52)).
    assert (Hs : 0 <= s <= j) by (unfold s; lia).
    exists (k * 2 ^ (j - s)).
    rewrite <- Z.mul_assoc, <- Z.pow_add_r by lia. do 2 f_equal. lia.
Qed.

Lemma roundPos_exact (k j : Z) :
  0 <= k <= 2 ^ 53 -> 0 <= j ->
  (roundPos (inject_Z (k * 2 ^ j) / inject_Z scale)
   == inject_Z (k * 2 ^ j) / inject_Z scale)%Q.
Proof.
  intros Hk Hj. destruct (units_53_bits k j Hk Hj) as (c & Hc).
  rewrite roundPos_roundPosZ.
  rewrite (roundPosZ_exact _ (k * 2 ^ j) c); [reflexivity | | | exact Hc].
  - apply Z.mul_nonneg_nonneg; [lia | apply Z.pow_nonneg; lia].
  - field. pose proof scaleQ_pos. lra.
Qed.

(** Integers up to [2^53] in magnitude are doubles. *)
Lemma round_integer (z : Z) :
  - 2 ^ 53 <= z <= 2 ^ 53 -> (round (inject_Z z) == inject_Z z)%Q.
Proof.
  intros Hz.
  assert (U : forall k, 0 <= k <= 2 ^ 53 ->
                (roundPos (inject_Z k) == inject_Z k)%Q).
  { intros k Hk.
    assert (E : (inject_Z k == inject_Z (k * 2 ^ 1074) / inject_Z scale)%Q).
    { rewrite inject_Z_mult. change (2 ^ 1074) with scale. field.
      pose proof scaleQ_pos. lra. }
    rewrite E at 1. rewrite roundPos_exact by lia. now rewrite <- E. }
  destruct (Z_lt_le_dec z 0) as [N|P].
  - assert (N' : (inject_Z z < 0)%Q).
    { change 0%Q with (inject_Z 0). rewrite <- Zlt_Qlt. exact N. }
    rewrite (round_neg_eq _ N').
    rewrite <- inject_Z_opp, U by lia. rewrite inject_Z_opp. ring.
  - assert (P' : (0 <= inject_Z z)%Q).
    { change 0%Q with (inject_Z 0). rewrite <- Zle_Qle. exact P. }
    rewrite (round_nonneg_eq _ P').
    apply U. lia.
Qed.

Lemma round_zero : (round 0 == 0)%Q.
Proof. exact (round_integer 0 ltac:(lia)). Qed.

(** A double below 1 is at most [1 - 2^-53]. *)
Lemma double_below_one (r : Q) :
  isDouble r -> (0 <= r)%Q -> (r < 1)%Q ->
  exists R, (r * inject_Z scale == inject_Z R)%Q /\
            0 <= R <= (2 ^ 53 - 1) * 2 ^ 1021.
Proof.
  intros D H0 H1. unfold isDouble in D.
  rewrite round_nonneg_eq, roundPos_roundPosZ in D by exact H0.
  pose proof scaleQ_pos as HS.
  assert (E : (r * inject_Z scale == inject_Z (roundPosZ r))%Q).
  { rewrite <- D at 1. field. lra. }
  exists (roundPosZ r). split; [exact E|].
  pose proof (roundPosZ_nonneg r H0) as Hn. split; [exact Hn|].
  assert (Hlt : roundPosZ r < scale).
  { rewrite Zlt_Qlt, <- E. 
    setoid_replace (inject_Z scale) with (1 * inject_Z scale)%Q at 2 by ring.
    apply Qmult_lt_compat_r; assumption. }
  destruct (scaled_bounds r H0) as (_ & T1 & T2).
  pose proof (shift_nonneg r) as Hs.
  set (s := shift r) in *.
  set (K := roundNE (r * inject_Z scale / inject_Z (2 ^ s))).
  assert (HK : roundPosZ r = K * 2 ^ s) by reflexivity.
  assert (K53 : K <= 2 ^ 53) by (apply roundNE_le; now apply Qlt_le_weak).
  destruct (Z_lt_le_dec s 1021) as [Hs1|Hs1].
  - (* below the top binade *)
    rewrite HK.
    apply Z.le_trans with (2 ^ 53 * 2 ^ s).
    + apply Z.mul_le_mono_nonneg_r; [apply Z.pow_nonneg; lia | exact K53].
    + apply Z.le_trans with (2 ^ 53 * 2 ^ 1020).
      * apply Z.mul_le_mono_nonneg_l; [lia | apply Z.pow_le_mono_r; lia].
      * vm_compute. discriminate.
  - assert (K52 : 2 ^ 52 <= K) by (apply roundNE_ge, T2; lia).
    assert (Hs2 : s = 1021).
    { destruct (Z.eq_dec s 1021) as [|Hne]; [assumption|].
      exfalso. rewrite HK in Hlt.
      assert (2 ^ 52 * 2 ^ 1022 <= K * 2 ^ s).
      { apply Z.le_trans with (2 ^ 52 * 2 ^ s).
        - apply Z.mul_le_mono_nonneg_l; [lia | apply Z.pow_le_mono_r; lia].
        - apply Z.mul_le_mono_nonneg_r; [apply Z.pow_nonneg; lia | exact K52]. }
      unfold scale in Hlt. change (2 ^ 52 * 2 ^ 1022) with (2 ^ 1074) in H. lia. }
    rewrite HK, Hs2 in *.
    assert (K < 2 ^ 53).
    { apply Z.mul_lt_mono_pos_r with (2 ^ 1021); [apply Z.pow_pos_nonneg; lia|].
      unfold scale in Hlt. change (2 ^ 53 * 2 ^ 1021) with (2 ^ 1074). exact Hlt. }
    apply Z.mul_le_mono_nonneg_r; [apply Z.pow_nonneg; lia | lia].
Qed.

Lemma round_opp (q : Q) : (round (- q) == - round q)%Q.
Proof.
  destruct (Qlt_le_dec q 0) as [N|P].
  - rewrite (round_neg_eq q N).
    assert (P' : (0 <= - q)%Q) by lra.
    rewrite (round_nonneg_eq _ P'). ring.
  - destruct (Qlt_le_dec 0 q) as [P'|Z0].
    + assert (N : (- q < 0)%Q) by lra.
      rewrite (round_neg_eq _ N), (round_nonneg_eq q P).
      assert (E : (- - q == q)%Q) by ring.
      now rewrite (roundPos_comp _ _ E).
    + assert (E : (q == 0)%Q) by lra.
      assert (E' : (- q == 0)%Q) by lra.
      rewrite (round_comp _ _ E), (round_comp _ _ E'), round_zero. reflexivity.
Qed.

Lemma round_nonneg (q : Q) : (0 <= q)%Q -> (0 <= round q)%Q.
Proof. intros H. rewrite (round_nonneg_eq q H). now apply roundPos_nonneg. Qed.

(** The relative error of rounding up is at most [2^-53], on a whole number
    of units. *)
Lemma roundPosZ_rel (q : Q) (n : Z) :
  0 <= n -> (q * inject_Z scale == inject_Z n)%Q ->
  roundPosZ q * 2 ^ 53 <= n * (2 ^ 53 + 1).
Proof.
  intros Hn E. rewrite (roundPosZ_units q n Hn E).
  destruct (shiftZ_spec n Hn) as (_ & Hlow).
  assert (Hs : 0 <= shiftZ n) by (unfold shiftZ; lia).
  set (s := shiftZ n) in *.
  destruct (Z.eq_dec s 0) as [S0|S1].
  - rewrite S0. change (2 ^ 0) with 1.
    assert (T : (inject_Z n / inject_Z 1 == inject_Z n)%Q) by (field; discriminate).
    rewrite (roundNE_comp _ _ T), roundNE_int. lia.
  - assert (L : 2 ^ (s + 52) <= n) by (apply Hlow; lia).
    rewrite Z.pow_add_r in L by lia.
    set (K := roundNE (inject_Z n / inject_Z (2 ^ s))).
    destruct (roundNE_bounds (inject_Z n / inject_Z (2 ^ s))) as (B & _).
    fold K in B.
    pose proof (pow2Q_pos s Hs) as HP.
    assert (B' : (inject_Z K * inject_Z (2 ^ s)
                  <= inject_Z n + (1 # 2) * inject_Z (2 ^ s))%Q).
    { assert (B2 : ((inject_Z K - (1 # 2)) * inject_Z (2 ^ s)
                    <= inject_Z n / inject_Z (2 ^ s) * inject_Z (2 ^ s))%Q).
      { apply Qmult_le_compat_r; [exact B | now apply Qlt_le_weak]. }
      assert (C : (inject_Z n / inject_Z (2 ^ s) * inject_Z (2 ^ s) == inject_Z n)%Q).
      { field. lra. }
      rewrite C in B2. lra. }
    assert (B3 : 2 * (K * 2 ^ s) <= 2 * n + 2 ^ s).
    { rewrite Zle_Qle, !inject_Z_plus, !inject_Z_mult.
      change (inject_Z 2) with 2%Q. lra. }
    revert B3 L. generalize (K * 2 ^ s) (2 ^ s). intros X Y B3 L.
    change (2 ^ 52) with 4503599627370496 in L.
    change (2 ^ 53) with 9007199254740992. lia.
Qed.

(** The product of a double in [0, 1) and a positive integer rounds to a
    value below that integer. *)
Lemma mul_below (r : Q) (m : Z) :
  isDouble r -> (0 <= r)%Q -> (r < 1)%Q -> 1 <= m ->
  (0 <= mul r (inject_Z m))%Q /\ (mul r (inject_Z m) < inject_Z m)%Q.
Proof.
  intros D H0 H1 Hm.
  destruct (double_below_one r D H0 H1) as (R & ER & HR0 & HR1).
  assert (Hq : (0 <= r * inject_Z m)%Q).
  { apply Qmult_le_0_compat; [exact H0|].
    change 0%Q with (inject_Z 0). rewrite <- Zle_Qle. lia. }
  unfold mul. split; [now apply round_nonneg|].
  rewrite (round_nonneg_eq _ Hq), roundPos_roundPosZ.
  pose proof scaleQ_pos as HS.
  apply Qlt_shift_div_r; [exact HS|].
  rewrite <- inject_Z_mult, <- Zlt_Qlt.
  assert (En : (r * inject_Z m * inject_Z scale == inject_Z (R * m))%Q).
  { rewrite inject_Z_mult, <- ER. ring. }
  assert (Hn : 0 <= R * m) by (apply Z.mul_nonneg_nonneg; lia).
  pose proof (roundPosZ_rel _ _ Hn En) as Hrel.
  assert (Hb : R * m <= (2 ^ 53 - 1) * (2 ^ 1021 * m)).
  { rewrite Z.mul_assoc. apply Z.mul_le_mono_nonneg_r; lia. }
  assert (Es : m * scale = 2 ^ 53 * (2 ^ 1021 * m)).
  { unfold scale. change (2 ^ 1074) with (2 ^ 53 * 2 ^ 1021). ring. }
  rewrite Es.
  assert (HY : 0 < 2 ^ 1021 * m) by (apply Z.mul_pos_pos; [reflexivity | lia]).
  revert Hrel Hb HY.
  generalize (roundPosZ (r * inject_Z m)) (R * m) (2 ^ 1021 * m).
  intros X P Y Hrel Hb HY.
  change (2 ^ 53) with 9007199254740992 in *. lia.
Qed.

Lemma mul_below_neg (r : Q) (m : Z) :
  isDouble r -> (0 <= r)%Q -> (r < 1)%Q -> m <= -1 ->
  (inject_Z m < mul r (inject_Z m))%Q /\ (mul r (inject_Z m) <= 0)%Q.
Proof.
  intros D H0 H1 Hm.
  destruct (mul_below r (- m) D H0 H1 ltac:(lia)) as (A & B).
  unfold mul in *.
  assert (E : (r * inject_Z m == - (r * inject_Z (- m)))%Q).
  { rewrite inject_Z_opp. ring. }
  rewrite (round_comp _ _ E), round_opp.
  assert (O : (inject_Z (- m) == - inject_Z m)%Q) by now rewrite inject_Z_opp.
  revert A B O. generalize (round (r * inject_Z (- m))) (inject_Z (- m)) (inject_Z m).
  intros x y z A B O. split; lra.
Qed.

Lemma mul_zero_r (r : Q) : (mul r 0 == 0)%Q.
Proof.
  unfold mul. assert (E : (r * 0 == 0)%Q) by ring.
  rewrite (round_comp _ _ E). apply round_zero.
Qed.

Lemma mul_zero_l (r : Q) : (mul 0 r == 0)%Q.
Proof.
  unfold mul. assert (E : (0 * r == 0)%Q) by ring.
  rewrite (round_comp _ _ E). apply round_zero.
Qed.

(** Quarters of integers up to [2^53] in magnitude are doubles. *)
Lemma round_quarter (k : Z) :
  - 2 ^ 53 <= k <= 2 ^ 53 ->
  (round (inject_Z k * (1 # 4)) == inject_Z k * (1 # 4))%Q.
Proof.
  intros Hk.
  assert (U : forall c, 0 <= c <= 2 ^ 53 ->
                (roundPos (inject_Z c * (1 # 4)) == inject_Z c * (1 # 4))%Q).
  { intros c Hc.
    assert (E : (inject_Z c * (1 # 4)
                 == inject_Z (c * 2 ^ 1072) / inject_Z scale)%Q).
    { rewrite inject_Z_mult. unfold scale.
      change (2 ^ 1074) with (2 ^ 1072 * 4). rewrite inject_Z_mult.
      change (inject_Z 4) with 4%Q. field.
      pose proof (pow2Q_pos 1072 ltac:(lia)) as HP.
      revert HP. generalize (inject_Z (2 ^ 1072)). intros x HP. lra. }
    rewrite (roundPos_comp _ _ E), roundPos_exact by lia. now rewrite <- E. }
  destruct (Z_lt_le_dec k 0) as [N|P].
  - assert (N0 : (inject_Z k < 0)%Q).
    { change 0%Q with (inject_Z 0). rewrite <- Zlt_Qlt. exact N. }
    assert (N' : (inject_Z k * (1 # 4) < 0)%Q).
    { revert N0. generalize (inject_Z k). intros x N0. lra. }
    rewrite (round_neg_eq _ N').
    assert (E : (- (inject_Z k * (1 # 4)) == inject_Z (- k) * (1 # 4))%Q).
    { rewrite inject_Z_opp. ring. }
    rewrite (roundPos_comp _ _ E), U by lia. rewrite inject_Z_opp. ring.
  - assert (P0 : (0 <= inject_Z k)%Q).
    { change 0%Q with (inject_Z 0). rewrite <- Zle_Qle. exact P. }
    assert (P' : (0 <= inject_Z k * (1 # 4))%Q).
    { revert P0. generalize (inject_Z k). intros x P0. lra. }
    rewrite (round_nonneg_eq _ P'). apply U. lia.
Qed.

End DoubleFacts.

(** ** Running the monad *)

Lemma bind_ok {A B} (m : M A) (k : A -> M B) w a w' :
  m w = (Ok a, w') -> bind m k w = k a w'.
Proof. intros E. unfold bind. now rewrite E. Qed.

Lemma bind_throw {A B} (m : M A) (k : A -> M B) w e w' :
  m w = (Throw e, w') -> bind m k w = (Throw e, w').
Proof. intros E. unfold bind. now rewrite E. Qed.

(** Runs the calls on the canvas that stand at the head of a
    computation. *)
Ltac run_emit :=
  match goal with
  | |- context [bind (emit ?st ?op) ?k ?w] =>
      rewrite (bind_ok (emit st op) k w tt
                 (withSurface w (surface w ++ [(st, op)])) eq_refl);
      cbv beta
  end.

Lemma keeps_ret {X A} (f : World -> X) (a : A) : keeps f (ret a).
Proof. now intros w. Qed.

Lemma keeps_throw {X A} (f : World -> X) e : keeps f (@throw A e).
Proof. now intros w. Qed.

Lemma keeps_bind {X A B} (f : World -> X) (m : M A) (k : A -> M B) :
  keeps f m -> (forall a, keeps f (k a)) -> keeps f (bind m k).
Proof.
  intros Hm Hk w. unfold bind.
  specialize (Hm w). destruct (m w) as [[a|e] w1]; simpl in *.
  - now rewrite Hk.
  - exact Hm.
Qed.

Lemma keeps_forLoop {X S} (f : World -> X) (body : Z -> S -> M S) :
  (forall i acc, keeps f (body i acc)) ->
  forall count i acc, keeps f (forLoop count i body acc).
Proof.
  intros Hb count. induction count as [|k IH]; intros i acc; simpl.
  - apply keeps_ret.
  - apply keeps_bind; [apply Hb | intros a; apply IH].
Qed.

(** ** The challenge text (lines 53-54) *)

Lemma length_string_of_list_ascii (l : list ascii) :
  String.length (string_of_list_ascii l) = List.length l.
Proof. induction l as [|c l IH]; simpl; congruence. Qed.

Lemma hexDigit_lower (n : N) : (n < 16)%N -> Str.isHexLower (Str.hexDigit n) = true.
Proof.
  intros H.
  assert (E : In n (map N.of_nat (seq 0 16))).
  { apply in_map_iff. exists (N.to_nat n). split; [lia|]. apply in_seq. lia. }
  simpl in E.
  repeat (destruct E as [E|E]; [subst n; reflexivity|]). contradiction.
Qed.

Lemma toHex_lower (bs : list byte) : Forall (fun c => Str.isHexLower c = true) (Str.toHex bs).
Proof.
  induction bs as [|b bs IH]; simpl; [constructor|].
  pose proof (Byte.to_N_bounded b) as Hb.
  constructor.
  - apply hexDigit_lower.
    apply N.Div0.div_lt_upper_bound. lia.
  - constructor; [|exact IH].
    apply hexDigit_lower. apply N.mod_lt. lia.
Qed.

Lemma toHex_length (bs : list byte) :
  List.length (Str.toHex bs) = (2 * List.length bs)%nat.
Proof. induction bs as [|b bs IH]; simpl; [reflexivity|]. rewrite IH. lia. Qed.

(** An upper-cased hexadecimal digit that is a letter is one of A..F. *)
Lemma upper_hex_letter (c : ascii) :
  Str.isHexLower c = true ->
  Str.isLetter (Str.upperChar c) = true ->
  Str.isAF (Str.upperChar c) = true.
Proof.
  intros Hh Hl.
  assert (E : In c (map ascii_of_nat (seq 48 10 ++ seq 97 6))).
  { apply in_map_iff. exists (nat_of_ascii c). split.
    - apply ascii_nat_embedding.
    - unfold Str.isHexLower in Hh. unfold nat_of_ascii.
      apply in_or_app. rewrite !in_seq.
      destruct (N.leb_spec 48 (N_of_ascii c)), (N.leb_spec (N_of_ascii c) 57),
        (N.leb_spec 97 (N_of_ascii c)), (N.leb_spec (N_of_ascii c) 102);
        simpl in Hh; try discriminate; lia. }
  simpl in E.
  repeat (destruct E as [E|E];
          [subst c; first [reflexivity | discriminate Hl]|]).
  contradiction.
Qed.

Lemma lettersOfHex_alphabet (bs : list byte) :
  Forall (fun c => Str.isAF c = true)
         (Str.stripNonLetters (Str.toUpperCase (Str.toHex bs))).
Proof.
  unfold Str.stripNonLetters, Str.toUpperCase.
  pose proof (toHex_lower bs) as H.
  induction H as [|c l Hc Hl IH]; simpl; [constructor|].
  destruct (Str.isLetter (Str.upperChar c)) eqn:E; [|exact IH].
  constructor; [|exact IH]. now apply upper_hex_letter.
Qed.

(** Every character of the challenge text is one of A..F. *)
Lemma challengeText_alphabet (bs : list byte) (n : Z) :
  Forall (fun c => Str.isAF c = true)
         (list_ascii_of_string (challengeText bs n)).
Proof.
  unfold challengeText. rewrite list_ascii_of_string_of_list_ascii.
  unfold Str.substr0.
  pose proof (lettersOfHex_alphabet bs) as H.
  rewrite Forall_forall in *. intros c Hc. apply H.
  rewrite <- (firstn_skipn (Z.to_nat n)). apply in_or_app. now left.
Qed.

(** The length of the challenge text: the count asked for, or the number
    of letters among the hexadecimal digits when there are fewer. *)
Lemma challengeText_length (bs : list byte) (n : Z) :
  Z.of_nat (String.length (challengeText bs n)) =
  Z.min (Z.max 0 n)
        (Z.of_nat (List.length
           (Str.stripNonLetters (Str.toUpperCase (Str.toHex bs))))).
Proof.
  unfold challengeText. rewrite length_string_of_list_ascii.
  unfold Str.substr0. rewrite length_firstn. lia.
Qed.

(** What the constructor does to the world. *)
Lemma constructor_run (options : ConstructorOptions) (w : World) :
  let bytes := map (cryptoSource w) (seq (cryptoPos w) 32) in
  let d := defaultCaptchaOptions w in
  let this := mkCaptchaGenerator (orDefault (opt_height options) 100)
                (orDefault (opt_width options) 300) None d
                (defaultTraceOptions w) (defaultDecoyOptions w) in
  fst (constructor options w) = Ok this /\
  text this (snd (constructor options w)) =
    challengeText bytes (co_characters (store w d)) /\
  characters this (snd (constructor options w)) = co_characters (store w d).
Proof.
  unfold constructor, text, characters, bind, getWorld, crypto_randomBytes,
    readObj, writeObj, ret. simpl.
  rewrite Nat.eqb_refl. simpl. repeat split.
Qed.

(** The text is shorter than the character count as soon as the random
    bytes carry fewer letters than that. *)
Lemma constructor_text_too_short (options : ConstructorOptions) (w : World) :
  let bytes := map (cryptoSource w) (seq (cryptoPos w) 32) in
  let n := co_characters (store w (defaultCaptchaOptions w)) in
  Z.of_nat (List.length
     (Str.stripNonLetters (Str.toUpperCase (Str.toHex bytes)))) < n ->
  exists this,
    fst (constructor options w) = Ok this /\
    Z.of_nat (String.length (text this (snd (constructor options w)))) <
    characters this (snd (constructor options w)).
Proof.
  intros bytes n H.
  destruct (constructor_run options w) as (E1 & E2 & E3).
  eexists. split; [exact E1|].
  rewrite E2, E3, challengeText_length. fold bytes n. lia.
Qed.

(** The text of a generator built in the sample world. *)
Lemma constructor_text_alphabet (options : ConstructorOptions) (w : World) :
  exists this,
    fst (constructor options w) = Ok this /\
    Forall (fun c => Str.isAF c = true)
           (list_ascii_of_string (text this (snd (constructor options w)))) /\
    Z.of_nat (String.length (text this (snd (constructor options w)))) <=
    Z.max 0 (characters this (snd (constructor options w))).
Proof.
  destruct (constructor_run options w) as (E1 & E2 & E3).
  eexists. split; [exact E1|]. rewrite E2, E3. split.
  - apply challengeText_alphabet.
  - rewrite challengeText_length. lia.
Qed.

(** C1 (violated by the code): the challenge text produced at construction
    need not have [characters] characters.  When [crypto.randomBytes(32)]
    gives 32 bytes 0x00, the hexadecimal encoding has no letter, the text
    is empty and the character count stays 6. *)
Theorem constructor_text_length_fails :
  let w := sampleWorld (fun _ => 0%Q) (fun _ => x00) in
  exists this,
    fst (constructor noOptions w) = Ok this /\
    text this (snd (constructor noOptions w)) = EmptyString /\
    characters this (snd (constructor noOptions w)) = 6 /\
    Z.of_nat (String.length (text this (snd (constructor noOptions w)))) <>
    characters this (snd (constructor noOptions w)).
Proof.
  eexists. split; [reflexivity|]. vm_compute. repeat split. discriminate.
Qed.

(** ** [setCaptcha] (lines 92-96) *)

Lemma setCaptcha_run (this : CaptchaGenerator) (options : SetCaptchaOptions) (w : World) :
  let r := nextRef w in
  let merged := mergeCaptcha (store w (captcha this)) options in
  let this' := mkCaptchaGenerator (height this) (width this) (background this)
                 r (trace this) (decoy this) in
  fst (setCaptcha this options w) = Ok this' /\
  store (snd (setCaptcha this options w)) r =
    (if truthy (sc_text options)
     then setCharacters merged
            (Z.of_nat (String.length (pick (sc_text options) EmptyString)))
     else merged) /\
  (forall r', r' <> r -> store (snd (setCaptcha this options w)) r' = store w r').
Proof.
  unfold setCaptcha, bind, readObj, allocObj, writeObj, ret.
  destruct (truthy (sc_text options)); simpl; rewrite ?Nat.eqb_refl;
    repeat split; intros r' Hr'; apply Nat.eqb_neq in Hr'; now rewrite ?Hr'.
Qed.

(** C3 (as amended): an override whose [text] is a non-empty string leaves
    the stored character count equal to the length of that string, and the
    stored text equal to the string. *)
Theorem setCaptcha_characters_nonempty_text
    (this : CaptchaGenerator) (options : SetCaptchaOptions) (w : World) (s : string) :
  sc_text options = Some s ->
  s <> EmptyString ->
  exists this',
    fst (setCaptcha this options w) = Ok this' /\
    characters this' (snd (setCaptcha this options w)) =
      Z.of_nat (String.length s) /\
    text this' (snd (setCaptcha this options w)) = s.
Proof.
  intros Hs Hne.
  destruct (setCaptcha_run this options w) as (E1 & E2 & _).
  eexists. split; [exact E1|].
  destruct s as [|c s]; [contradiction|].
  unfold characters, text. simpl. rewrite E2. unfold mergeCaptcha.
  rewrite Hs. simpl. split; reflexivity.
Qed.

Lemma setCaptcha_characters_nonempty_text_witness :
  exists this',
    fst (setCaptcha (mkCaptchaGenerator 100 300 None 0%nat sampleTrace sampleDecoy)
                    helloOverride
                    (sampleWorld (fun _ => 0%Q) (fun _ => x00))) = Ok this' /\
    characters this'
      (snd (setCaptcha (mkCaptchaGenerator 100 300 None 0%nat sampleTrace sampleDecoy)
                       helloOverride
                       (sampleWorld (fun _ => 0%Q) (fun _ => x00)))) =
      Z.of_nat (String.length "HELLO") /\
    text this'
      (snd (setCaptcha (mkCaptchaGenerator 100 300 None 0%nat sampleTrace sampleDecoy)
                       helloOverride
                       (sampleWorld (fun _ => 0%Q) (fun _ => x00)))) = "HELLO"%string.
Proof.
  apply (setCaptcha_characters_nonempty_text
           (mkCaptchaGenerator 100 300 None 0%nat sampleTrace sampleDecoy)
           helloOverride (sampleWorld (fun _ => 0%Q) (fun _ => x00))
           "HELLO"%string).
  - reflexivity.
  - discriminate.
Defined.

(** C3 as stated fails: the override [{text: EMPTY}] supplies a [text]
    field, the test [if(options.text)] is false for the empty string, and
    the count keeps its former value 6 while the text has length 0. *)
Lemma setCaptcha_characters_empty_text_counterexample :
  ~ (forall (this : CaptchaGenerator) (options : SetCaptchaOptions)
            (w : World) (s : string),
        sc_text options = Some s ->
        forall this' w', setCaptcha this options w = (Ok this', w') ->
        characters this' w' = Z.of_nat (String.length s)).
Proof.
  intros H.
  specialize (H (mkCaptchaGenerator 100 300 None 0%nat sampleTrace sampleDecoy)
                emptyTextOverride
                (sampleWorld (fun _ => 0%Q) (fun _ => x00))
                EmptyString eq_refl _ _ eq_refl).
  vm_compute in H. discriminate H.
Qed.

(** ** Sharing of the default captcha object (lines 41, 53) *)

(** A construction writes the new text into the default object, whatever
    generators already hold it. *)
Lemma constructor_overwrites_shared (options : ConstructorOptions)
    (g : CaptchaGenerator) (w : World) :
  captcha g = defaultCaptchaOptions w ->
  text g (snd (constructor options w)) =
    challengeText (map (cryptoSource w) (seq (cryptoPos w) 32))
                  (co_characters (store w (defaultCaptchaOptions w))).
Proof.
  intros E. unfold text. rewrite E.
  destruct (constructor_run options w) as (_ & E2 & _). exact E2.
Qed.

(** A generator that holds an object of its own, as [setCaptcha] gives it,
    is not affected. *)
Lemma constructor_frame_own (options : ConstructorOptions)
    (g : CaptchaGenerator) (w : World) :
  captcha g <> defaultCaptchaOptions w ->
  store (snd (constructor options w)) (captcha g) = store w (captcha g).
Proof.
  intros E. unfold constructor, bind, getWorld, crypto_randomBytes, readObj,
    writeObj, ret. simpl.
  apply Nat.eqb_neq in E. now rewrite E.
Qed.

(** C4 (violated by the code): constructing a second generator changes the
    text of the first.  Both hold the module-level default object, and the
    second constructor assigns its [text]. *)
Theorem second_constructor_changes_first_text :
  let w0 := sampleWorld (fun _ => 0%Q) twoDraws in
  let w1 := snd (constructor noOptions w0) in
  let w2 := snd (constructor noOptions w1) in
  exists g1 g2,
    fst (constructor noOptions w0) = Ok g1 /\
    fst (constructor noOptions w1) = Ok g2 /\
    text g1 w1 = "ABABAB"%string /\
    text g1 w2 = "CDCDCD"%string /\
    text g1 w2 <> text g1 w1.
Proof.
  do 2 eexists. split; [reflexivity|]. split; [reflexivity|].
  vm_compute. repeat split. discriminate.
Qed.

(** ** [generate] leaves the store alone *)

Lemma keeps_store_emit st op : keeps store (emit st op).
Proof. now intros w. Qed.

Lemma keeps_store_getRandom n : keeps store (getRandom n).
Proof. now intros w. Qed.

Lemma keeps_store_randomBytes n : keeps store (crypto_randomBytes n).
Proof.
  intros w. unfold crypto_randomBytes.
  now destruct ((n <? 0) || (randomBytesMax <? n)).
Qed.

Lemma keeps_store_toString_hex b : keeps store (Buffer_toString_hex b).
Proof.
  intros w. unfold Buffer_toString_hex.
  now destruct (stringMaxLength <? 2 * Z.of_nat (List.length b)).
Qed.

Lemma keeps_store_resolveImage s : keeps store (resolveImage s).
Proof. intros w. unfold resolveImage. now destruct (images w s). Qed.

Lemma keeps_store_readObj r : keeps store (readObj r).
Proof. now intros w. Qed.

Lemma keeps_store_readCoordinate cs i : keeps store (readCoordinate cs i).
Proof.
  intros w. unfold readCoordinate.
  destruct (i <? 0); [reflexivity|].
  now destruct (nth_error cs (Z.to_nat i)).
Qed.

Lemma keeps_store_decoyLoop this l : keeps store (decoyLoop this l).
Proof.
  induction l as [|c l IH]; simpl; [apply keeps_ret|].
  repeat first
    [ apply keeps_store_getRandom
    | apply keeps_store_emit
    | exact IH
    | apply keeps_bind; [|intros ?] ].
Qed.

Lemma keeps_store_generate (this : CaptchaGenerator) : keeps store (generate this).
Proof.
  unfold generate, layout, backgroundStage, decoyStage, traceStage, textStage.
  repeat first
    [ apply keeps_ret
    | apply keeps_store_emit
    | apply keeps_store_getRandom
    | apply keeps_store_randomBytes
    | apply keeps_store_toString_hex
    | apply keeps_store_resolveImage
    | apply keeps_store_readObj
    | apply keeps_store_readCoordinate
    | apply keeps_store_decoyLoop
    | (intros w; reflexivity)
    | apply keeps_bind; [|intros ?]
    | apply keeps_forLoop; intros ? ?; unfold layoutStep, traceStep, textStep
    | match goal with |- keeps _ (if ?b then _ else _) => destruct b end ].
Qed.

(** C9: calling [generate] any number of times leaves the captcha option
    object as it is; the [text] accessor gives the same string before and
    after, and the character count is the same. *)
Theorem generate_keeps_text (k : nat) (this : CaptchaGenerator) (w : World) :
  store (generateTimes k this w) = store w /\
  text this (generateTimes k this w) = text this w /\
  characters this (generateTimes k this w) = characters this w.
Proof.
  assert (E : store (generateTimes k this w) = store w).
  { revert w. induction k as [|k IH]; intros w; simpl; [reflexivity|].
    rewrite IH. apply keeps_store_generate. }
  unfold text, characters. now rewrite E.
Qed.

(** ** The layout (lines 122-133) *)

Lemma getRandom_run (n : Z) (w : World) :
  getRandom n w =
  (Ok (randomIn n (mathRandom w (mathPos w))), withMathPos w (S (mathPos w))).
Proof. reflexivity. Qed.

Lemma layoutLoop_run (this : CaptchaGenerator) (n : Z) (k : nat) :
  forall (i : Z) (acc : list Coordinate) (w : World),
    forLoop k i (layoutStep this n) acc w =
    (Ok (acc ++ coordinatesFrom (width this) (height this) n
                  (mathRandom w) (mathPos w) i k),
     withMathPos w (mathPos w + k)).
Proof.
  induction k as [|k IH]; intros i acc w; simpl.
  - unfold ret. rewrite app_nil_r, Nat.add_0_r.
    destruct w; reflexivity.
  - unfold layoutStep at 1.
    rewrite (bind_ok _ _ w
               (acc ++ [(slotX (width this) n i,
                         randomIn (height this) (mathRandom w (mathPos w)))])
               (withMathPos w (S (mathPos w)))) by reflexivity.
    rewrite IH. simpl. rewrite <- app_assoc. simpl.
    unfold withMathPos. simpl. now rewrite Nat.add_succ_r.
Qed.

Lemma layout_run (this : CaptchaGenerator) (w : World) :
  let n := characters this w in
  layout this w =
  (Ok (coordinatesFrom (width this) (height this) n
         (mathRandom w) (mathPos w) 0 (Z.to_nat n)),
   withMathPos w (mathPos w + Z.to_nat n)).
Proof.
  unfold layout, characters. simpl.
  rewrite (bind_ok _ _ w (store w (captcha this)) w) by reflexivity.
  now rewrite layoutLoop_run.
Qed.

Lemma coordinatesFrom_length W H n rand k :
  forall p i, List.length (coordinatesFrom W H n rand p i k) = k.
Proof. induction k as [|k IH]; intros p i; simpl; [|rewrite IH]; reflexivity. Qed.


Lemma insertByX_Forall (P : Coordinate -> Prop) c l :
  P c -> Forall P l -> Forall P (insertByX c l).
Proof.
  intros Hc Hl. induction Hl as [|d l Hd Hl IH]; simpl.
  - constructor; [exact Hc | constructor].
  - destruct (Qle_bool (fst c) (fst d)); repeat constructor; assumption.
Qed.

Lemma sortByX_Forall (P : Coordinate -> Prop) l :
  Forall P l -> Forall P (sortByX l).
Proof.
  intros H. induction H as [|c l Hc Hl IH]; simpl; [constructor|].
  now apply insertByX_Forall.
Qed.

Lemma insertByX_length c l : List.length (insertByX c l) = S (List.length l).
Proof.
  induction l as [|d l IH]; simpl; [reflexivity|].
  destruct (Qle_bool (fst c) (fst d)); simpl; [reflexivity | now rewrite IH].
Qed.

Lemma sortByX_length l : List.length (sortByX l) = List.length l.
Proof.
  induction l as [|c l IH]; simpl; [reflexivity|].
  now rewrite insertByX_length, IH.
Qed.



(** On a list that is in order already the sort changes nothing. *)
Lemma sortByX_id l : StronglySorted leX l -> sortByX l = l.
Proof.
  intros H. induction H as [|c l Hs IH Hc]; simpl; [reflexivity|].
  rewrite IH. destruct Hc as [|d l Hd _]; simpl; [reflexivity|].
  unfold leX in Hd. apply Qle_bool_iff in Hd. now rewrite Hd.
Qed.

(** The literal [0.2] is a little more than one fifth. *)
Lemma fifth_value : (fifth == 3602879701896397 # 18014398509481984)%Q.
Proof. unfold Qeq. vm_compute. reflexivity. Qed.

Lemma fifth_bounds : (1 # 5 < fifth)%Q /\ (fifth <= 1 # 4)%Q.
Proof. rewrite fifth_value. split; [reflexivity | discriminate]. Qed.

Lemma inject_Z_nonneg (z : Z) : 0 <= z -> (0 <= inject_Z z)%Q.
Proof. intros H. change 0%Q with (inject_Z 0). now rewrite <- Zle_Qle. Qed.

Lemma add_fifth_mono (i j : Z) :
  i <= j ->
  (Double.add (inject_Z i) fifth <= Double.add (inject_Z j) fifth)%Q.
Proof.
  intros H. unfold Double.add. apply DoubleFacts.round_mono.
  apply Qplus_le_l. now rewrite <- Zle_Qle.
Qed.

Lemma add_fifth_lower (i : Z) :
  - 2 ^ 53 <= i <= 2 ^ 53 ->
  (inject_Z i <= Double.add (inject_Z i) fifth)%Q.
Proof.
  intros H. rewrite <- (DoubleFacts.round_integer i H) at 1.
  unfold Double.add. apply DoubleFacts.round_mono.
  destruct fifth_bounds as (B & _). revert B.
  generalize fifth (inject_Z i). intros f x B. lra.
Qed.

Lemma add_fifth_upper (i : Z) :
  0 <= i -> 4 * i + 1 <= 2 ^ 53 ->
  (Double.add (inject_Z i) fifth <= inject_Z (4 * i + 1) * (1 # 4))%Q.
Proof.
  intros H0 H. rewrite <- (DoubleFacts.round_quarter (4 * i + 1)) by lia.
  unfold Double.add. apply DoubleFacts.round_mono.
  rewrite inject_Z_plus, inject_Z_mult.
  change (inject_Z 4) with 4%Q. change (inject_Z 1) with 1%Q.
  destruct fifth_bounds as (_ & B). revert B.
  generalize fifth (inject_Z i). intros f x B. lra.
Qed.

Lemma add_fifth_nonneg (i : Z) :
  0 <= i -> (0 <= Double.add (inject_Z i) fifth)%Q.
Proof.
  intros H. unfold Double.add. apply DoubleFacts.round_nonneg.
  destruct fifth_bounds as (B & _). pose proof (inject_Z_nonneg i H) as P.
  revert B P. generalize fifth (inject_Z i). intros f x B P. lra.
Qed.

Lemma slotX_mono (W n i j : Z) : 0 <= W / n -> i <= j -> (slotX W n i <= slotX W n j)%Q.
Proof.
  intros Hg Hij. unfold slotX, Double.mul. apply DoubleFacts.round_mono.
  rewrite !(Qmult_comm (inject_Z (W / n))).
  apply Qmult_le_compat_r.
  - now apply add_fifth_mono.
  - now apply inject_Z_nonneg.
Qed.

(** The third slot of the default canvas, [50*(2 + 0.2)], is not 110. *)
Lemma slotX_default_third : (slotX 300 6 2 == 110 + (1 # 2 ^ 46))%Q.
Proof. unfold Qeq. vm_compute. reflexivity. Qed.

Lemma coordinatesFrom_lower W H n rand k :
  0 <= W / n ->
  forall p i i0, i0 <= i ->
    Forall (leX (slotX W n i0, 0)) (coordinatesFrom W H n rand p i k).
Proof.
  intros Hg. induction k as [|k IH]; intros p i i0 Hi; simpl; constructor.
  - unfold leX. simpl. now apply slotX_mono.
  - apply IH. lia.
Qed.

Lemma coordinatesFrom_sorted W H n rand k :
  0 <= W / n ->
  forall p i, StronglySorted leX (coordinatesFrom W H n rand p i k).
Proof.
  intros Hg. induction k as [|k IH]; intros p i; simpl; constructor.
  - apply IH.
  - eapply Forall_impl; [|apply (coordinatesFrom_lower W H n rand k Hg (S p) (i + 1) i); lia].
    intros c Hc. exact Hc.
Qed.



(** ** [getRandom] (lines 12-14) *)

(** The rounded product [r * (n - 60)] stays below [n - 60]: the largest
    double below 1 is [1 - 2^-53], and rounding moves a value by at most
    the fraction [2^-53] of it. *)
Lemma randomIn_range (n : Z) (r : Q) :
  60 < n -> Double.isDouble r -> (0 <= r)%Q -> (r < 1)%Q ->
  30 <= randomIn n r < n - 30.
Proof.
  intros Hn D H0 H1. unfold randomIn.
  destruct (DoubleFacts.mul_below r (n - 60) D H0 H1) as (Hlo & Hhi); [lia|].
  assert (Lo : 0 <= Qfloor (Double.mul r (inject_Z (n - 60)))).
  { rewrite <- (Qfloor_Z 0). now apply Qfloor_resp_le. }
  assert (Hi : Qfloor (Double.mul r (inject_Z (n - 60))) < n - 60).
  { rewrite Zlt_Qlt. eapply Qle_lt_trans; [apply Qfloor_le | exact Hhi]. }
  lia.
Qed.

Lemma coordinatesFrom_range W H n rand k :
  60 < H -> unitInterval rand ->
  forall p i,
    Forall (fun c : Coordinate => 30 <= snd c < H - 30)
           (coordinatesFrom W H n rand p i k).
Proof.
  intros HH Hr. induction k as [|k IH]; intros p i; simpl; constructor.
  - simpl. destruct (Hr p) as (D & H0 & H1). now apply randomIn_range.
  - apply IH.
Qed.

(** C6: for a height [H > 60], and values of [Math.random] that are
    doubles in [0, 1), [getRandom(H)] returns an integer [y] with
    [30 <= y < H - 30], the product being rounded as the code rounds it; so
    does every y-coordinate of the layout, before and after the sort. *)
Theorem getRandom_range (this : CaptchaGenerator) (w : World) :
  60 < height this ->
  unitInterval (mathRandom w) ->
  (exists y, fst (getRandom (height this) w) = Ok y /\
             30 <= y < height this - 30) /\
  (exists coordinates,
     fst (layout this w) = Ok coordinates /\
     Forall (fun c : Coordinate => 30 <= snd c < height this - 30) coordinates /\
     Forall (fun c : Coordinate => 30 <= snd c < height this - 30)
            (sortByX coordinates)).
Proof.
  intros HH Hr. split.
  - eexists. rewrite getRandom_run. split; [reflexivity|].
    destruct (Hr (mathPos w)) as (D & H0 & H1). now apply randomIn_range.
  - eexists. rewrite layout_run. split; [reflexivity|].
    assert (F := coordinatesFrom_range (width this) (height this)
                   (characters this w) (mathRandom w)
                   (Z.to_nat (characters this w)) HH Hr (mathPos w) 0).
    split; [exact F | now apply sortByX_Forall].
Qed.

Lemma sampleFloats_unitInterval : unitInterval sampleFloats.
Proof.
  intros k. unfold sampleFloats.
  pose proof (Z.mod_pos_bound (Z.of_nat k) 4 eq_refl) as B.
  split; [|split].
  - apply DoubleFacts.round_quarter. lia.
  - unfold Qle. simpl. lia.
  - unfold Qlt. simpl. lia.
Qed.

Lemma getRandom_range_witness :
  (exists y, fst (getRandom (height sampleGenerator) sampleState) = Ok y /\
             30 <= y < height sampleGenerator - 30) /\
  (exists coordinates,
     fst (layout sampleGenerator sampleState) = Ok coordinates /\
     Forall (fun c : Coordinate => 30 <= snd c < height sampleGenerator - 30)
            coordinates /\
     Forall (fun c : Coordinate => 30 <= snd c < height sampleGenerator - 30)
            (sortByX coordinates)).
Proof.
  apply (getRandom_range sampleGenerator sampleState).
  - simpl. lia.
  - exact sampleFloats_unitInterval.
Defined.

(** ** Calls on the rendering surface *)

Lemma silent_ret {A} (a : A) : silent (ret a).
Proof. now intros w. Qed.

Lemma silent_throw {A} e : silent (@throw A e).
Proof. now intros w. Qed.

Lemma silent_getWorld : silent getWorld.
Proof. now intros w. Qed.

Lemma silent_getRandom n : silent (getRandom n).
Proof. now intros w. Qed.

Lemma silent_randomBytes n : silent (crypto_randomBytes n).
Proof.
  intros w. unfold crypto_randomBytes.
  now destruct ((n <? 0) || (randomBytesMax <? n)).
Qed.

Lemma silent_toString_hex b : silent (Buffer_toString_hex b).
Proof.
  intros w. unfold Buffer_toString_hex.
  now destruct (stringMaxLength <? 2 * Z.of_nat (List.length b)).
Qed.

Lemma silent_resolveImage src : silent (resolveImage src).
Proof. intros w. unfold resolveImage. now destruct (images w src). Qed.

Lemma silent_readCoordinate cs i : silent (readCoordinate cs i).
Proof.
  intros w. unfold readCoordinate.
  destruct (i <? 0); [now split|].
  now destruct (nth_error cs (Z.to_nat i)).
Qed.

Lemma silent_layout this : silent (layout this).
Proof. intros w. now rewrite layout_run. Qed.

Lemma runs_impl {A} s (L L' : list Call -> Prop) (m : M A) :
  (forall l, L l -> L' l) -> runs s L m -> runs s L' m.
Proof.
  intros HL Hm w Hs. destruct (Hm w Hs) as (Hs' & l & E & Hl).
  split; [exact Hs'|]. exists l. auto.
Qed.

Lemma runs_silent {A} s (L : list Call -> Prop) (m : M A) :
  silent m -> L [] -> runs s L m.
Proof.
  intros Hm HL w Hs. destruct (Hm w) as (E1 & E2).
  split; [congruence|]. exists []. now rewrite app_nil_r.
Qed.

Lemma runs_emit s (L : list Call -> Prop) st op :
  L [(st, op)] -> runs s L (emit st op).
Proof. intros HL w Hs. split; [exact Hs|]. now exists [(st, op)]. Qed.

Lemma runs_bind {A B} s (L1 L2 L : list Call -> Prop) (m : M A) (k : A -> M B) :
  runs s L1 m -> (forall a, runs s L2 (k a)) ->
  (forall l1, L1 l1 -> L l1) ->
  (forall l1 l2, L1 l1 -> L2 l2 -> L (l1 ++ l2)) ->
  runs s L (bind m k).
Proof.
  intros Hm Hk Hstop Happ w Hs. unfold bind.
  destruct (Hm w Hs) as (Hs1 & l1 & E1 & H1).
  destruct (m w) as [[a|e] w1]; simpl in *.
  - destruct (Hk a w1 Hs1) as (Hs2 & l2 & E2 & H2).
    split; [exact Hs2|]. exists (l1 ++ l2).
    rewrite E2, E1, app_assoc. auto.
  - split; [exact Hs1|]. exists l1. auto.
Qed.

(** The object that a read finds is the one of the store [s]. *)
Lemma runs_readObj {B} s (L : list Call -> Prop) r (k : CaptchaOptions -> M B) :
  runs s L (k (s r)) -> runs s L (bind (readObj r) k).
Proof.
  intros Hk w Hs. unfold bind, readObj. rewrite Hs. now apply Hk.
Qed.

Lemma issues_silent {A} s P (m : M A) : silent m -> issues s P m.
Proof. intros H. apply runs_silent; [exact H | constructor]. Qed.

Lemma issues_emit s (P : Call -> Prop) st op : P (st, op) -> issues s P (emit st op).
Proof. intros H. apply runs_emit. now repeat constructor. Qed.

Lemma issues_bind {A B} s P (m : M A) (k : A -> M B) :
  issues s P m -> (forall a, issues s P (k a)) -> issues s P (bind m k).
Proof.
  intros Hm Hk. eapply runs_bind; [exact Hm | exact Hk | auto |].
  intros l1 l2 H1 H2. apply Forall_app. now split.
Qed.

Lemma issues_forLoop {S} s P (body : Z -> S -> M S) :
  (forall i acc, issues s P (body i acc)) ->
  forall count i acc, issues s P (forLoop count i body acc).
Proof.
  intros Hb count. induction count as [|k IH]; intros i acc; simpl.
  - apply issues_silent, silent_ret.
  - apply issues_bind; [apply Hb | intros a; apply IH].
Qed.

Lemma issues_impl {A} s (P Q : Call -> Prop) (m : M A) :
  (forall c, P c -> Q c) -> issues s P m -> issues s Q m.
Proof.
  intros H. apply runs_impl. intros l Hl. eapply Forall_impl; [|exact Hl]. exact H.
Qed.

(** Solves goals [issues s P m] for the blocks of [generate], given that
    the calls at hand satisfy [P]. *)
Ltac issues_step :=
  first
    [ apply issues_silent;
      first [ apply silent_ret | apply silent_throw | apply silent_getWorld
            | apply silent_getRandom | apply silent_randomBytes
            | apply silent_toString_hex
            | apply silent_resolveImage | apply silent_readCoordinate
            | apply silent_layout ]
    | apply issues_emit; try solve [cbv; auto]
    | apply runs_readObj
    | apply issues_forLoop; intros ? ?
    | apply issues_bind; [|intros ?] ].

Lemma backgroundStage_issues s this :
  issues s (fun c => fst c = StBackground /\ fromBlock c) (backgroundStage this).
Proof.
  unfold backgroundStage. destruct (truthy (background this));
    repeat issues_step.
Qed.

Lemma decoyLoop_issues s this l :
  issues s (fun c => fst c = StDecoy /\ fromBlock c) (decoyLoop this l).
Proof.
  induction l as [|ch l IH]; simpl.
  - apply issues_silent, silent_ret.
  - repeat first [exact IH | issues_step]; unfold fromBlock; simpl; auto.
Qed.

Lemma decoyStage_issues s this :
  issues s (fun c => fst c = StDecoy /\ fromBlock c) (decoyStage this).
Proof.
  unfold decoyStage. destruct (positive (do_opacity (decoy this)));
    repeat first [apply decoyLoop_issues | issues_step];
    unfold fromBlock; simpl; auto.
Qed.

Lemma traceStage_issues s this cs :
  issues s (fun c => fst c = StTrace /\ fromBlock c) (traceStage this cs).
Proof.
  unfold traceStage, traceStep. destruct (positive (to_opacity (trace this)));
    repeat issues_step; unfold fromBlock; simpl; auto.
Qed.

Lemma textStage_issues s this cs :
  issues s (fun c => fst c = StText /\ fromBlock c) (textStage this cs).
Proof.
  unfold textStage, textStep. apply runs_readObj.
  destruct (positive (co_opacity (s (captcha this))));
    repeat issues_step; unfold fromBlock; simpl; auto.
Qed.

(** A block whose opacity is not positive issues nothing. *)
Lemma decoyStage_off s this :
  positive (do_opacity (decoy this)) = false ->
  issues s (fun _ => False) (decoyStage this).
Proof.
  intros H. unfold decoyStage. rewrite H. apply issues_silent, silent_ret.
Qed.

Lemma traceStage_off s this cs :
  positive (to_opacity (trace this)) = false ->
  issues s (fun _ => False) (traceStage this cs).
Proof.
  intros H. unfold traceStage. rewrite H. apply issues_silent, silent_ret.
Qed.

Lemma textStage_off s this cs :
  positive (co_opacity (s (captcha this))) = false ->
  issues s (fun _ => False) (textStage this cs).
Proof.
  intros H. unfold textStage. apply runs_readObj. rewrite H.
  apply issues_silent, silent_ret.
Qed.

Lemma generate_draw (this : CaptchaGenerator) (w : World) :
  generate this w =
  draw this (withSurface w [(StSetup, NewCanvas (width this) (height this))]).
Proof. reflexivity. Qed.

(** The calls of a whole [generate], from what each block issues. *)
Lemma generate_issues (s : ref -> CaptchaOptions) (P : Call -> Prop)
    (this : CaptchaGenerator) :
  (forall c, fst c = StSetup /\ fromBlock c -> P c) ->
  issues s P (backgroundStage this) ->
  issues s P (decoyStage this) ->
  (forall cs, issues s P (traceStage this cs)) ->
  (forall cs, issues s P (textStage this cs)) ->
  P (StOutput, ToBuffer) ->
  forall w, store w = s -> Forall P (surface (snd (generate this w))).
Proof.
  intros Hsetup Hb Hd Ht Hx Ho w Hs.
  assert (B : issues s P (draw this)).
  { unfold draw.
    repeat first
      [ exact Hb | exact Hd | apply Ht | apply Hx
      | apply issues_emit; first [exact Ho | apply Hsetup; now split]
      | issues_step ]. }
  rewrite generate_draw.
  destruct (B (withSurface w [(StSetup, NewCanvas (width this) (height this))]) Hs)
    as (_ & l & E & Hl).
  rewrite E. simpl. constructor; [apply Hsetup; now split | exact Hl].
Qed.

(** A block other than the trace block issues no call of the stroke
    family. *)
Lemma fromBlock_stroke (c : Call) :
  fromBlock c -> fst c <> StTrace -> isStrokeOp (snd c) = false.
Proof.
  destruct c as [st op]. unfold fromBlock. simpl.
  destruct op; simpl; intros H Hn; try reflexivity; contradiction.
Qed.

(** A block other than the decoy and text blocks draws no text. *)
Lemma fromBlock_printText (c : Call) :
  fromBlock c -> fst c <> StDecoy -> fst c <> StText ->
  isPrintText (snd c) = false.
Proof.
  destruct c as [st op]. unfold fromBlock. simpl.
  destruct op; simpl; intros H Hd Ht; try reflexivity.
  destruct H; contradiction.
Qed.

Lemma positive_zero (q : Q) : (q == 0)%Q -> positive q = false.
Proof.
  unfold Qeq, positive. simpl. intros H.
  apply Z.ltb_ge. lia.
Qed.

(** C8: with an opacity of 0 the block of that opacity issues no call.
    With decoy opacity 0 no call comes from the decoy block; with trace
    opacity 0 no call comes from the trace block and no call of the path
    and stroke family is issued at all; with captcha opacity 0 no call
    comes from the text block; with decoy and captcha opacity both 0 no
    text is drawn at all. *)
Theorem zero_opacity_skips_block (this : CaptchaGenerator) (w : World) :
  let calls := surface (snd (generate this w)) in
  ((do_opacity (decoy this) == 0)%Q ->
     Forall (fun c => fst c <> StDecoy) calls) /\
  ((to_opacity (trace this) == 0)%Q ->
     Forall (fun c => fst c <> StTrace /\ isStrokeOp (snd c) = false) calls) /\
  ((co_opacity (store w (captcha this)) == 0)%Q ->
     Forall (fun c => fst c <> StText) calls) /\
  ((do_opacity (decoy this) == 0)%Q ->
   (co_opacity (store w (captcha this)) == 0)%Q ->
     Forall (fun c => isPrintText (snd c) = false) calls).
Proof.
  intros calls. unfold calls. repeat split.
  - intros H%positive_zero.
    apply (generate_issues (store w)); try reflexivity.
    + intros c [E _]. rewrite E. discriminate.
    + eapply issues_impl; [|apply backgroundStage_issues].
      intros c [E _]. rewrite E. discriminate.
    + eapply issues_impl; [|now apply decoyStage_off]. contradiction.
    + intros cs. eapply issues_impl; [|apply traceStage_issues].
      intros c [E _]. rewrite E. discriminate.
    + intros cs. eapply issues_impl; [|apply textStage_issues].
      intros c [E _]. rewrite E. discriminate.
    + discriminate.
  - intros H%positive_zero.
    assert (G : forall st c, st <> StTrace -> fst c = st /\ fromBlock c ->
                  fst c <> StTrace /\ isStrokeOp (snd c) = false).
    { intros st c Hst [E F].
      assert (fst c <> StTrace) by congruence.
      split; [assumption | now apply fromBlock_stroke]. }
    apply (generate_issues (store w)); try reflexivity.
    + intros c. apply (G StSetup). discriminate.
    + eapply issues_impl; [|apply backgroundStage_issues].
      intros c. apply (G StBackground). discriminate.
    + eapply issues_impl; [|apply decoyStage_issues].
      intros c. apply (G StDecoy). discriminate.
    + intros cs. eapply issues_impl; [|now apply traceStage_off]. contradiction.
    + intros cs. eapply issues_impl; [|apply textStage_issues].
      intros c. apply (G StText). discriminate.
    + split; [discriminate | reflexivity].
  - intros H%positive_zero.
    apply (generate_issues (store w)); try reflexivity.
    + intros c [E _]. rewrite E. discriminate.
    + eapply issues_impl; [|apply backgroundStage_issues].
      intros c [E _]. rewrite E. discriminate.
    + eapply issues_impl; [|apply decoyStage_issues].
      intros c [E _]. rewrite E. discriminate.
    + intros cs. eapply issues_impl; [|apply traceStage_issues].
      intros c [E _]. rewrite E. discriminate.
    + intros cs. eapply issues_impl; [|now apply textStage_off]. contradiction.
    + discriminate.
  - intros Hd%positive_zero Hx%positive_zero.
    assert (G : forall st c, st <> StDecoy -> st <> StText ->
                  fst c = st /\ fromBlock c -> isPrintText (snd c) = false).
    { intros st c H1 H2 [E F]. apply fromBlock_printText; congruence. }
    apply (generate_issues (store w)); try reflexivity.
    + intros c. apply (G StSetup); discriminate.
    + eapply issues_impl; [|apply backgroundStage_issues].
      intros c. apply (G StBackground); discriminate.
    + eapply issues_impl; [|now apply decoyStage_off]. contradiction.
    + intros cs. eapply issues_impl; [|apply traceStage_issues].
      intros c. apply (G StTrace); discriminate.
    + intros cs. eapply issues_impl; [|now apply textStage_off]. contradiction.
Qed.

Lemma zero_opacity_skips_block_witness :
  Forall (fun c => fst c <> StDecoy)
         (surface (snd (generate transparentGenerator transparentState))) /\
  Forall (fun c => fst c <> StTrace /\ isStrokeOp (snd c) = false)
         (surface (snd (generate transparentGenerator transparentState))) /\
  Forall (fun c => fst c <> StText)
         (surface (snd (generate transparentGenerator transparentState))) /\
  Forall (fun c => isPrintText (snd c) = false)
         (surface (snd (generate transparentGenerator transparentState))).
Proof.
  destruct (zero_opacity_skips_block transparentGenerator transparentState)
    as (A & B & C & D).
  split; [apply A; reflexivity|].
  split; [apply B; reflexivity|].
  split; [apply C; reflexivity|].
  apply D; reflexivity.
Defined.

(** ** The order of the blocks *)

Lemma between_nil lo hi : between lo hi [].
Proof. split; constructor. Qed.

Lemma between_one lo hi st op :
  (lo <= rank st <= hi)%nat -> between lo hi [(st, op)].
Proof. intros H. split; repeat constructor; simpl; lia. Qed.

Lemma between_weaken lo hi lo' hi' l :
  (lo' <= lo)%nat -> (hi <= hi')%nat -> between lo hi l -> between lo' hi' l.
Proof.
  intros H1 H2 [Hs Hf]. split; [exact Hs|].
  eapply Forall_impl; [|exact Hf]. simpl. intros c Hc. lia.
Qed.

Lemma between_app lo mid hi l1 l2 :
  between lo mid l1 -> between mid hi l2 -> (lo <= mid <= hi)%nat ->
  between lo hi (l1 ++ l2).
Proof.
  intros [S1 F1] [S2 F2] Hm. split.
  - unfold stageOrdered in *. induction S1 as [|c l1 S1 IH Hc]; simpl.
    + exact S2.
    + inversion F1 as [|? ? Fc F1']; subst.
      constructor; [now apply IH|].
      apply Forall_app. split; [exact Hc|].
      eapply Forall_impl; [|exact F2]. simpl. intros d Hd. lia.
  - apply Forall_app. split; eapply Forall_impl; eauto; simpl; intros c Hc; lia.
Qed.

Lemma between_same st l :
  Forall (fun c => fst c = st) l -> between (rank st) (rank st) l.
Proof.
  intros H. split.
  - induction H as [|c l Hc Hl IH]; constructor; [exact IH|].
    eapply Forall_impl; [|exact Hl]. simpl. intros d Hd. now rewrite Hc, Hd.
  - eapply Forall_impl; [|exact H]. simpl. intros c Hc. rewrite Hc. lia.
Qed.

Lemma runs_between_bind {A B} s lo mid hi (m : M A) (k : A -> M B) :
  (lo <= mid <= hi)%nat ->
  runs s (between lo mid) m -> (forall a, runs s (between mid hi) (k a)) ->
  runs s (between lo hi) (bind m k).
Proof.
  intros Hm H1 H2. eapply runs_bind; [exact H1 | exact H2 | |].
  - intros l Hl. eapply between_weaken; [| |exact Hl]; lia.
  - intros l1 l2 Hl1 Hl2. now apply (between_app lo mid hi).
Qed.

Lemma runs_between_block {A} s st lo (P : Call -> Prop) (m : M A) :
  (lo <= rank st)%nat ->
  issues s (fun c => fst c = st /\ P c) m ->
  runs s (between lo (rank st)) m.
Proof.
  intros Hlo H. eapply runs_impl; [|exact H].
  intros l Hl. apply (between_weaken (rank st) (rank st)); [exact Hlo | lia |].
  apply between_same. eapply Forall_impl; [|exact Hl]. now intros c [E _].
Qed.

Lemma draw_between s (this : CaptchaGenerator) : runs s (between 0 5) (draw this).
Proof.
  unfold draw.
  apply (runs_between_bind s 0 0 5); [lia | |intros _].
  { apply runs_emit, between_one. simpl. lia. }
  apply (runs_between_bind s 0 0 5); [lia | |intros _].
  { apply runs_emit, between_one. simpl. lia. }
  apply (runs_between_bind s 0 0 5); [lia | |intros cs].
  { apply runs_silent; [apply silent_layout | apply between_nil]. }
  apply (runs_between_bind s 0 1 5); [lia | |intros _].
  { apply (runs_between_block s StBackground 0 fromBlock); [simpl; lia|].
    apply backgroundStage_issues. }
  apply (runs_between_bind s 1 2 5); [lia | |intros _].
  { apply (runs_between_block s StDecoy 1 fromBlock); [simpl; lia|].
    apply decoyStage_issues. }
  apply (runs_between_bind s 2 3 5); [lia | |intros _].
  { apply (runs_between_block s StTrace 2 fromBlock); [simpl; lia|].
    apply traceStage_issues. }
  apply (runs_between_bind s 3 4 5); [lia | |intros _].
  { apply (runs_between_block s StText 3 fromBlock); [simpl; lia|].
    apply textStage_issues. }
  apply (runs_between_bind s 4 5 5); [lia | |intros _].
  { apply runs_emit, between_one. simpl. lia. }
  apply (runs_between_bind s 5 5 5); [lia | |intros w'].
  { apply runs_silent; [apply silent_getWorld | apply between_nil]. }
  apply runs_silent; [apply silent_ret | apply between_nil].
Qed.

(** The value that [generate] returns is the content of the surface. *)
Lemma generate_value (this : CaptchaGenerator) (w : World) (calls : list Call) :
  fst (generate this w) = Ok calls -> calls = surface (snd (generate this w)).
Proof.
  rewrite generate_draw. unfold draw.
  set (w0 := withSurface w _). clearbody w0. revert w0.
  assert (T : forall w1, fst ((w' <- getWorld ;; ret (surface w')) w1) = Ok calls ->
              calls = surface (snd ((w' <- getWorld ;; ret (surface w')) w1))).
  { intros w1 H. simpl in *. congruence. }
  assert (G : forall {A} (m : M A) (k : A -> M (list Call)),
              (forall a w1, fst (k a w1) = Ok calls ->
                            calls = surface (snd (k a w1))) ->
              forall w1, fst (bind m k w1) = Ok calls ->
                         calls = surface (snd (bind m k w1))).
  { intros A m k Hk w1. unfold bind.
    destruct (m w1) as [[a|e] w2]; simpl; [apply Hk | discriminate]. }
  do 8 (apply G; intros ?). exact T.
Qed.

Lemma decoyGlyphCount_app l1 l2 :
  decoyGlyphCount (l1 ++ l2) = (decoyGlyphCount l1 + decoyGlyphCount l2)%nat.
Proof. unfold decoyGlyphCount. now rewrite filter_app, length_app. Qed.

Lemma decoyGlyphCount_all l :
  Forall (fun c => isDecoyGlyph c = true) l -> decoyGlyphCount l = List.length l.
Proof.
  intros H. unfold decoyGlyphCount.
  induction H as [|c l Hc Hl IH]; simpl; [reflexivity|].
  rewrite Hc. simpl. now rewrite IH.
Qed.

Lemma decoyGlyphCount_none l :
  Forall (fun c => fst c <> StDecoy) l -> decoyGlyphCount l = 0%nat.
Proof.
  intros H. unfold decoyGlyphCount.
  induction H as [|c l Hc Hl IH]; simpl; [reflexivity|].
  destruct c as [st op]. simpl in Hc.
  destruct st; try contradiction; simpl; exact IH.
Qed.

Lemma backgroundStage_ok (this : CaptchaGenerator) (w : World) :
  backgroundResolves this w ->
  exists w', backgroundStage this w = (Ok tt, w') /\
             store w' = store w /\
             exists l, surface w' = surface w ++ l /\
                       Forall (fun c => fst c = StBackground) l.
Proof.
  unfold backgroundResolves, backgroundStage.
  destruct (truthy (background this)).
  - intros [H|[img H]]; [discriminate|].
    unfold bind, resolveImage, emit. rewrite H.
    eexists. split; [reflexivity|]. split; [reflexivity|].
    eexists. split; [reflexivity|]. now repeat constructor.
  - intros _. exists w. split; [reflexivity|]. split; [reflexivity|].
    exists []. now rewrite app_nil_r.
Qed.

Lemma decoyLoop_run (this : CaptchaGenerator) (l : list ascii) :
  forall w,
  exists w', decoyLoop this l w = (Ok tt, w') /\
             store w' = store w /\
             exists glyphs, surface w' = surface w ++ glyphs /\
                            List.length glyphs = List.length l /\
                            Forall (fun c => isDecoyGlyph c = true) glyphs.
Proof.
  induction l as [|ch l IH]; intros w; simpl.
  - exists w. split; [reflexivity|]. split; [reflexivity|].
    exists []. rewrite app_nil_r. repeat split. constructor.
  - unfold bind at 1. rewrite getRandom_run.
    unfold bind at 1. rewrite getRandom_run.
    unfold bind at 1, emit at 1.
    match goal with |- context [decoyLoop this l ?w1] =>
      destruct (IH w1) as (w' & E & Hs & glyphs & Hg & Hlen & Hall) end.
    exists w'. split; [exact E|]. split; [exact Hs|].
    eexists. split; [rewrite Hg; simpl; rewrite <- app_assoc; reflexivity|].
    simpl. split; [now rewrite Hlen|]. now constructor.
Qed.

Lemma hexBytesMax_value : hexBytesMax = 268435444.
Proof. reflexivity. Qed.

Lemma hexBytesMax_randomBytesMax : hexBytesMax < randomBytesMax.
Proof. reflexivity. Qed.

(** [randomBytes] on a size in its range. *)
Lemma randomBytes_run (n : Z) (w : World) :
  0 <= n <= randomBytesMax ->
  crypto_randomBytes n w =
  (Ok (map (cryptoSource w) (seq (cryptoPos w) (Z.to_nat n))),
   withCryptoPos w (cryptoPos w + Z.to_nat n)%nat).
Proof.
  intros Hn. unfold crypto_randomBytes.
  replace ((n <? 0) || (randomBytesMax <? n)) with false; [reflexivity|].
  symmetry. apply orb_false_iff. split; apply Z.ltb_ge; lia.
Qed.

(** The hexadecimal string of [n] bytes: built up to [hexBytesMax] bytes,
    refused beyond. *)
Lemma toString_hex_run (buf : list byte) (w : World) :
  Buffer_toString_hex buf w =
  if Z.of_nat (List.length buf) <=? hexBytesMax then (Ok (Str.toHex buf), w)
  else (Throw StringTooLong, w).
Proof.
  unfold Buffer_toString_hex. rewrite hexBytesMax_value.
  change stringMaxLength with 536870888.
  destruct (Z.ltb_spec 536870888 (2 * Z.of_nat (List.length buf)));
    destruct (Z.leb_spec (Z.of_nat (List.length buf)) 268435444);
    try reflexivity; lia.
Qed.

(** The decoy block with a positive opacity: the size it asks of
    [randomBytes] is [floor(H * W / 10000)].  Up to [hexBytesMax] bytes the
    block issues its three styling calls and then draws two glyphs for each
    byte; outside the range of [randomBytes] the block throws before any
    call, and so it does, at the conversion to a string, on a size in that
    range beyond [hexBytesMax]. *)
Lemma decoyStage_run (this : CaptchaGenerator) (w : World) :
  let n := (height this * width this) / 10000 in
  positive (do_opacity (decoy this)) = true ->
  (0 <= n <= hexBytesMax ->
   exists w' glyphs,
     decoyStage this w = (Ok tt, w') /\
     store w' = store w /\
     surface w' = surface w ++ decoyHeader this ++ glyphs /\
     Forall (fun c => isDecoyGlyph c = true) glyphs /\
     Z.of_nat (List.length glyphs) = 2 * n) /\
  (~ 0 <= n <= randomBytesMax ->
   decoyStage this w = (Throw RangeError, w)) /\
  (hexBytesMax < n <= randomBytesMax ->
   decoyStage this w =
   (Throw StringTooLong, withCryptoPos w (cryptoPos w + Z.to_nat n)%nat)).
Proof.
  intros n Hpos. unfold decoyStage. rewrite Hpos. fold n.
  pose proof hexBytesMax_randomBytesMax as HM.
  pose proof hexBytesMax_value as HV.
  split; [|split].
  - intros Hn.
    assert (Hr : 0 <= n <= randomBytesMax) by lia.
    rewrite (bind_ok _ _ w _ _ (randomBytes_run n w Hr)).
    unfold bind at 1. rewrite toString_hex_run.
    rewrite length_map, length_seq, Z2Nat.id by lia.
    replace (n <=? hexBytesMax) with true by (symmetry; apply Z.leb_le; lia).
    repeat run_emit.
    match goal with |- context [decoyLoop this ?t ?w1] =>
      destruct (decoyLoop_run this t w1)
        as (w' & E & Hs & glyphs & Hg & Hlen & Hall) end.
    exists w', glyphs. split; [exact E|]. split; [exact Hs|].
    split; [rewrite Hg; simpl; rewrite <- !app_assoc; reflexivity|].
    split; [exact Hall|].
    rewrite Hlen, toHex_length, length_map, length_seq. lia.
  - intros Hn. unfold bind at 1, crypto_randomBytes.
    replace ((n <? 0) || (randomBytesMax <? n)) with true; [reflexivity|].
    symmetry. apply orb_true_iff.
    destruct (Z.ltb_spec n 0); [now left|].
    right. apply Z.ltb_lt. lia.
  - intros Hn.
    assert (Hr : 0 <= n <= randomBytesMax) by lia.
    rewrite (bind_ok _ _ w _ _ (randomBytes_run n w Hr)).
    unfold bind at 1. rewrite toString_hex_run.
    rewrite length_map, length_seq, Z2Nat.id by lia.
    replace (n <=? hexBytesMax) with false by (symmetry; apply Z.leb_gt; lia).
    reflexivity.
Qed.

Lemma isDecoyGlyph_stage (l : list Call) :
  Forall (fun c => isDecoyGlyph c = true) l -> Forall (fun c => fst c = StDecoy) l.
Proof.
  intros H. eapply Forall_impl; [|exact H].
  intros [st op] Hc. destruct st; try discriminate Hc. reflexivity.
Qed.

(** The blocks after the decoy block issue no call of the decoy block. *)
Lemma afterDecoy_issues s (this : CaptchaGenerator) (cs : list Coordinate) :
  issues s (fun c => fst c <> StDecoy)
         (traceStage this cs ;;
          textStage this cs ;;
          emit StOutput ToBuffer ;;
          w' <- getWorld ;;
          ret (surface w')).
Proof.
  apply issues_bind; [|intros _].
  { eapply issues_impl; [|apply traceStage_issues].
    intros c [E _]. rewrite E. discriminate. }
  apply issues_bind; [|intros _].
  { eapply issues_impl; [|apply textStage_issues].
    intros c [E _]. rewrite E. discriminate. }
  apply issues_bind; [|intros _].
  { apply issues_emit. discriminate. }
  apply issues_bind; [|intros w'].
  { apply issues_silent, silent_getWorld. }
  apply issues_silent, silent_ret.
Qed.

(** X22: with a positive decoy opacity, a background that resolves if one
    is set, and [floor(H * W / 10000)] between 0 and 268435444, the calls
    of [generate] hold [2 * floor(H * W / 10000)] glyphs of the decoy
    block: one for each hexadecimal digit of [floor(H * W / 10000)] random
    bytes. *)
Theorem decoy_glyphs_two_per_byte (this : CaptchaGenerator) (w : World) :
  let n := (height this * width this) / 10000 in
  positive (do_opacity (decoy this)) = true ->
  0 <= n <= hexBytesMax ->
  backgroundResolves this w ->
  Z.of_nat (decoyGlyphCount (surface (snd (generate this w)))) = 2 * n.
Proof.
  intros n Hpos Hn Hbg.
  rewrite generate_draw. unfold draw.
  unfold bind at 1, emit at 1. unfold bind at 1, emit at 1.
  unfold bind at 1. rewrite layout_run.
  set (cs := sortByX _).
  match goal with |- context [bind (backgroundStage this) ?k ?w1] =>
    destruct (backgroundStage_ok this w1 Hbg) as (w2 & E2 & S2 & l2 & G2 & F2);
    rewrite (bind_ok _ k w1 tt w2 E2) end.
  destruct (proj1 (decoyStage_run this w2 Hpos) Hn)
    as (w3 & glyphs & E3 & S3 & G3 & F3 & C3).
  rewrite (bind_ok _ _ w2 tt w3 E3).
  destruct (afterDecoy_issues (store w3) this cs w3 eq_refl)
    as (_ & l4 & G4 & F4).
  rewrite G4, G3, G2. simpl surface.
  rewrite !decoyGlyphCount_app.
  rewrite (decoyGlyphCount_none l4) by exact F4.
  rewrite (decoyGlyphCount_none l2).
  2:{ eapply Forall_impl; [|exact F2]. intros c E. rewrite E. discriminate. }
  rewrite (decoyGlyphCount_all glyphs) by exact F3.
  change (decoyGlyphCount [_; _; _]) with 0%nat.
  change (decoyGlyphCount (decoyHeader this)) with 0%nat.
  fold n in C3. lia.
Qed.

Lemma decoy_glyphs_two_per_byte_witness :
  Z.of_nat (decoyGlyphCount (surface (snd (generate sampleGenerator sampleState))))
  = 2 * ((height sampleGenerator * width sampleGenerator) / 10000).
Proof.
  apply (decoy_glyphs_two_per_byte sampleGenerator sampleState).
  - reflexivity.
  - vm_compute. split; discriminate.
  - left. reflexivity.
Defined.

(** C2 (violated by the code): on the default canvas of 100 by 300, with
    the decoy block on, the count [decoyTextCount] that the code computes
    is [floor(100 * 300 / 10000) = 3], and the block draws 6 glyphs, not 3:
    the loop runs over the hexadecimal string of [decoyTextCount] random
    bytes, which has two characters for each byte. *)
Theorem decoy_glyph_count_doubled :
  positive (do_opacity (decoy sampleGenerator)) = true /\
  (height sampleGenerator * width sampleGenerator) / 10000 = 3 /\
  (exists calls,
     fst (generate sampleGenerator sampleState) = Ok calls /\
     decoyGlyphCount calls = 6%nat) /\
  decoyGlyphCount (surface (snd (generate sampleGenerator sampleState)))
  = 6%nat.
Proof.
  split; [reflexivity|]. split; [reflexivity|].
  split; [eexists; split; [vm_compute; reflexivity | vm_compute; reflexivity]|].
  vm_compute. reflexivity.
Qed.

(** ** Reads of the coordinate list (lines 154, 158, 167) *)

Lemma safe_ret {A} (a : A) : safe (ret a).
Proof. intros w. discriminate. Qed.

Lemma safe_emit st op : safe (emit st op).
Proof. intros w. discriminate. Qed.

Lemma safe_getWorld : safe getWorld.
Proof. intros w. discriminate. Qed.

Lemma safe_readObj r : safe (readObj r).
Proof. intros w. discriminate. Qed.

Lemma safe_getRandom n : safe (getRandom n).
Proof. intros w. discriminate. Qed.

Lemma safe_randomBytes n : safe (crypto_randomBytes n).
Proof.
  intros w. unfold crypto_randomBytes.
  destruct ((n <? 0) || (randomBytesMax <? n)); discriminate.
Qed.

Lemma safe_toString_hex b : safe (Buffer_toString_hex b).
Proof.
  intros w. unfold Buffer_toString_hex.
  destruct (stringMaxLength <? 2 * Z.of_nat (List.length b)); discriminate.
Qed.

Lemma safe_resolveImage src : safe (resolveImage src).
Proof. intros w. unfold resolveImage. destruct (images w src); discriminate. Qed.

Lemma safe_bind {A B} (m : M A) (k : A -> M B) :
  safe m -> (forall a, safe (k a)) -> safe (bind m k).
Proof.
  intros Hm Hk w. unfold bind. specialize (Hm w).
  destruct (m w) as [[a|e] w1]; simpl in *; [apply Hk|].
  intros E. apply Hm. congruence.
Qed.

(** A read at an index below the length finds its element. *)
Lemma readCoordinate_inbounds (cs : list Coordinate) (i : Z) (w : World) :
  0 <= i < Z.of_nat (List.length cs) ->
  exists c, nth_error cs (Z.to_nat i) = Some c /\
            readCoordinate cs i w = (Ok c, w).
Proof.
  intros Hi. unfold readCoordinate.
  replace (i <? 0) with false by (symmetry; apply Z.ltb_ge; lia).
  destruct (nth_error cs (Z.to_nat i)) as [c|] eqn:E.
  - exists c. now split.
  - apply nth_error_None in E. lia.
Qed.

Lemma safe_readCoordinate (cs : list Coordinate) (i : Z) :
  0 <= i < Z.of_nat (List.length cs) -> safe (readCoordinate cs i).
Proof.
  intros Hi w. destruct (readCoordinate_inbounds cs i w Hi) as (c & _ & E).
  rewrite E. discriminate.
Qed.

Lemma safe_forLoop {S} (body : Z -> S -> M S) (count : nat) :
  forall i acc,
    (forall j a, i <= j < i + Z.of_nat count -> safe (body j a)) ->
    safe (forLoop count i body acc).
Proof.
  induction count as [|k IH]; intros i acc Hb; simpl.
  - apply safe_ret.
  - apply safe_bind; [apply Hb; lia|].
    intros a. apply IH. intros j a' Hj. apply Hb. lia.
Qed.

Lemma safe_decoyLoop this l : safe (decoyLoop this l).
Proof.
  intros w. destruct (decoyLoop_run this l w) as (w' & E & _).
  rewrite E. discriminate.
Qed.

Lemma safe_backgroundStage this : safe (backgroundStage this).
Proof.
  unfold backgroundStage. destruct (truthy (background this));
    [|apply safe_ret].
  apply safe_bind; [apply safe_resolveImage | intros img; apply safe_emit].
Qed.

Lemma safe_decoyStage this : safe (decoyStage this).
Proof.
  unfold decoyStage. destruct (positive (do_opacity (decoy this)));
    [|apply safe_ret].
  apply safe_bind; [apply safe_randomBytes | intros bytes].
  apply safe_bind; [apply safe_toString_hex | intros decoyText].
  repeat (apply safe_bind; [apply safe_emit | intros _]).
  apply safe_decoyLoop.
Qed.

(** On a list that is not empty, every read of the trace block is in
    bounds: index 0 for [moveTo], indices 1 to length - 1 for [lineTo]. *)
Lemma safe_traceStage this (cs : list Coordinate) :
  cs <> [] -> safe (traceStage this cs).
Proof.
  intros Hne. assert (Hlen : (1 <= List.length cs)%nat).
  { destruct cs; [contradiction | simpl; lia]. }
  unfold traceStage. destruct (positive (to_opacity (trace this)));
    [|apply safe_ret].
  repeat (apply safe_bind; [apply safe_emit | intros _]).
  apply safe_bind; [apply safe_readCoordinate; lia | intros c0].
  repeat (apply safe_bind; [apply safe_emit | intros _]).
  apply safe_bind; [|intros _; apply safe_emit].
  apply safe_forLoop. intros j a Hj. unfold traceStep.
  apply safe_bind; [apply safe_readCoordinate; lia | intros c; apply safe_emit].
Qed.

Lemma safe_textStage this (cs : list Coordinate) : safe (textStage this cs).
Proof.
  unfold textStage. apply safe_bind; [apply safe_readObj | intros o].
  destruct (positive (co_opacity o)); [|apply safe_ret].
  repeat (apply safe_bind; [apply safe_emit | intros _]).
  apply safe_forLoop. intros j a Hj. unfold textStep.
  apply safe_bind; [apply safe_readObj | intros o'].
  apply safe_bind; [apply safe_readCoordinate; lia | intros c; apply safe_emit].
Qed.

(** On the empty list the trace block, when it runs, throws at the read
    of [coordinates[0]], after [setStroke], [setGlobalAlpha] and
    [beginPath]. *)
Lemma traceStage_empty this (w : World) :
  positive (to_opacity (trace this)) = true ->
  exists w', traceStage this [] w = (Throw TypeError, w') /\
    surface w' = surface w ++
      [(StTrace, SetStroke (to_color (trace this)));
       (StTrace, SetGlobalAlpha (to_opacity (trace this)));
       (StTrace, BeginPath)].
Proof.
  intros H. unfold traceStage. rewrite H.
  eexists. split; [reflexivity|]. simpl. now rewrite <- !app_assoc.
Qed.

Lemma decoyStage_ok (this : CaptchaGenerator) (w : World) :
  decoyPasses this -> exists w', decoyStage this w = (Ok tt, w').
Proof.
  intros [H|H].
  - unfold decoyStage. rewrite H. now exists w.
  - destruct (positive (do_opacity (decoy this))) eqn:E.
    + destruct (proj1 (decoyStage_run this w E) H) as (w' & glyphs & E' & _).
      now exists w'.
    + unfold decoyStage. rewrite E. now exists w.
Qed.

(** C10: with a character count [n >= 1] the coordinate list that the
    trace block reads has [n] elements, every read of the trace block
    finds its element and [generate] does not throw a [TypeError]; with a
    count of 0 and a positive trace opacity the list is empty and
    [generate], once the background and decoy blocks are past, throws a
    [TypeError] at the read of the first element. *)
Theorem trace_reads (this : CaptchaGenerator) (w : World) :
  (1 <= characters this w ->
   exists coordinates,
     fst (layout this w) = Ok coordinates /\
     List.length (sortByX coordinates) = Z.to_nat (characters this w) /\
     (forall i w1, 0 <= i < characters this w ->
        exists c, nth_error (sortByX coordinates) (Z.to_nat i) = Some c /\
                  readCoordinate (sortByX coordinates) i w1 = (Ok c, w1)) /\
     safe (traceStage this (sortByX coordinates)) /\
     fst (generate this w) <> Throw TypeError) /\
  (characters this w = 0 ->
   positive (to_opacity (trace this)) = true ->
   fst (layout this w) = Ok [] /\
   (forall w1, fst (traceStage this (sortByX []) w1) = Throw TypeError) /\
   (backgroundResolves this w -> decoyPasses this ->
    fst (generate this w) = Throw TypeError)).
Proof.
  split.
  - intros Hn. eexists. rewrite layout_run. split; [reflexivity|].
    set (cs := coordinatesFrom _ _ _ _ _ _ _).
    assert (Hlen : List.length (sortByX cs) = Z.to_nat (characters this w)).
    { unfold cs. now rewrite sortByX_length, coordinatesFrom_length. }
    assert (Hne : sortByX cs <> []).
    { intros E. rewrite E in Hlen. simpl in Hlen. lia. }
    split; [exact Hlen|]. split; [|split].
    + intros i w1 Hi. apply readCoordinate_inbounds. lia.
    + now apply safe_traceStage.
    + rewrite generate_draw. unfold draw.
      unfold bind at 1, emit at 1. unfold bind at 1, emit at 1.
      unfold bind at 1. rewrite layout_run. fold cs.
      apply safe_bind; [apply safe_backgroundStage | intros _].
      apply safe_bind; [apply safe_decoyStage | intros _].
      apply safe_bind; [now apply safe_traceStage | intros _].
      apply safe_bind; [apply safe_textStage | intros _].
      apply safe_bind; [apply safe_emit | intros _].
      apply safe_bind; [apply safe_getWorld | intros w'; apply safe_ret].
  - intros Hn Hpos. rewrite layout_run, Hn. simpl.
    split; [reflexivity|]. split.
    + intros w1. destruct (traceStage_empty this w1 Hpos) as (w' & E & _).
      now rewrite E.
    + intros Hbg Hdecoy.
      rewrite generate_draw. unfold draw.
      unfold bind at 1, emit at 1. unfold bind at 1, emit at 1.
      unfold bind at 1. rewrite layout_run.
      unfold characters in Hn |- *. simpl store. rewrite Hn. simpl coordinatesFrom.
      match goal with |- context [bind (backgroundStage this) ?k ?w1] =>
        destruct (backgroundStage_ok this w1 Hbg) as (w2 & E2 & _);
        rewrite (bind_ok _ k w1 tt w2 E2) end.
      destruct (decoyStage_ok this w2 Hdecoy) as (w3 & E3).
      rewrite (bind_ok _ _ w2 tt w3 E3).
      destruct (traceStage_empty this w3 Hpos) as (w4 & E4 & _).
      simpl sortByX.
      now rewrite (bind_throw _ _ w3 TypeError w4 E4).
Qed.

Lemma trace_reads_witness :
  fst (generate sampleGenerator sampleState) <> Throw TypeError /\
  fst (generate sampleGenerator emptyState) = Throw TypeError.
Proof.
  split.
  - destruct (proj1 (trace_reads sampleGenerator sampleState))
      as (cs & _ & _ & _ & _ & H).
    + unfold characters. simpl. lia.
    + exact H.
  - destruct (proj2 (trace_reads sampleGenerator emptyState))
      as (_ & _ & H).
    + reflexivity.
    + reflexivity.
    + apply H.
      * left. reflexivity.
      * right. vm_compute. split; discriminate.
Defined.

(** ** The calls of a run that returns *)

Lemma backgroundStage_calls (this : CaptchaGenerator) (w : World) :
  backgroundResolves this w ->
  exists w', backgroundStage this w = (Ok tt, w') /\
             store w' = store w /\
             surface w' = surface w ++ backgroundCalls this w.
Proof.
  unfold backgroundResolves, backgroundStage, backgroundCalls.
  destruct (truthy (background this)).
  - intros [H|[img H]]; [discriminate|].
    unfold bind, resolveImage, emit. rewrite H.
    eexists. split; [reflexivity|]. split; reflexivity.
  - intros _. exists w. split; [reflexivity|]. split; [reflexivity|].
    now rewrite app_nil_r.
Qed.

Lemma readCoordinate_at (cs : list Coordinate) (i : nat) (c : Coordinate) (w : World) :
  nth_error cs i = Some c -> readCoordinate cs (Z.of_nat i) w = (Ok c, w).
Proof.
  intros H. unfold readCoordinate.
  replace (Z.of_nat i <? 0) with false by (symmetry; apply Z.ltb_ge; lia).
  now rewrite Nat2Z.id, H.
Qed.

Lemma skipn_step {A} (l : list A) (i : nat) (a : A) (rest : list A) :
  skipn i l = a :: rest -> nth_error l i = Some a /\ skipn (S i) l = rest.
Proof.
  intros H. split.
  - now rewrite <- hd_error_skipn, H.
  - change (S i) with (1 + i)%nat. now rewrite <- skipn_skipn, H.
Qed.

Lemma traceLoop_run (cs : list Coordinate) (rest : list Coordinate) :
  forall (i : nat) (w : World),
    skipn i cs = rest ->
    exists w', forLoop (List.length rest) (Z.of_nat i) (traceStep cs) tt w
               = (Ok tt, w') /\
               store w' = store w /\
               surface w' = surface w ++ map lineToCall rest.
Proof.
  induction rest as [|c rest IH]; intros i w H; simpl.
  - exists w. split; [reflexivity|]. split; [reflexivity|].
    now rewrite app_nil_r.
  - destruct (skipn_step cs i c rest H) as (Hc & Hrest).
    unfold traceStep at 1.
    rewrite (bind_ok _ _ w tt
               (withSurface w (surface w ++ [lineToCall c]))).
    2:{ rewrite (bind_ok _ _ w c w) by now apply readCoordinate_at.
        reflexivity. }
    replace (Z.of_nat i + 1) with (Z.of_nat (S i)) by lia.
    destruct (IH (S i) (withSurface w (surface w ++ [lineToCall c])) Hrest)
      as (w' & E & Hs & Hg).
    exists w'. split; [exact E|]. split; [exact Hs|].
    rewrite Hg. simpl. now rewrite <- app_assoc.
Qed.

Lemma traceStage_calls (this : CaptchaGenerator) (cs : list Coordinate) (w : World) :
  positive (to_opacity (trace this)) = false \/ cs <> [] ->
  exists w', traceStage this cs w = (Ok tt, w') /\
             store w' = store w /\
             surface w' = surface w ++ traceCalls this cs.
Proof.
  intros H. unfold traceStage, traceCalls.
  destruct (positive (to_opacity (trace this))).
  - destruct H as [H|H]; [discriminate|].
    destruct cs as [|c0 rest]; [contradiction|].
    repeat run_emit.
    match goal with |- context [bind (readCoordinate ?l 0) ?k ?w1] =>
      rewrite (bind_ok (readCoordinate l 0) k w1 c0 w1
                 (readCoordinate_at l 0 c0 w1 eq_refl)); cbv beta end.
    repeat run_emit.
    simpl List.length.
    replace (S (List.length rest) - 1)%nat with (List.length rest) by lia.
    match goal with |- context [bind (forLoop _ 1 _ tt) ?k ?w1] =>
      destruct (traceLoop_run (c0 :: rest) rest 1 w1 eq_refl)
        as (w' & E & Hs & Hg);
      change (Z.of_nat 1) with 1 in E;
      rewrite (bind_ok _ k w1 tt w' E) end.
    eexists. split; [reflexivity|]. split; [exact Hs|].
    simpl. rewrite Hg. simpl. rewrite <- !app_assoc. reflexivity.
  - exists w. split; [reflexivity|]. split; [reflexivity|].
    now rewrite app_nil_r.
Qed.

Lemma textLoop_run (this : CaptchaGenerator) (cs : list Coordinate) (rest : list Coordinate) :
  forall (i : nat) (w : World),
    skipn i cs = rest ->
    exists w', forLoop (List.length rest) (Z.of_nat i) (textStep this cs) tt w
               = (Ok tt, w') /\
               store w' = store w /\
               surface w' = surface w ++ textGlyphs (text this w) i rest.
Proof.
  induction rest as [|c rest IH]; intros i w H; simpl.
  - exists w. split; [reflexivity|]. split; [reflexivity|].
    now rewrite app_nil_r.
  - destruct (skipn_step cs i c rest H) as (Hc & Hrest).
    set (call := (StText, PrintText (String.get i (text this w)) (fst c)
                            (inject_Z (snd c)))).
    unfold textStep at 1.
    rewrite (bind_ok _ _ w tt (withSurface w (surface w ++ [call]))).
    2:{ rewrite (bind_ok _ _ w (store w (captcha this)) w) by reflexivity.
        rewrite (bind_ok _ _ w c w) by now apply readCoordinate_at.
        unfold emit, call, text. now rewrite Nat2Z.id. }
    replace (Z.of_nat i + 1) with (Z.of_nat (S i)) by lia.
    destruct (IH (S i) (withSurface w (surface w ++ [call])) Hrest)
      as (w' & E & Hs & Hg).
    exists w'. split; [exact E|]. split; [exact Hs|].
    rewrite Hg. simpl. now rewrite <- app_assoc.
Qed.

Lemma textStage_calls (this : CaptchaGenerator) (cs : list Coordinate) (w : World) :
  exists w', textStage this cs w = (Ok tt, w') /\
             store w' = store w /\
             surface w' = surface w ++ textCalls (store w (captcha this)) cs.
Proof.
  unfold textStage, textCalls.
  rewrite (bind_ok _ _ w (store w (captcha this)) w) by reflexivity.
  destruct (positive (co_opacity (store w (captcha this)))).
  - repeat run_emit.
    match goal with |- context [forLoop _ 0 _ tt ?w1] =>
      destruct (textLoop_run this cs cs 0 w1 eq_refl)
        as (w' & E & Hs & Hg) end.
    exists w'. split; [exact E|]. split; [exact Hs|].
    rewrite Hg. simpl. rewrite <- !app_assoc. reflexivity.
  - exists w. split; [reflexivity|]. split; [reflexivity|].
    now rewrite app_nil_r.
Qed.

Lemma decoyStage_calls (this : CaptchaGenerator) (w : World) :
  decoyPasses this ->
  exists w' glyphs,
    decoyStage this w = (Ok tt, w') /\
    store w' = store w /\
    surface w' = surface w ++
      (if positive (do_opacity (decoy this))
       then decoyHeader this ++ glyphs else []) /\
    Forall (fun c => isDecoyGlyph c = true) glyphs /\
    (positive (do_opacity (decoy this)) = true ->
     Z.of_nat (List.length glyphs) = 2 * ((height this * width this) / 10000)).
Proof.
  intros Hd. destruct (positive (do_opacity (decoy this))) eqn:E.
  - destruct Hd as [Hd|Hd]; [congruence|].
    destruct (proj1 (decoyStage_run this w E) Hd)
      as (w' & glyphs & E' & Hs & Hg & Hall & Hlen).
    exists w', glyphs. split; [exact E'|]. split; [exact Hs|].
    split; [exact Hg|]. split; [exact Hall|]. intros _. exact Hlen.
  - exists w, []. unfold decoyStage. rewrite E.
    split; [reflexivity|]. split; [reflexivity|].
    split; [now rewrite app_nil_r|]. split; [constructor | discriminate].
Qed.

Lemma layoutOf_length (this : CaptchaGenerator) (w : World) :
  List.length (layoutOf this w) = Z.to_nat (characters this w).
Proof. unfold layoutOf. now rewrite sortByX_length, coordinatesFrom_length. Qed.

(** The calls of a run in which no block stops [generate]: the value
    returned lists the set-up, then the blit, then the decoy block, then
    the trace block, then the text block, then [toBuffer]. *)
Lemma generate_calls (this : CaptchaGenerator) (w : World) :
  backgroundResolves this w -> decoyPasses this -> tracePasses this w ->
  exists glyphs,
    fst (generate this w) =
      Ok (setupCalls this
          ++ backgroundCalls this w
          ++ (if positive (do_opacity (decoy this))
              then decoyHeader this ++ glyphs else [])
          ++ traceCalls this (layoutOf this w)
          ++ textCalls (store w (captcha this)) (layoutOf this w)
          ++ [(StOutput, ToBuffer)]) /\
    Forall (fun c => isDecoyGlyph c = true) glyphs /\
    (positive (do_opacity (decoy this)) = true ->
     Z.of_nat (List.length glyphs) = 2 * ((height this * width this) / 10000)).
Proof.
  intros Hbg Hdec Htr.
  rewrite generate_draw. unfold draw. repeat run_emit.
  match goal with |- context [bind (layout this) ?k ?w1] =>
    rewrite (bind_ok _ k w1 _ _ (layout_run this w1)); cbv beta end.
  change (sortByX _) with (layoutOf this w).
  match goal with |- context [bind (backgroundStage this) ?k ?w1] =>
    destruct (backgroundStage_calls this w1 Hbg) as (w2 & E2 & S2 & G2);
    rewrite (bind_ok _ k w1 tt w2 E2); cbv beta end.
  destruct (decoyStage_calls this w2 Hdec)
    as (w3 & glyphs & E3 & S3 & G3 & Hall & Hlen).
  rewrite (bind_ok _ _ w2 tt w3 E3).
  assert (Hcs : positive (to_opacity (trace this)) = false \/ layoutOf this w <> []).
  { destruct Htr as [H|H]; [now left | right].
    intros E. pose proof (layoutOf_length this w) as L.
    rewrite E in L. simpl in L. lia. }
  destruct (traceStage_calls this (layoutOf this w) w3 Hcs) as (w4 & E4 & S4 & G4).
  rewrite (bind_ok _ _ w3 tt w4 E4).
  destruct (textStage_calls this (layoutOf this w) w4) as (w5 & E5 & S5 & G5).
  rewrite (bind_ok _ _ w4 tt w5 E5).
  run_emit.
  exists glyphs. split; [|split; assumption].
  simpl fst. f_equal. simpl surface.
  rewrite G5, G4, G3, G2, S4, S3, S2. simpl.
  rewrite <- !app_assoc. reflexivity.
Qed.

(** C7: in every call of [generate], also one that throws, the calls on
    the surface come in the order of the blocks: canvas set-up, background
    blit, decoy glyphs, trace stroke, challenge text, [toBuffer], and each
    kind of call comes from its block: [printImage] from the background
    block, the path and stroke calls from the trace block, [printText]
    from the decoy or the text block.  No option has a part in that
    order.  When no block stops the run, the value returned is the list:
    set-up calls, blit if a background is set, calls of the decoy block if
    its opacity is positive, calls of the trace block if its opacity is
    positive, calls of the text block if its opacity is positive,
    [toBuffer]. *)
Theorem generate_block_order (this : CaptchaGenerator) (w : World) :
  stageOrdered (surface (snd (generate this w))) /\
  Forall fromBlock (surface (snd (generate this w))) /\
  (backgroundResolves this w -> decoyPasses this -> tracePasses this w ->
   exists glyphs,
     fst (generate this w) =
       Ok (setupCalls this
           ++ backgroundCalls this w
           ++ (if positive (do_opacity (decoy this))
               then decoyHeader this ++ glyphs else [])
           ++ traceCalls this (layoutOf this w)
           ++ textCalls (store w (captcha this)) (layoutOf this w)
           ++ [(StOutput, ToBuffer)]) /\
     Forall (fun c => isDecoyGlyph c = true) glyphs).
Proof.
  split; [|split].
  - rewrite generate_draw.
    destruct (draw_between (store w) this
                (withSurface w [(StSetup, NewCanvas (width this) (height this))])
                eq_refl) as (_ & l & E & Hs & Hf).
    rewrite E. simpl. constructor; [exact Hs|].
    eapply Forall_impl; [|exact Hf]. simpl. intros c _. lia.
  - apply (generate_issues (store w)); try reflexivity.
    + now intros c [_ F].
    + eapply issues_impl; [|apply backgroundStage_issues]. now intros c [_ F].
    + eapply issues_impl; [|apply decoyStage_issues]. now intros c [_ F].
    + intros cs. eapply issues_impl; [|apply traceStage_issues]. now intros c [_ F].
    + intros cs. eapply issues_impl; [|apply textStage_issues]. now intros c [_ F].
  - intros Hbg Hdec Htr.
    destruct (generate_calls this w Hbg Hdec Htr) as (glyphs & E & Hall & _).
    exists glyphs. now split.
Qed.

Lemma generate_block_order_witness :
  exists glyphs,
    fst (generate sampleGenerator sampleState) =
      Ok (setupCalls sampleGenerator
          ++ backgroundCalls sampleGenerator sampleState
          ++ (if positive (do_opacity (decoy sampleGenerator))
              then decoyHeader sampleGenerator ++ glyphs else [])
          ++ traceCalls sampleGenerator (layoutOf sampleGenerator sampleState)
          ++ textCalls (store sampleState (captcha sampleGenerator))
                       (layoutOf sampleGenerator sampleState)
          ++ [(StOutput, ToBuffer)]) /\
    Forall (fun c => isDecoyGlyph c = true) glyphs.
Proof.
  apply (generate_block_order sampleGenerator sampleState).
  - left. reflexivity.
  - right. vm_compute. split; discriminate.
  - right. unfold characters. simpl. lia.
Defined.

(** * Further properties *)

(** ** The constructor (lines 26-55) *)

(** X1: on [null] the constructor throws a [TypeError] and has no effect;
    without an argument it does what it does on the empty option object;
    on an option object it does not throw.  A height or width that is
    absent or zero becomes 100, respectively 300; any other value is kept.
    No background is set, the trace and decoy groups are the module
    defaults, and the construction takes 32 bytes of the random source,
    draws nothing from [Math.random] and issues no call on a surface. *)
Theorem constructor_defaults (options : ConstructorOptions) (w : World) :
  constructor Null w = (Throw TypeError, w) /\
  constructor Undefined w = constructor (mkConstructorOptions None None) w /\
  exists this,
    fst (constructor options w) = Ok this /\
    (forall h, opt_height options = Some h -> h <> 0 -> height this = h) /\
    (opt_height options = None \/ opt_height options = Some 0 ->
     height this = 100) /\
    (forall v, opt_width options = Some v -> v <> 0 -> width this = v) /\
    (opt_width options = None \/ opt_width options = Some 0 ->
     width this = 300) /\
    background this = None /\
    trace this = defaultTraceOptions w /\
    decoy this = defaultDecoyOptions w /\
    cryptoPos (snd (constructor options w)) = (cryptoPos w + 32)%nat /\
    mathPos (snd (constructor options w)) = mathPos w /\
    surface (snd (constructor options w)) = surface w.
Proof.
  split; [reflexivity|]. split; [reflexivity|].
  eexists. split; [reflexivity|]. simpl.
  split; [|split; [|split; [|split]]].
  - intros h E Hh. rewrite E. simpl. apply Z.eqb_neq in Hh. now rewrite Hh.
  - intros [E|E]; now rewrite E.
  - intros v E Hv. rewrite E. simpl. apply Z.eqb_neq in Hv. now rewrite Hv.
  - intros [E|E]; now rewrite E.
  - repeat split.
Qed.

(** X2: when the character count of the default group is not negative and
    the hexadecimal encoding of the 32 random bytes has at least that many
    letters, the text of the new generator has exactly that many
    characters: the first ones of those letters. *)
Theorem constructor_text_length_exact (options : ConstructorOptions) (w : World) :
  let bytes := map (cryptoSource w) (seq (cryptoPos w) 32) in
  let n := co_characters (store w (defaultCaptchaOptions w)) in
  0 <= n <= Z.of_nat (List.length (lettersOf bytes)) ->
  exists this,
    fst (constructor options w) = Ok this /\
    Z.of_nat (String.length (text this (snd (constructor options w)))) = n /\
    list_ascii_of_string (text this (snd (constructor options w))) =
      firstn (Z.to_nat n) (lettersOf bytes).
Proof.
  intros bytes n Hn.
  destruct (constructor_run options w) as (E1 & E2 & E3).
  eexists. split; [exact E1|]. rewrite E2. fold bytes n. split.
  - rewrite challengeText_length. fold bytes. unfold lettersOf in Hn. lia.
  - unfold challengeText. now rewrite list_ascii_of_string_of_list_ascii.
Qed.

Lemma constructor_text_length_exact_witness :
  exists this,
    fst (constructor noOptions (sampleWorld sampleFloats twoDraws)) = Ok this /\
    Z.of_nat (String.length
      (text this (snd (constructor noOptions (sampleWorld sampleFloats twoDraws)))))
    = 6 /\
    list_ascii_of_string
      (text this (snd (constructor noOptions (sampleWorld sampleFloats twoDraws))))
    = firstn (Z.to_nat 6)
        (lettersOf (map twoDraws (seq 0 32))).
Proof.
  apply (constructor_text_length_exact noOptions (sampleWorld sampleFloats twoDraws)).
  vm_compute. split; discriminate.
Defined.

(** X3: the only write of the constructor is the [text] of the default
    captcha object: its other fields, and every other object of the store,
    are as before, and no object is allocated. *)
Theorem constructor_writes_only_default_text (options : ConstructorOptions) (w : World) :
  let w' := snd (constructor options w) in
  let d := defaultCaptchaOptions w in
  co_characters (store w' d) = co_characters (store w d) /\
  co_font (store w' d) = co_font (store w d) /\
  co_size (store w' d) = co_size (store w d) /\
  co_color (store w' d) = co_color (store w d) /\
  co_opacity (store w' d) = co_opacity (store w d) /\
  (forall r, r <> d -> store w' r = store w r) /\
  nextRef w' = nextRef w /\
  defaultCaptchaOptions w' = d.
Proof.
  simpl. rewrite Nat.eqb_refl. simpl. repeat split.
  intros r Hr. apply Nat.eqb_neq in Hr. now rewrite Hr.
Qed.

(** ** The setters (lines 73-112) *)

(** X4: in a world where the default captcha object was allocated before
    the next free reference, [setCaptcha] gives the generator an object of
    its own and leaves the default object as it is; a generator constructed
    afterwards no longer changes this generator's text or character
    count. *)
Theorem setCaptcha_isolates (this : CaptchaGenerator) (options : SetCaptchaOptions)
    (later : ConstructorOptions) (w : World) :
  (defaultCaptchaOptions w < nextRef w)%nat ->
  exists this',
    fst (setCaptcha this options w) = Ok this' /\
    let w1 := snd (setCaptcha this options w) in
    captcha this' <> defaultCaptchaOptions w1 /\
    store w1 (defaultCaptchaOptions w1) = store w (defaultCaptchaOptions w) /\
    text this' (snd (constructor later w1)) = text this' w1 /\
    characters this' (snd (constructor later w1)) = characters this' w1.
Proof.
  intros Hd.
  destruct (setCaptcha_run this options w) as (E1 & E2 & E3).
  eexists. split; [exact E1|]. cbv zeta.
  assert (Ed : defaultCaptchaOptions (snd (setCaptcha this options w))
               = defaultCaptchaOptions w).
  { unfold setCaptcha, bind, readObj, allocObj, writeObj, ret.
    now destruct (truthy (sc_text options)). }
  assert (Hne : nextRef w <> defaultCaptchaOptions (snd (setCaptcha this options w))).
  { rewrite Ed. lia. }
  split; [exact Hne|]. split.
  - rewrite Ed. apply E3. lia.
  - unfold text, characters.
    rewrite (constructor_frame_own later
               (mkCaptchaGenerator (height this) (width this) (background this)
                  (nextRef w) (trace this) (decoy this))
               (snd (setCaptcha this options w)) Hne).
    now split.
Qed.

Lemma setCaptcha_isolates_witness :
  exists this',
    fst (setCaptcha sampleGenerator helloOverride sampleState) = Ok this' /\
    let w1 := snd (setCaptcha sampleGenerator helloOverride sampleState) in
    captcha this' <> defaultCaptchaOptions w1 /\
    store w1 (defaultCaptchaOptions w1) =
      store sampleState (defaultCaptchaOptions sampleState) /\
    text this' (snd (constructor noOptions w1)) = text this' w1 /\
    characters this' (snd (constructor noOptions w1)) = characters this' w1.
Proof.
  apply (setCaptcha_isolates sampleGenerator helloOverride noOptions sampleState).
  simpl. lia.
Defined.

(** X5: [setCaptcha] with the same override twice stores the same option
    group as once, and with the empty override [{}] it stores a copy of the
    current group: no field changes. *)
Theorem setCaptcha_idempotent (this : CaptchaGenerator) (options : SetCaptchaOptions) (w : World) :
  (exists g1 g2,
     fst (setCaptcha this options w) = Ok g1 /\
     fst (setCaptcha g1 options (snd (setCaptcha this options w))) = Ok g2 /\
     store (snd (setCaptcha g1 options (snd (setCaptcha this options w))))
           (captcha g2)
     = store (snd (setCaptcha this options w)) (captcha g1)) /\
  (exists g1,
     fst (setCaptcha this noCaptchaOverride w) = Ok g1 /\
     store (snd (setCaptcha this noCaptchaOverride w)) (captcha g1)
     = store w (captcha this)).
Proof.
  split.
  - destruct (setCaptcha_run this options w) as (E1 & E2 & _).
    eexists. eexists. split; [exact E1|].
    match goal with |- fst (setCaptcha ?g1 _ ?w1) = _ /\ _ =>
      destruct (setCaptcha_run g1 options w1) as (F1 & F2 & _) end.
    split; [exact F1|]. simpl captcha in *. rewrite F2, E2.
    destruct options as [t c f sz col op]. unfold mergeCaptcha, setCharacters.
    destruct t as [[|a t]|], c, f, sz, col, op; reflexivity.
  - destruct (setCaptcha_run this noCaptchaOverride w) as (E1 & E2 & _).
    eexists. split; [exact E1|]. simpl captcha. rewrite E2. simpl.
    unfold mergeCaptcha. simpl. now destruct (store w (captcha this)).
Qed.

(** X6: setters of different option groups commute: the generator and the
    world after [setTrace] then [setDecoy] are those after [setDecoy] then
    [setTrace], and likewise for [setDimension] and [setBackground] against
    each other and against [setCaptcha]. *)
Theorem setters_commute (this : CaptchaGenerator) (w : World)
    (t : SetTraceOptions) (d : SetDecoyOptions) (c : SetCaptchaOptions)
    (h v : Z) (image : string) :
  (g <- setTrace this t ;; setDecoy g d) w =
  (g <- setDecoy this d ;; setTrace g t) w /\
  (g <- setDimension this h v ;; setBackground g image) w =
  (g <- setBackground this image ;; setDimension g h v) w /\
  (g <- setCaptcha this c ;; setTrace g t) w =
  (g <- setTrace this t ;; setCaptcha g c) w /\
  (g <- setCaptcha this c ;; setDimension g h v) w =
  (g <- setDimension this h v ;; setCaptcha g c) w /\
  (g <- setCaptcha this c ;; setDecoy g d) w =
  (g <- setDecoy this d ;; setCaptcha g c) w /\
  (g <- setCaptcha this c ;; setBackground g image) w =
  (g <- setBackground this image ;; setCaptcha g c) w.
Proof.
  unfold setTrace, setDecoy, setDimension, setBackground, setCaptcha, bind,
    ret, readObj, allocObj, writeObj.
  destruct (truthy (sc_text c)); simpl; repeat split.
Qed.

(** ** [getRandom] below its margin (lines 12-14) *)

Lemma randomIn_degenerate (n : Z) (r : Q) :
  n <= 60 -> Double.isDouble r -> (0 <= r)%Q -> (r < 1)%Q ->
  n - 30 <= randomIn n r <= 30.
Proof.
  intros Hn D H0 H1. unfold randomIn.
  destruct (Z.eq_dec n 60) as [->|Hne].
  - change (inject_Z (60 - 60)) with 0%Q.
    rewrite (Qfloor_comp _ _ (DoubleFacts.mul_zero_r r)).
    change (Qfloor 0) with 0. lia.
  - destruct (DoubleFacts.mul_below_neg r (n - 60) D H0 H1) as (Hlo & Hhi);
      [lia|].
    assert (Hi : Qfloor (Double.mul r (inject_Z (n - 60))) <= 0).
    { rewrite <- (Qfloor_Z 0). now apply Qfloor_resp_le. }
    assert (Lo : n - 60 <= Qfloor (Double.mul r (inject_Z (n - 60)))).
    { rewrite <- (Qfloor_Z (n - 60)) at 1.
      apply Qfloor_resp_le. now apply Qlt_le_weak. }
    lia.
Qed.

(** X7: for an argument [n <= 60], and values of [Math.random] that are
    doubles in [0, 1), [getRandom(n)] lies between [n - 30] and 30, both
    included: the range is the inverted one, and for [n = 60] the value is
    always 30. *)
Theorem getRandom_below_margin (n : Z) (w : World) :
  n <= 60 ->
  unitInterval (mathRandom w) ->
  exists y, fst (getRandom n w) = Ok y /\ n - 30 <= y <= 30.
Proof.
  intros Hn Hr. eexists. rewrite getRandom_run. split; [reflexivity|].
  destruct (Hr (mathPos w)) as (D & H0 & H1).
  now apply randomIn_degenerate.
Qed.

Lemma getRandom_below_margin_witness :
  (exists y, fst (getRandom 40 (withMathPos sampleState 1)) = Ok y /\
             40 - 30 <= y <= 30) /\
  (exists y, fst (getRandom 60 (withMathPos sampleState 1)) = Ok y /\
             60 - 30 <= y <= 30).
Proof.
  split.
  - apply (getRandom_below_margin 40 (withMathPos sampleState 1)).
    + lia.
    + exact sampleFloats_unitInterval.
  - apply (getRandom_below_margin 60 (withMathPos sampleState 1)).
    + lia.
    + exact sampleFloats_unitInterval.
Defined.

(** ** The x-coordinates of the layout (lines 124-133) *)

Lemma coordinatesFrom_slots W H n rand k :
  forall p i,
    Forall (fun c : Coordinate =>
              exists j, i <= j < i + Z.of_nat k /\ fst c = slotX W n j)
           (coordinatesFrom W H n rand p i k).
Proof.
  induction k as [|k IH]; intros p i; simpl coordinatesFrom; constructor.
  - exists i. split; [lia | reflexivity].
  - eapply Forall_impl; [|apply IH].
    intros c (j & Hj & E). exists j. split; [lia | exact E].
Qed.

(** Bounds of a slot by exact quarters of integers, where these are
    doubles. *)
Lemma slotX_lower (W n j : Z) :
  0 <= W / n -> 0 <= j <= 2 ^ 53 -> W / n * j <= 2 ^ 53 ->
  (inject_Z (W / n * j) <= slotX W n j)%Q.
Proof.
  intros Hg Hj Hb.
  assert (Hp : 0 <= W / n * j) by (apply Z.mul_nonneg_nonneg; lia).
  rewrite <- (DoubleFacts.round_integer (W / n * j)) at 1 by lia.
  unfold slotX, Double.mul. apply DoubleFacts.round_mono.
  rewrite inject_Z_mult, !(Qmult_comm (inject_Z (W / n))).
  apply Qmult_le_compat_r; [apply add_fifth_lower; lia | now apply inject_Z_nonneg].
Qed.

Lemma slotX_upper (W n j : Z) :
  0 <= W / n -> 0 <= j -> 4 * j + 1 <= 2 ^ 53 ->
  W / n * (4 * j + 1) <= 2 ^ 53 ->
  (slotX W n j <= inject_Z (W / n * (4 * j + 1)) * (1 # 4))%Q.
Proof.
  intros Hg Hj Hb1 Hb2.
  assert (Hp : 0 <= W / n * (4 * j + 1)) by (apply Z.mul_nonneg_nonneg; lia).
  rewrite <- (DoubleFacts.round_quarter (W / n * (4 * j + 1))) by lia.
  unfold slotX, Double.mul. apply DoubleFacts.round_mono.
  rewrite inject_Z_mult, <- Qmult_assoc, !(Qmult_comm (inject_Z (W / n))).
  apply Qmult_le_compat_r; [now apply add_fifth_upper | now apply inject_Z_nonneg].
Qed.

Lemma quarter_lt (a b : Z) : a < 4 * b -> (inject_Z a * (1 # 4) < inject_Z b)%Q.
Proof. intros H. unfold Qlt. simpl. lia. Qed.

Lemma slotX_within (W n j : Z) :
  1 <= n -> 1 <= W <= 2 ^ 51 -> 0 <= j < n ->
  (0 <= slotX W n j)%Q /\ (slotX W n j < inject_Z W)%Q.
Proof.
  intros Hn HW Hj.
  assert (Hg : 0 <= W / n) by (apply Z.div_pos; lia).
  assert (Hm : n * (W / n) <= W) by (apply Z.mul_div_le; lia).
  split.
  - unfold slotX, Double.mul. apply DoubleFacts.round_nonneg.
    apply Qmult_le_0_compat; [now apply inject_Z_nonneg|].
    apply add_fifth_nonneg. lia.
  - destruct (Z.eq_dec (W / n) 0) as [E|E].
    + unfold slotX. rewrite E.
      change (inject_Z 0) with 0%Q. rewrite DoubleFacts.mul_zero_l.
      change 0%Q with (inject_Z 0). rewrite <- Zlt_Qlt. lia.
    + change (2 ^ 51) with 2251799813685248 in HW.
      assert (Hb : W / n * (4 * j + 1) + 1 <= 4 * W) by nia.
      eapply Qle_lt_trans.
      * apply slotX_upper; [lia | lia | |];
          change (2 ^ 53) with 9007199254740992; nia.
      * apply quarter_lt. lia.
Qed.

Lemma layout_layoutOf (this : CaptchaGenerator) (w : World) :
  exists coordinates,
    fst (layout this w) = Ok coordinates /\
    sortByX coordinates = layoutOf this w.
Proof. eexists. rewrite layout_run. split; reflexivity. Qed.

(** X8: for a character count [n >= 1] and a width [W] from 1 to [2^51],
    every x-coordinate of the layout, as the code rounds it, and so of
    every challenge glyph and of every point of the trace, is at least 0
    and less than [W]. *)
Theorem layout_x_within_canvas (this : CaptchaGenerator) (w : World) :
  1 <= characters this w ->
  1 <= width this <= 2 ^ 51 ->
  exists coordinates,
    fst (layout this w) = Ok coordinates /\
    Forall (fun c : Coordinate =>
              (0 <= fst c)%Q /\ (fst c < inject_Z (width this))%Q)
           (sortByX coordinates).
Proof.
  intros Hn HW. destruct (layout_layoutOf this w) as (cs & Ecs & L).
  exists cs. split; [exact Ecs|]. rewrite L.
  unfold layoutOf. apply sortByX_Forall.
  eapply Forall_impl; [|apply coordinatesFrom_slots].
  intros c (j & Hj & E). rewrite E. apply slotX_within; lia.
Qed.

Lemma layout_x_within_canvas_witness :
  exists coordinates,
    fst (layout sampleGenerator sampleState) = Ok coordinates /\
    Forall (fun c : Coordinate =>
              (0 <= fst c)%Q /\ (fst c < inject_Z (width sampleGenerator))%Q)
           (sortByX coordinates).
Proof.
  apply (layout_x_within_canvas sampleGenerator sampleState).
  - unfold characters. simpl. lia.
  - simpl. lia.
Defined.

(** Slot [i] ends before slot [j > i] starts: the rounded value of slot
    [i] is at most [g * (i + 1/4)], that of slot [j] at least [g * j]. *)
Lemma slotX_strict (W n i j : Z) :
  1 <= W / n -> 0 <= i < j -> W / n * (4 * j) <= 2 ^ 53 ->
  (slotX W n i < slotX W n j)%Q.
Proof.
  intros Hg Hij Hb. change (2 ^ 53) with 9007199254740992 in Hb.
  eapply Qle_lt_trans;
    [apply slotX_upper; [lia | lia | |];
       change (2 ^ 53) with 9007199254740992; nia|].
  eapply Qlt_le_trans;
    [|apply slotX_lower; [lia | |];
        change (2 ^ 53) with 9007199254740992; nia].
  apply quarter_lt. nia.
Qed.

Lemma coordinatesFrom_above W H n rand k :
  1 <= W / n ->
  forall p i i0, 0 <= i0 < i ->
    W / n * (4 * (i + Z.of_nat k)) <= 2 ^ 53 ->
    Forall (fun c : Coordinate => (slotX W n i0 < fst c)%Q)
           (coordinatesFrom W H n rand p i k).
Proof.
  intros Hg p i i0 Hi Hb.
  eapply Forall_impl; [|apply coordinatesFrom_slots].
  intros c (j & Hj & E). rewrite E. apply slotX_strict; [exact Hg | lia|].
  eapply Z.le_trans; [|exact Hb]. apply Z.mul_le_mono_nonneg_l; lia.
Qed.

Lemma coordinatesFrom_strict W H n rand k :
  1 <= W / n ->
  forall p i, 0 <= i ->
    W / n * (4 * (i + Z.of_nat k)) <= 2 ^ 53 ->
    StronglySorted (fun a b : Coordinate => (fst a < fst b)%Q)
                   (coordinatesFrom W H n rand p i k).
Proof.
  intros Hg. induction k as [|k IH]; intros p i Hi Hb; simpl; constructor.
  - apply IH; [lia|]. eapply Z.le_trans; [|exact Hb].
    apply Z.mul_le_mono_nonneg_l; lia.
  - apply (coordinatesFrom_above W H n rand k Hg (S p) (i + 1) i); [lia|].
    eapply Z.le_trans; [|exact Hb]. apply Z.mul_le_mono_nonneg_l; lia.
Qed.

(** X9: for a width up to [2^51] that is at least the character count
    [n >= 1], the slot width is at least 1, the x-coordinates of the
    layout, as the code rounds them, are strictly increasing and the sort
    leaves the list as the loop built it: no two challenge glyphs share an
    x-coordinate. *)
Theorem layout_x_strictly_increasing (this : CaptchaGenerator) (w : World) :
  1 <= characters this w <= width this ->
  width this <= 2 ^ 51 ->
  exists coordinates,
    fst (layout this w) = Ok coordinates /\
    StronglySorted (fun a b : Coordinate => (fst a < fst b)%Q)
                   (sortByX coordinates) /\
    sortByX coordinates = coordinates.
Proof.
  intros Hn HW. eexists. rewrite layout_run. split; [reflexivity|].
  change (sortByX _) with (layoutOf this w).
  assert (Hg : 1 <= width this / characters this w).
  { apply Z.div_le_lower_bound; lia. }
  assert (Hm : characters this w * (width this / characters this w)
               <= width this) by (apply Z.mul_div_le; lia).
  assert (E : layoutOf this w =
    coordinatesFrom (width this) (height this) (characters this w)
      (mathRandom w) (mathPos w) 0 (Z.to_nat (characters this w))).
  { unfold layoutOf. apply sortByX_id, coordinatesFrom_sorted. lia. }
  split; [|exact E]. rewrite E.
  apply coordinatesFrom_strict; [exact Hg | lia|].
  rewrite Z.add_0_l, Z2Nat.id by lia.
  change (2 ^ 51) with 2251799813685248 in HW.
  change (2 ^ 53) with 9007199254740992. nia.
Qed.

Lemma layout_x_strictly_increasing_witness :
  exists coordinates,
    fst (layout sampleGenerator sampleState) = Ok coordinates /\
    StronglySorted (fun a b : Coordinate => (fst a < fst b)%Q)
                   (sortByX coordinates) /\
    sortByX coordinates = coordinates.
Proof.
  apply (layout_x_strictly_increasing sampleGenerator sampleState).
  - unfold characters. simpl. lia.
  - simpl. lia.
Defined.

(** X10: for a width that is not negative and is less than the character
    count, the slot width [floor(W / n)] is 0 and every x-coordinate of the
    layout is 0: all challenge glyphs are drawn in one column. *)
Theorem layout_x_collapses (this : CaptchaGenerator) (w : World) :
  0 <= width this < characters this w ->
  exists coordinates,
    fst (layout this w) = Ok coordinates /\
    List.length (sortByX coordinates) = Z.to_nat (characters this w) /\
    Forall (fun c : Coordinate => (fst c == 0)%Q) (sortByX coordinates).
Proof.
  intros HW. destruct (layout_layoutOf this w) as (cs & Ecs & L).
  exists cs. split; [exact Ecs|]. rewrite L.
  split; [apply layoutOf_length|].
  unfold layoutOf. apply sortByX_Forall.
  eapply Forall_impl; [|apply coordinatesFrom_slots].
  intros c (j & _ & E). rewrite E. unfold slotX.
  rewrite Z.div_small by lia. apply DoubleFacts.mul_zero_l.
Qed.

Lemma layout_x_collapses_witness :
  exists coordinates,
    fst (layout narrowGenerator sampleState) = Ok coordinates /\
    List.length (sortByX coordinates) =
      Z.to_nat (characters narrowGenerator sampleState) /\
    Forall (fun c : Coordinate => (fst c == 0)%Q) (sortByX coordinates).
Proof.
  apply (layout_x_collapses narrowGenerator sampleState).
  unfold characters. simpl. lia.
Defined.

(** ** Runs of [generate] that throw (lines 118-171) *)

(** The world in which the blocks of [generate] start: the canvas is
    built and styled, the layout has drawn its random heights. *)
Lemma draw_start (this : CaptchaGenerator) (w : World)
    (k : list Coordinate -> M (list Call)) :
  exists w1,
    (emit StSetup (SetTextBaseline "middle") ;;
     emit StSetup (SetLineJoin "miter") ;;
     coordinates <- layout this ;;
     k coordinates)
      (withSurface w [(StSetup, NewCanvas (width this) (height this))])
    = k (coordinatesFrom (width this) (height this) (characters this w)
           (mathRandom w) (mathPos w) 0 (Z.to_nat (characters this w))) w1 /\
    surface w1 = setupCalls this /\
    store w1 = store w /\
    images w1 = images w /\
    cryptoPos w1 = cryptoPos w.
Proof.
  eexists. split.
  - repeat run_emit.
    match goal with |- context [bind (layout this) ?k' ?w1] =>
      rewrite (bind_ok _ k' w1 _ _ (layout_run this w1)); cbv beta end.
    reflexivity.
  - repeat split.
Qed.

Lemma backgroundStage_fails (this : CaptchaGenerator) (w : World) :
  truthy (background this) = true ->
  images w (pick (background this) EmptyString) = None ->
  backgroundStage this w = (Throw ImageError, w).
Proof.
  intros Ht Hi. unfold backgroundStage, bind, resolveImage.
  now rewrite Ht, Hi.
Qed.

Lemma draw_background_rejected (this : CaptchaGenerator) (w : World) :
  truthy (background this) = true ->
  images w (pick (background this) EmptyString) = None ->
  let w0 := withSurface w [(StSetup, NewCanvas (width this) (height this))] in
  fst (draw this w0) = Throw ImageError /\
  surface (snd (draw this w0)) = setupCalls this /\
  cryptoPos (snd (draw this w0)) = cryptoPos w.
Proof.
  intros Ht Hi w0. unfold w0, draw.
  destruct (draw_start this w
              (fun coordinates =>
                 backgroundStage this ;;
                 decoyStage this ;;
                 traceStage this (sortByX coordinates) ;;
                 textStage this (sortByX coordinates) ;;
                 emit StOutput ToBuffer ;;
                 w' <- getWorld ;;
                 ret (surface w')))
    as (w1 & E & Hs & _ & Him & Hc).
  rewrite E. cbv beta.
  rewrite (bind_throw _ _ w1 ImageError w1).
  - simpl. now repeat split.
  - apply backgroundStage_fails; [exact Ht | now rewrite Him].
Qed.

(** X11: when a background is set (a string that is not empty) and
    [resolveImage] rejects it, [generate] throws that rejection after the
    canvas set-up: the surface holds the three set-up calls and nothing is
    drawn; no random byte was taken. *)
Theorem generate_background_rejected (this : CaptchaGenerator) (w : World) :
  truthy (background this) = true ->
  images w (pick (background this) EmptyString) = None ->
  fst (generate this w) = Throw ImageError /\
  surface (snd (generate this w)) = setupCalls this /\
  cryptoPos (snd (generate this w)) = cryptoPos w.
Proof.
  intros Ht Hi. rewrite generate_draw.
  exact (draw_background_rejected this w Ht Hi).
Qed.

Lemma generate_background_rejected_witness :
  fst (generate brokenBackgroundGenerator sampleState) = Throw ImageError /\
  surface (snd (generate brokenBackgroundGenerator sampleState))
    = setupCalls brokenBackgroundGenerator /\
  cryptoPos (snd (generate brokenBackgroundGenerator sampleState))
    = cryptoPos sampleState.
Proof.
  apply (generate_background_rejected brokenBackgroundGenerator sampleState);
    reflexivity.
Defined.

Lemma backgroundResolves_start (this : CaptchaGenerator) (w w1 : World) :
  images w1 = images w -> backgroundResolves this w -> backgroundResolves this w1.
Proof. unfold backgroundResolves. intros E. now rewrite E. Qed.

Lemma backgroundCalls_start (this : CaptchaGenerator) (w w1 : World) :
  images w1 = images w -> backgroundCalls this w1 = backgroundCalls this w.
Proof. unfold backgroundCalls. intros E. now rewrite E. Qed.

Lemma draw_decoy_size_rejected (this : CaptchaGenerator) (w : World) :
  backgroundResolves this w ->
  positive (do_opacity (decoy this)) = true ->
  ~ 0 <= (height this * width this) / 10000 <= randomBytesMax ->
  let w0 := withSurface w [(StSetup, NewCanvas (width this) (height this))] in
  fst (draw this w0) = Throw RangeError /\
  surface (snd (draw this w0)) = setupCalls this ++ backgroundCalls this w.
Proof.
  intros Hbg Hpos Hn w0. unfold w0, draw.
  destruct (draw_start this w
              (fun coordinates =>
                 backgroundStage this ;;
                 decoyStage this ;;
                 traceStage this (sortByX coordinates) ;;
                 textStage this (sortByX coordinates) ;;
                 emit StOutput ToBuffer ;;
                 w' <- getWorld ;;
                 ret (surface w')))
    as (w1 & E & Hs & _ & Him & _).
  rewrite E. cbv beta.
  destruct (backgroundStage_calls this w1 (backgroundResolves_start this w w1 Him Hbg))
    as (w2 & E2 & _ & G2).
  rewrite (bind_ok _ _ w1 tt w2 E2).
  rewrite (bind_throw _ _ w2 RangeError w2
             (proj1 (proj2 (decoyStage_run this w2 Hpos)) Hn)).
  simpl. split; [reflexivity|].
  now rewrite G2, Hs, (backgroundCalls_start this w w1 Him).
Qed.

(** A size that [randomBytes] accepts and whose hexadecimal string is too
    long stops the run at the conversion, once the bytes are drawn. *)
Lemma draw_decoy_string_rejected (this : CaptchaGenerator) (w : World) :
  backgroundResolves this w ->
  positive (do_opacity (decoy this)) = true ->
  hexBytesMax < (height this * width this) / 10000 <= randomBytesMax ->
  let w0 := withSurface w [(StSetup, NewCanvas (width this) (height this))] in
  fst (draw this w0) = Throw StringTooLong /\
  surface (snd (draw this w0)) = setupCalls this ++ backgroundCalls this w.
Proof.
  intros Hbg Hpos Hn w0. unfold w0, draw.
  destruct (draw_start this w
              (fun coordinates =>
                 backgroundStage this ;;
                 decoyStage this ;;
                 traceStage this (sortByX coordinates) ;;
                 textStage this (sortByX coordinates) ;;
                 emit StOutput ToBuffer ;;
                 w' <- getWorld ;;
                 ret (surface w')))
    as (w1 & E & Hs & _ & Him & _).
  rewrite E. cbv beta.
  destruct (backgroundStage_calls this w1 (backgroundResolves_start this w w1 Him Hbg))
    as (w2 & E2 & _ & G2).
  rewrite (bind_ok _ _ w1 tt w2 E2).
  rewrite (bind_throw _ _ w2 StringTooLong _
             (proj2 (proj2 (decoyStage_run this w2 Hpos)) Hn)).
  simpl. split; [reflexivity|].
  now rewrite G2, Hs, (backgroundCalls_start this w w1 Him).
Qed.

(** The cases of the decoy block. *)
Lemma decoy_cases (this : CaptchaGenerator) :
  let n := (height this * width this) / 10000 in
  decoyPasses this \/
  (positive (do_opacity (decoy this)) = true /\
   ~ 0 <= n <= randomBytesMax) \/
  (positive (do_opacity (decoy this)) = true /\
   hexBytesMax < n <= randomBytesMax).
Proof.
  intros n. unfold decoyPasses. fold n.
  destruct (positive (do_opacity (decoy this))); [|now left; left].
  destruct (Z_le_dec 0 n) as [H0|H0]; [|right; left; split; [reflexivity | lia]].
  destruct (Z_le_dec n hexBytesMax) as [H1|H1]; [left; right; lia|].
  destruct (Z_le_dec n randomBytesMax) as [H2|H2].
  - right; right. split; [reflexivity | lia].
  - right; left. split; [reflexivity | lia].
Qed.

(** X12: when the decoy block is on and [floor(H * W / 10000)] is not a
    size that [randomBytes] accepts (a negative area, for one), [generate]
    throws a [RangeError] once the background is past: the surface holds
    the set-up calls and the blit, and no call of the decoy, trace or text
    block. *)
Theorem generate_decoy_size_rejected (this : CaptchaGenerator) (w : World) :
  backgroundResolves this w ->
  positive (do_opacity (decoy this)) = true ->
  ~ 0 <= (height this * width this) / 10000 <= randomBytesMax ->
  fst (generate this w) = Throw RangeError /\
  surface (snd (generate this w)) = setupCalls this ++ backgroundCalls this w.
Proof.
  intros Hbg Hpos Hn. rewrite generate_draw.
  exact (draw_decoy_size_rejected this w Hbg Hpos Hn).
Qed.

Lemma generate_decoy_size_rejected_witness :
  fst (generate negativeAreaGenerator sampleState) = Throw RangeError /\
  surface (snd (generate negativeAreaGenerator sampleState))
    = setupCalls negativeAreaGenerator
      ++ backgroundCalls negativeAreaGenerator sampleState.
Proof.
  apply (generate_decoy_size_rejected negativeAreaGenerator sampleState).
  - left. reflexivity.
  - reflexivity.
  - vm_compute. intros [H _]. now apply H.
Defined.

(** X21: when the decoy block is on and [floor(H * W / 10000)] is a size
    that [randomBytes] accepts but is more than 268435444, the hexadecimal
    string of the bytes would be longer than the longest string and
    [generate] throws at the conversion, once the background is past: the
    surface holds the set-up calls and the blit, and no call of the decoy,
    trace or text block. *)
Theorem generate_decoy_string_rejected (this : CaptchaGenerator) (w : World) :
  backgroundResolves this w ->
  positive (do_opacity (decoy this)) = true ->
  hexBytesMax < (height this * width this) / 10000 <= randomBytesMax ->
  fst (generate this w) = Throw StringTooLong /\
  surface (snd (generate this w)) = setupCalls this ++ backgroundCalls this w.
Proof.
  intros Hbg Hpos Hn. rewrite generate_draw.
  exact (draw_decoy_string_rejected this w Hbg Hpos Hn).
Qed.

Lemma generate_decoy_string_rejected_witness :
  fst (generate hugeAreaGenerator sampleState) = Throw StringTooLong /\
  surface (snd (generate hugeAreaGenerator sampleState))
    = setupCalls hugeAreaGenerator
      ++ backgroundCalls hugeAreaGenerator sampleState.
Proof.
  apply (generate_decoy_string_rejected hugeAreaGenerator sampleState).
  - left. reflexivity.
  - reflexivity.
  - vm_compute. split; [reflexivity | discriminate].
Defined.

(** With a character count that is zero or negative the layout is empty,
    and the trace block, when it is on, stops the run. *)
Lemma generate_no_first_coordinate (this : CaptchaGenerator) (w : World) :
  backgroundResolves this w -> decoyPasses this ->
  positive (to_opacity (trace this)) = true ->
  characters this w <= 0 ->
  fst (generate this w) = Throw TypeError.
Proof.
  intros Hbg Hdec Hpos Hn. rewrite generate_draw. unfold draw.
  destruct (draw_start this w
              (fun coordinates =>
                 backgroundStage this ;;
                 decoyStage this ;;
                 traceStage this (sortByX coordinates) ;;
                 textStage this (sortByX coordinates) ;;
                 emit StOutput ToBuffer ;;
                 w' <- getWorld ;;
                 ret (surface w')))
    as (w1 & E & _ & _ & Him & _).
  rewrite E. cbv beta.
  replace (Z.to_nat (characters this w)) with 0%nat by lia.
  simpl coordinatesFrom. simpl sortByX.
  destruct (backgroundStage_calls this w1 (backgroundResolves_start this w w1 Him Hbg))
    as (w2 & E2 & _).
  rewrite (bind_ok _ _ w1 tt w2 E2).
  destruct (decoyStage_ok this w2 Hdec) as (w3 & E3).
  rewrite (bind_ok _ _ w2 tt w3 E3).
  destruct (traceStage_empty this w3 Hpos) as (w4 & E4 & _).
  now rewrite (bind_throw _ _ w3 TypeError w4 E4).
Qed.

(** X13: [generate] returns only when no block stops it: the background,
    if one is set, resolves; the decoy block is off, or the size
    [floor(H * W / 10000)] that it asks of [randomBytes] is not negative
    and at most 268435444, so that its hexadecimal string can be built;
    the trace block is off or the character count is at least 1. *)
Theorem generate_returns_only_if (this : CaptchaGenerator) (w : World)
    (calls : list Call) :
  fst (generate this w) = Ok calls ->
  backgroundResolves this w /\ decoyPasses this /\ tracePasses this w.
Proof.
  intros E.
  assert (Hbg : backgroundResolves this w).
  { unfold backgroundResolves.
    destruct (truthy (background this)) eqn:Ht; [|now left].
    destruct (images w (pick (background this) EmptyString)) as [img|] eqn:Hi.
    - right. now exists img.
    - destruct (draw_background_rejected this w Ht Hi) as (F & _).
      rewrite generate_draw in E. congruence. }
  assert (Hdec : decoyPasses this).
  { destruct (decoy_cases this) as [H|[(Hp & H)|(Hp & H)]]; [exact H| |].
    - destruct (draw_decoy_size_rejected this w Hbg Hp H) as (F & _).
      rewrite generate_draw in E. congruence.
    - destruct (draw_decoy_string_rejected this w Hbg Hp H) as (F & _).
      rewrite generate_draw in E. congruence. }
  split; [exact Hbg|]. split; [exact Hdec|].
  unfold tracePasses.
  destruct (positive (to_opacity (trace this))) eqn:Hp; [|now left].
  destruct (Z_le_dec 1 (characters this w)) as [H1|H1]; [now right|].
  assert (F := generate_no_first_coordinate this w Hbg Hdec Hp).
  rewrite F in E by lia. discriminate E.
Qed.

Lemma generate_returns_only_if_witness :
  backgroundResolves sampleGenerator sampleState /\
  decoyPasses sampleGenerator /\
  tracePasses sampleGenerator sampleState.
Proof.
  apply (generate_returns_only_if sampleGenerator sampleState
           (surface (snd (generate sampleGenerator sampleState)))).
  vm_compute. reflexivity.
Defined.

(** X14: a background that is the empty string counts as no background:
    [generate] does not resolve it, so it never throws the rejection of
    [resolveImage], and no call comes from the background block. *)
Theorem generate_empty_background (this : CaptchaGenerator) (w : World) :
  background this = Some EmptyString ->
  fst (generate this w) <> Throw ImageError /\
  Forall (fun c => fst c <> StBackground) (surface (snd (generate this w))).
Proof.
  intros Hb.
  assert (Ht : truthy (background this) = false) by now rewrite Hb.
  assert (Hbg : backgroundResolves this w) by now left.
  split.
  - destruct (decoy_cases this) as [Hdec|[(Hp & H)|(Hp & H)]].
    + destruct (positive (to_opacity (trace this))) eqn:Hq.
      * destruct (Z_le_dec 1 (characters this w)) as [Hc|Hc].
        -- destruct (generate_calls this w Hbg Hdec (or_intror Hc))
             as (glyphs & E & _).
           rewrite E. discriminate.
        -- rewrite (generate_no_first_coordinate this w Hbg Hdec Hq) by lia.
           discriminate.
      * destruct (generate_calls this w Hbg Hdec (or_introl Hq))
          as (glyphs & E & _).
        rewrite E. discriminate.
    + destruct (draw_decoy_size_rejected this w Hbg Hp H) as (F & _).
      rewrite generate_draw, F. discriminate.
    + destruct (draw_decoy_string_rejected this w Hbg Hp H) as (F & _).
      rewrite generate_draw, F. discriminate.
  - apply (generate_issues (store w)); try reflexivity.
    + intros c [E _]. rewrite E. discriminate.
    + unfold backgroundStage. rewrite Ht. apply issues_silent, silent_ret.
    + eapply issues_impl; [|apply decoyStage_issues].
      intros c [E _]. rewrite E. discriminate.
    + intros cs. eapply issues_impl; [|apply traceStage_issues].
      intros c [E _]. rewrite E. discriminate.
    + intros cs. eapply issues_impl; [|apply textStage_issues].
      intros c [E _]. rewrite E. discriminate.
    + discriminate.
Qed.

Lemma generate_empty_background_witness :
  fst (generate (mkCaptchaGenerator 100 300 (Some EmptyString) 0%nat
                   sampleTrace sampleDecoy) sampleState)
    <> Throw ImageError /\
  Forall (fun c => fst c <> StBackground)
    (surface (snd (generate (mkCaptchaGenerator 100 300 (Some EmptyString) 0%nat
                               sampleTrace sampleDecoy) sampleState))).
Proof.
  apply (generate_empty_background
           (mkCaptchaGenerator 100 300 (Some EmptyString) 0%nat
              sampleTrace sampleDecoy) sampleState).
  reflexivity.
Defined.

(** ** What a run that returns draws (lines 151-169) *)

Lemma collect_app {A B} (f : A -> option B) (l1 l2 : list A) :
  collect f (l1 ++ l2) = collect f l1 ++ collect f l2.
Proof.
  induction l1 as [|a l1 IH]; simpl; [reflexivity|].
  destruct (f a); simpl; now rewrite IH.
Qed.

Lemma collect_none {A B} (f : A -> option B) (l : list A) :
  Forall (fun a => f a = None) l -> collect f l = [].
Proof.
  intros H. induction H as [|a l Ha _ IH]; simpl; [reflexivity|].
  now rewrite Ha.
Qed.

Lemma pathPoint_other (l : list Call) :
  Forall (fun c => fst c <> StTrace) l -> collect pathPoint l = [].
Proof.
  intros H. apply collect_none. eapply Forall_impl; [|exact H].
  intros [st op] Hc. simpl in Hc. destruct st; try contradiction; reflexivity.
Qed.

Lemma textPoint_other (l : list Call) :
  Forall (fun c => fst c <> StText) l -> collect textPoint l = [].
Proof.
  intros H. apply collect_none. eapply Forall_impl; [|exact H].
  intros [st op] Hc. simpl in Hc. destruct st; try contradiction; reflexivity.
Qed.

Lemma textGlyph_other (l : list Call) :
  Forall (fun c => fst c <> StText) l -> collect textGlyph l = [].
Proof.
  intros H. apply collect_none. eapply Forall_impl; [|exact H].
  intros [st op] Hc. simpl in Hc. destruct st; try contradiction; reflexivity.
Qed.

Lemma backgroundCalls_stage (this : CaptchaGenerator) (w : World) :
  Forall (fun c => fst c = StBackground) (backgroundCalls this w).
Proof.
  unfold backgroundCalls. destruct (truthy (background this)); [|constructor].
  destruct (images w (pick (background this) EmptyString));
    repeat constructor.
Qed.

Lemma traceCalls_stage (this : CaptchaGenerator) (cs : list Coordinate) :
  Forall (fun c => fst c = StTrace) (traceCalls this cs).
Proof.
  unfold traceCalls. destruct (positive (to_opacity (trace this))); [|constructor].
  destruct cs as [|c0 rest]; [constructor|].
  repeat (constructor; [reflexivity|]).
  apply Forall_app. split; [|repeat constructor].
  apply Forall_forall. intros c Hc. apply in_map_iff in Hc.
  destruct Hc as (x & E & _). now subst c.
Qed.

Lemma textGlyphs_stage (txt : string) (cs : list Coordinate) :
  forall i, Forall (fun c => fst c = StText) (textGlyphs txt i cs).
Proof. induction cs as [|c cs IH]; intros i; simpl; constructor; auto. Qed.

Lemma textCalls_stage (o : CaptchaOptions) (cs : list Coordinate) :
  Forall (fun c => fst c = StText) (textCalls o cs).
Proof.
  unfold textCalls. destruct (positive (co_opacity o)); [|constructor].
  repeat (constructor; [reflexivity|]). apply textGlyphs_stage.
Qed.

Lemma stage_differs (st st' : Stage) (l : list Call) :
  st <> st' -> Forall (fun c => fst c = st) l -> Forall (fun c => fst c <> st') l.
Proof.
  intros Hne H. eapply Forall_impl; [|exact H]. intros c E. now rewrite E.
Qed.

Lemma decoyPart_stage (this : CaptchaGenerator) (glyphs : list Call) :
  Forall (fun c => isDecoyGlyph c = true) glyphs ->
  Forall (fun c => fst c = StDecoy)
         (if positive (do_opacity (decoy this))
          then decoyHeader this ++ glyphs else []).
Proof.
  intros H. destruct (positive (do_opacity (decoy this))); [|constructor].
  apply Forall_app. split; [repeat constructor | now apply isDecoyGlyph_stage].
Qed.

Lemma pathPoint_traceCalls (this : CaptchaGenerator) (cs : list Coordinate) :
  positive (to_opacity (trace this)) = true ->
  collect pathPoint (traceCalls this cs) = map pointOf cs.
Proof.
  intros H. unfold traceCalls. rewrite H.
  destruct cs as [|c0 rest]; [reflexivity|].
  simpl. f_equal. rewrite collect_app. simpl. rewrite app_nil_r.
  induction rest as [|c rest IH]; simpl; [reflexivity | now rewrite IH].
Qed.

Lemma textPoint_textGlyphs (txt : string) (cs : list Coordinate) :
  forall i, collect textPoint (textGlyphs txt i cs) = map pointOf cs.
Proof.
  induction cs as [|c cs IH]; intros i; simpl; [reflexivity | now rewrite IH].
Qed.

Lemma textGlyph_textGlyphs (txt : string) (cs : list Coordinate) :
  forall i, collect textGlyph (textGlyphs txt i cs) =
            map (fun j => String.get j txt) (seq i (List.length cs)).
Proof.
  induction cs as [|c cs IH]; intros i; simpl; [reflexivity | now rewrite IH].
Qed.

(** X15: in a run that returns with the trace and the text block both on,
    the points of the stroke ([moveTo], then the [lineTo]s) are, in order,
    the positions of the challenge glyphs: one per character, the sorted
    layout coordinates. *)
Theorem stroke_threads_text (this : CaptchaGenerator) (w : World) :
  backgroundResolves this w -> decoyPasses this ->
  1 <= characters this w ->
  positive (to_opacity (trace this)) = true ->
  positive (co_opacity (store w (captcha this))) = true ->
  exists calls coordinates,
    fst (generate this w) = Ok calls /\
    fst (layout this w) = Ok coordinates /\
    collect pathPoint calls = map pointOf (sortByX coordinates) /\
    collect textPoint calls = map pointOf (sortByX coordinates) /\
    List.length (collect textPoint calls) = Z.to_nat (characters this w).
Proof.
  intros Hbg Hdec Hn Htr Htx.
  destruct (generate_calls this w Hbg Hdec (or_intror Hn))
    as (glyphs & E & Hall & _).
  destruct (layout_layoutOf this w) as (cs & Ecs & L).
  eexists. exists cs. split; [exact E|]. split; [exact Ecs|]. rewrite L.
  pose proof (decoyPart_stage this glyphs Hall) as Hd.
  pose proof (backgroundCalls_stage this w) as Hb.
  assert (P : collect pathPoint
                (setupCalls this ++ backgroundCalls this w ++
                 (if positive (do_opacity (decoy this))
                  then decoyHeader this ++ glyphs else []) ++
                 traceCalls this (layoutOf this w) ++
                 textCalls (store w (captcha this)) (layoutOf this w) ++
                 [(StOutput, ToBuffer)])
              = map pointOf (layoutOf this w)).
  { rewrite !collect_app.
    rewrite (pathPoint_other (backgroundCalls this w))
      by (eapply stage_differs; [|exact Hb]; discriminate).
    rewrite (pathPoint_other (if positive (do_opacity (decoy this)) then _ else _))
      by (eapply stage_differs; [|exact Hd]; discriminate).
    rewrite (pathPoint_other (textCalls _ _))
      by (eapply stage_differs; [|apply textCalls_stage]; discriminate).
    rewrite pathPoint_traceCalls by exact Htr.
    simpl. now rewrite app_nil_r. }
  assert (T : collect textPoint
                (setupCalls this ++ backgroundCalls this w ++
                 (if positive (do_opacity (decoy this))
                  then decoyHeader this ++ glyphs else []) ++
                 traceCalls this (layoutOf this w) ++
                 textCalls (store w (captcha this)) (layoutOf this w) ++
                 [(StOutput, ToBuffer)])
              = map pointOf (layoutOf this w)).
  { rewrite !collect_app.
    rewrite (textPoint_other (backgroundCalls this w))
      by (eapply stage_differs; [|exact Hb]; discriminate).
    rewrite (textPoint_other (if positive (do_opacity (decoy this)) then _ else _))
      by (eapply stage_differs; [|exact Hd]; discriminate).
    rewrite (textPoint_other (traceCalls _ _))
      by (eapply stage_differs; [|apply traceCalls_stage]; discriminate).
    unfold textCalls. rewrite Htx. rewrite collect_app.
    rewrite textPoint_textGlyphs. simpl. now rewrite app_nil_r. }
  split; [exact P|]. split; [exact T|].
  rewrite T, length_map. apply layoutOf_length.
Qed.

Lemma stroke_threads_text_witness :
  exists calls coordinates,
    fst (generate sampleGenerator sampleState) = Ok calls /\
    fst (layout sampleGenerator sampleState) = Ok coordinates /\
    collect pathPoint calls = map pointOf (sortByX coordinates) /\
    collect textPoint calls = map pointOf (sortByX coordinates) /\
    List.length (collect textPoint calls) =
      Z.to_nat (characters sampleGenerator sampleState).
Proof.
  apply (stroke_threads_text sampleGenerator sampleState).
  - left. reflexivity.
  - right. vm_compute. split; discriminate.
  - unfold characters. simpl. lia.
  - reflexivity.
  - reflexivity.
Defined.

(** The glyphs of the text block in a run that returns. *)
Lemma text_glyphs_of_run (this : CaptchaGenerator) (w : World) :
  backgroundResolves this w -> decoyPasses this -> tracePasses this w ->
  positive (co_opacity (store w (captcha this))) = true ->
  exists calls,
    fst (generate this w) = Ok calls /\
    collect textGlyph calls =
      map (fun i => String.get i (text this w))
          (seq 0 (Z.to_nat (characters this w))).
Proof.
  intros Hbg Hdec Htr Htx.
  destruct (generate_calls this w Hbg Hdec Htr) as (glyphs & E & Hall & _).
  eexists. split; [exact E|].
  pose proof (decoyPart_stage this glyphs Hall) as Hd.
  pose proof (backgroundCalls_stage this w) as Hb.
  rewrite !collect_app.
  rewrite (textGlyph_other (backgroundCalls this w))
    by (eapply stage_differs; [|exact Hb]; discriminate).
  rewrite (textGlyph_other (if positive (do_opacity (decoy this)) then _ else _))
    by (eapply stage_differs; [|exact Hd]; discriminate).
  rewrite (textGlyph_other (traceCalls _ _))
    by (eapply stage_differs; [|apply traceCalls_stage]; discriminate).
  unfold textCalls. rewrite Htx. rewrite collect_app.
  rewrite textGlyph_textGlyphs, layoutOf_length. simpl.
  now rewrite app_nil_r.
Qed.


Lemma string_get_past_end (s : string) :
  forall i, (String.length s <= i)%nat -> String.get i s = None.
Proof.
  induction s as [|a s IH]; intros i Hi; [reflexivity|].
  destruct i as [|i]; simpl in *; [lia | apply IH; lia].
Qed.

(** X16: in a run that returns with the text block on, the glyphs drawn by
    the text block are the characters 0, 1, ... of the stored text, one
    for each unit of the character count: where the text is shorter than
    the count, the glyphs past its end are [undefined]; where it is
    longer, its tail is not drawn. *)
Theorem text_glyphs_follow_count (this : CaptchaGenerator) (w : World) :
  backgroundResolves this w -> decoyPasses this -> tracePasses this w ->
  positive (co_opacity (store w (captcha this))) = true ->
  exists calls,
    fst (generate this w) = Ok calls /\
    collect textGlyph calls =
      map (fun i => String.get i (text this w))
          (seq 0 (Z.to_nat (characters this w))) /\
    List.length (collect textGlyph calls) = Z.to_nat (characters this w) /\
    (forall i, (String.length (text this w) <= i < Z.to_nat (characters this w))%nat ->
       nth_error (collect textGlyph calls) i = Some None).
Proof.
  intros Hbg Hdec Htr Htx.
  destruct (text_glyphs_of_run this w Hbg Hdec Htr Htx) as (calls & E & G).
  exists calls. split; [exact E|]. split; [exact G|]. rewrite G. split.
  - now rewrite length_map, length_seq.
  - intros i Hi.
    rewrite nth_error_map, nth_error_seq.
    replace (i <? Z.to_nat (characters this w))%nat with true
      by (symmetry; apply Nat.ltb_lt; lia).
    simpl. f_equal. apply string_get_past_end. lia.
Qed.

Lemma text_glyphs_follow_count_witness :
  exists calls,
    fst (generate sampleGenerator sampleState) = Ok calls /\
    collect textGlyph calls =
      map (fun i => String.get i (text sampleGenerator sampleState))
          (seq 0 (Z.to_nat (characters sampleGenerator sampleState))) /\
    List.length (collect textGlyph calls) =
      Z.to_nat (characters sampleGenerator sampleState) /\
    (forall i, (String.length (text sampleGenerator sampleState) <= i
                < Z.to_nat (characters sampleGenerator sampleState))%nat ->
       nth_error (collect textGlyph calls) i = Some None).
Proof.
  apply (text_glyphs_follow_count sampleGenerator sampleState).
  - left. reflexivity.
  - right. vm_compute. split; discriminate.
  - right. unfold characters. simpl. lia.
  - reflexivity.
Defined.

(** ** The glyphs of the decoy block (lines 141-150) *)

Lemma decoyLoop_within (this : CaptchaGenerator) (l : list ascii) :
  60 < width this -> 60 < height this ->
  Forall (fun c => Str.isHexLower c = true) l ->
  forall w, unitInterval (mathRandom w) ->
  exists w' glyphs,
    decoyLoop this l w = (Ok tt, w') /\
    surface w' = surface w ++ glyphs /\
    List.length glyphs = List.length l /\
    Forall (decoyGlyphWithin (width this) (height this)) glyphs.
Proof.
  intros HW HH Hl. induction Hl as [|ch l Hch Hl IH]; intros w Hr; simpl.
  - exists w, []. rewrite app_nil_r. repeat split. constructor.
  - unfold bind at 1. rewrite getRandom_run.
    unfold bind at 1. rewrite getRandom_run.
    unfold bind at 1, emit at 1.
    match goal with |- context [decoyLoop this l ?w1] =>
      destruct (IH w1 Hr) as (w' & glyphs & E & Hg & Hlen & Hall) end.
    exists w'. eexists. split; [exact E|].
    split; [rewrite Hg; simpl; rewrite <- app_assoc; reflexivity|].
    split; [simpl; now rewrite Hlen|].
    constructor; [|exact Hall].
    eexists. eexists. eexists. split; [reflexivity|]. split; [exact Hch|].
    split.
    + destruct (Hr (mathPos w)). now apply randomIn_range.
    + destruct (Hr (S (mathPos w))). now apply randomIn_range.
Qed.

(** X17: on a canvas wider and higher than 60, with values of
    [Math.random] that are doubles in [0, 1), a decoy block that is on and
    whose size [floor(H * W / 10000)] is at most 268435444, the largest
    buffer with a hexadecimal string, issues its three styling calls and
    then only glyphs that are lower-case hexadecimal digits, each at
    integer coordinates [x] in [30, W - 30) and [y] in [30, H - 30), the
    products being rounded as the code rounds them, two for each random
    byte. *)
Theorem decoy_glyphs_within_margins (this : CaptchaGenerator) (w : World) :
  let n := (height this * width this) / 10000 in
  60 < width this -> 60 < height this ->
  unitInterval (mathRandom w) ->
  positive (do_opacity (decoy this)) = true ->
  0 <= n <= hexBytesMax ->
  exists w' glyphs,
    decoyStage this w = (Ok tt, w') /\
    surface w' = surface w ++ decoyHeader this ++ glyphs /\
    Forall (decoyGlyphWithin (width this) (height this)) glyphs /\
    Z.of_nat (List.length glyphs) = 2 * n.
Proof.
  intros n HW HH Hr Hpos Hn. unfold decoyStage. rewrite Hpos. fold n.
  pose proof hexBytesMax_randomBytesMax as HM.
  assert (Hb : 0 <= n <= randomBytesMax) by lia.
  rewrite (bind_ok _ _ w _ _ (randomBytes_run n w Hb)).
  unfold bind at 1. rewrite toString_hex_run.
  rewrite length_map, length_seq, Z2Nat.id by lia.
  replace (n <=? hexBytesMax) with true by (symmetry; apply Z.leb_le; lia).
  repeat run_emit.
  match goal with |- context [decoyLoop this ?t ?w1] =>
    destruct (decoyLoop_within this t HW HH (toHex_lower _) w1 Hr)
      as (w' & glyphs & E & Hg & Hlen & Hall) end.
  exists w', glyphs. split; [exact E|].
  split; [rewrite Hg; simpl; rewrite <- !app_assoc; reflexivity|].
  split; [exact Hall|].
  rewrite Hlen, toHex_length, length_map, length_seq. lia.
Qed.

Lemma decoy_glyphs_within_margins_witness :
  exists w' glyphs,
    decoyStage sampleGenerator sampleState = (Ok tt, w') /\
    surface w' = surface sampleState ++ decoyHeader sampleGenerator ++ glyphs /\
    Forall (decoyGlyphWithin (width sampleGenerator) (height sampleGenerator))
           glyphs /\
    Z.of_nat (List.length glyphs) =
      2 * ((height sampleGenerator * width sampleGenerator) / 10000).
Proof.
  apply (decoy_glyphs_within_margins sampleGenerator sampleState).
  - simpl. lia.
  - simpl. lia.
  - exact sampleFloats_unitInterval.
  - reflexivity.
  - vm_compute. split; discriminate.
Defined.

(** ** The canvas of a run (lines 73-77, 119-121) *)

(** X18: after [setDimension(h, v)], every run of [generate], also one
    that throws, begins by building the canvas with width [v] and height
    [h], in that order of arguments, and by setting the text baseline and
    the line join; whatever earlier runs left on their surface is not part
    of it. *)
Theorem generate_builds_canvas_first (this : CaptchaGenerator) (h v : Z) (w : World) :
  exists this' rest,
    setDimension this h v w = (Ok this', w) /\
    surface (snd (generate this' w)) =
      [(StSetup, NewCanvas v h);
       (StSetup, SetTextBaseline "middle");
       (StSetup, SetLineJoin "miter")] ++ rest.
Proof.
  eexists. 
  match goal with |- exists rest, _ /\ surface (snd (generate ?g w)) = _ =>
    destruct (draw_start g w
                (fun coordinates =>
                   backgroundStage g ;;
                   decoyStage g ;;
                   traceStage g (sortByX coordinates) ;;
                   textStage g (sortByX coordinates) ;;
                   emit StOutput ToBuffer ;;
                   w' <- getWorld ;;
                   ret (surface w')))
      as (w1 & E & Hs & _);
    assert (B : issues (store w1) (fun _ => True)
                  (backgroundStage g ;;
                   decoyStage g ;;
                   traceStage g (sortByX
                     (coordinatesFrom (width g) (height g) (characters g w)
                        (mathRandom w) (mathPos w) 0 (Z.to_nat (characters g w)))) ;;
                   textStage g (sortByX
                     (coordinatesFrom (width g) (height g) (characters g w)
                        (mathRandom w) (mathPos w) 0 (Z.to_nat (characters g w)))) ;;
                   emit StOutput ToBuffer ;;
                   w' <- getWorld ;;
                   ret (surface w')))
  end.
  { apply issues_bind; [|intros _].
    { eapply issues_impl; [|apply backgroundStage_issues]. trivial. }
    apply issues_bind; [|intros _].
    { eapply issues_impl; [|apply decoyStage_issues]. trivial. }
    apply issues_bind; [|intros _].
    { eapply issues_impl; [|apply traceStage_issues]. trivial. }
    apply issues_bind; [|intros _].
    { eapply issues_impl; [|apply textStage_issues]. trivial. }
    repeat issues_step. }
  destruct (B w1 eq_refl) as (_ & rest & G & _).
  exists rest. split; [reflexivity|].
  rewrite generate_draw. unfold draw. rewrite E. cbv beta.
  rewrite G, Hs. reflexivity.
Qed.

(** ** [setCaptcha] and the text drawn (lines 92-96, 162-169) *)

Lemma string_get_all (s : string) :
  map (fun i => String.get i s) (seq 0 (String.length s)) =
  map Some (list_ascii_of_string s).
Proof.
  induction s as [|a s IH]; simpl; [reflexivity|].
  f_equal. rewrite <- seq_shift, map_map. exact IH.
Qed.

Lemma setCaptcha_images (this : CaptchaGenerator) (options : SetCaptchaOptions) (w : World) :
  images (snd (setCaptcha this options w)) = images w.
Proof.
  unfold setCaptcha, bind, readObj, allocObj, writeObj, ret.
  now destruct (truthy (sc_text options)).
Qed.

(** X19: after [setCaptcha] with a non-empty [text], a run of [generate]
    that no block stops, with a positive captcha opacity, draws in the
    text block exactly the characters of that text, in order, whatever the
    override says about [characters]. *)
Theorem setCaptcha_text_is_drawn (this : CaptchaGenerator)
    (options : SetCaptchaOptions) (w : World) (s : string) :
  sc_text options = Some s ->
  s <> EmptyString ->
  backgroundResolves this w -> decoyPasses this ->
  positive (pick (sc_opacity options) (co_opacity (store w (captcha this)))) = true ->
  exists this' calls,
    fst (setCaptcha this options w) = Ok this' /\
    fst (generate this' (snd (setCaptcha this options w))) = Ok calls /\
    collect textGlyph calls = map Some (list_ascii_of_string s).
Proof.
  intros Hs Hne Hbg Hdec Hop.
  destruct (setCaptcha_run this options w) as (E1 & E2 & _).
  set (w1 := snd (setCaptcha this options w)) in *.
  set (g := mkCaptchaGenerator (height this) (width this) (background this)
              (nextRef w) (trace this) (decoy this)) in *.
  assert (Ht : truthy (sc_text options) = true).
  { rewrite Hs. now destruct s. }
  rewrite Ht, Hs in E2. simpl pick in E2.
  assert (Etext : text g w1 = s).
  { unfold text. simpl captcha. rewrite E2. unfold mergeCaptcha. now rewrite Hs. }
  assert (Echars : characters g w1 = Z.of_nat (String.length s)).
  { unfold characters. simpl captcha. now rewrite E2. }
  assert (Hlen : (1 <= String.length s)%nat).
  { destruct s; [contradiction | simpl; lia]. }
  destruct (text_glyphs_of_run g w1) as (calls & E & G).
  - unfold backgroundResolves in *. simpl background.
    unfold w1. now rewrite setCaptcha_images.
  - exact Hdec.
  - right. rewrite Echars. lia.
  - simpl captcha. rewrite E2. exact Hop.
  - exists g, calls. split; [exact E1|]. split; [exact E|].
    rewrite G, Etext, Echars, Nat2Z.id. apply string_get_all.
Qed.

Lemma setCaptcha_text_is_drawn_witness :
  exists this' calls,
    fst (setCaptcha sampleGenerator helloOverride sampleState) = Ok this' /\
    fst (generate this' (snd (setCaptcha sampleGenerator helloOverride sampleState)))
      = Ok calls /\
    collect textGlyph calls = map Some (list_ascii_of_string "HELLO").
Proof.
  apply (setCaptcha_text_is_drawn sampleGenerator helloOverride sampleState
           "HELLO"%string).
  - reflexivity.
  - discriminate.
  - left. reflexivity.
  - right. vm_compute. split; discriminate.
  - reflexivity.
Defined.

(** X20: an override of [setCaptcha] without a [text] field leaves the
    text as it is, and the character count becomes the [characters] of the
    override if it has one, and stays as it is otherwise: the count then
    need not be the length of the text. *)
Theorem setCaptcha_without_text (this : CaptchaGenerator)
    (options : SetCaptchaOptions) (w : World) :
  sc_text options = None ->
  exists this',
    fst (setCaptcha this options w) = Ok this' /\
    text this' (snd (setCaptcha this options w)) = text this w /\
    characters this' (snd (setCaptcha this options w)) =
      pick (sc_characters options) (characters this w).
Proof.
  intros Hs.
  destruct (setCaptcha_run this options w) as (E1 & E2 & _).
  eexists. split; [exact E1|].
  unfold text, characters. simpl captcha. rewrite E2, Hs. simpl.
  rewrite Hs. simpl. split; reflexivity.
Qed.

Lemma setCaptcha_without_text_witness :
  exists this',
    fst (setCaptcha sampleGenerator fourCharactersOverride sampleState)
      = Ok this' /\
    text this'
         (snd (setCaptcha sampleGenerator fourCharactersOverride sampleState))
      = text sampleGenerator sampleState /\
    characters this'
         (snd (setCaptcha sampleGenerator fourCharactersOverride sampleState))
      = pick (sc_characters fourCharactersOverride)
             (characters sampleGenerator sampleState).
Proof.
  apply (setCaptcha_without_text sampleGenerator fourCharactersOverride
           sampleState).
  reflexivity.
Defined.

(** After [setCaptcha({characters: 4})] on the text ABABAB the count is 4
    and the text still has 6 characters. *)
Lemma setCaptcha_characters_only_example :
  exists this',
    fst (setCaptcha sampleGenerator fourCharactersOverride sampleState)
      = Ok this' /\
    text this'
         (snd (setCaptcha sampleGenerator fourCharactersOverride sampleState))
      = "ABABAB"%string /\
    characters this'
         (snd (setCaptcha sampleGenerator fourCharactersOverride sampleState))
      = 4.
Proof. eexists. split; [reflexivity|]. split; reflexivity. Qed.
